(** * file-system-mcp: the sandboxed file-access library [lib.ts]

    A shallow embedding of the security-critical part of
    [src/filesystem/lib.ts]: path validation, the exclusive-create /
    atomic-rename writer, the line-based patch engine, the chunked
    head/tail readers and the two search entry points, together with the
    properties the design document states about them.

    The repository carries two revisions of [lib.ts].  Both share
    [validatePath], the allow-list accessors, [tailFile] and [headFile]
    verbatim.  The first revision has [writeFileContent], [applyFileEdits]
    and searches in process; the second revision (the one the test-suite
    exercises) queries [plocate] before walking and delegates content
    search to [rg].  Definitions say which revision they embed when the
    two differ. *)

From Stdlib Require Import ZArith Ascii String List Bool Lia.
From stdpp Require Import base option list gmap strings pretty.

Local Open Scope Z_scope.
Local Open Scope nat_scope.

(** ** JavaScript string primitives

    A JavaScript string is a sequence of UTF-16 code units.  The model
    uses Rocq strings: one character stands for one code unit below 128,
    which is all the library ever inspects ('\n', '\r', '$', white space,
    path separators), and a character outside ASCII is carried as the
    bytes of its UTF-8 form: cutting at ASCII characters, concatenating
    and comparing come to the same in both views.  Files hold
    well-formed UTF-8 text, which reading a file as a whole returns as
    it is; a piece of a file decoded on its own is [toString_utf8] of
    its bytes. *)

Module Js.

Definition LF : ascii := "010"%char.
Definition CR : ascii := "013"%char.

(** [String.prototype.startsWith] and [endsWith]. *)
Definition startsWith (s p : string) : bool := String.prefix p s.

Fixpoint drop (n : nat) (s : string) : string :=
  match n, s with
  | O, _ => s
  | S n', String _ s' => drop n' s'
  | S _, EmptyString => EmptyString
  end.

Fixpoint take (n : nat) (s : string) : string :=
  match n, s with
  | O, _ => EmptyString
  | S n', String c s' => String c (take n' s')
  | S _, EmptyString => EmptyString
  end.

Definition endsWith (s p : string) : bool :=
  (String.length p <=? String.length s)
  && String.eqb (drop (String.length s - String.length p) s) p.

(** [s.slice(from, to)] for indices inside the string. *)
Definition slice (s : string) (from to : nat) : string :=
  take (to - from) (drop from s).

(** [String.prototype.includes]: some suffix of [s] starts with [sub]. *)
Fixpoint includes (s sub : string) : bool :=
  String.prefix sub s
  || match s with
     | EmptyString => false
     | String _ s' => includes s' sub
     end.

(** [cut s pat] splits [s] around the first occurrence of [pat]. *)
Fixpoint cut (s pat : string) : option (string * string) :=
  if String.prefix pat s then Some (EmptyString, drop (String.length pat) s)
  else match s with
       | EmptyString => None
       | String c s' =>
           match cut s' pat with
           | Some (before, after) => Some (String c before, after)
           | None => None
           end
       end.

(** ECMAScript [GetSubstitution] for a string pattern (no capture
    groups): "$$" is a dollar sign, "$&" the match, "$`" the text before
    it and "$'" the text after it; every other character, including a
    dollar sign followed by a digit or by '<', is copied. *)
Fixpoint getSubstitution (matched before after template : string) : string :=
  match template with
  | EmptyString => EmptyString
  | String c rest =>
      match rest with
      | String d rest' =>
          if Ascii.eqb c "$" then
            if Ascii.eqb d "$" then
              String "$" (getSubstitution matched before after rest')
            else if Ascii.eqb d "&" then
              matched +:+ getSubstitution matched before after rest'
            else if Ascii.eqb d "`" then
              before +:+ getSubstitution matched before after rest'
            else if Ascii.eqb d "'" then
              after +:+ getSubstitution matched before after rest'
            else String c (getSubstitution matched before after rest)
          else String c (getSubstitution matched before after rest)
      | EmptyString => String c EmptyString
      end
  end.

(** [s.replace(pat, template)] with a string pattern: the first
    occurrence only. *)
Definition replace (s pat template : string) : string :=
  match cut s pat with
  | Some (before, after) =>
      before +:+ getSubstitution pat before after template +:+ after
  | None => s
  end.

(** [s.split(sep)] for a one-character separator. *)
Fixpoint split (sep : ascii) (s : string) : list string :=
  match s with
  | EmptyString => [EmptyString]
  | String c s' =>
      if Ascii.eqb c sep then EmptyString :: split sep s'
      else match split sep s' with
           | l :: ls => String c l :: ls
           | [] => [String c EmptyString]
           end
  end.

(** [xs.join(sep)]. *)
Definition join (sep : string) (xs : list string) : string :=
  String.concat sep xs.

(** White space and line terminators, as [trim] and the regular
    expression class [\s] see them (code units below 256). *)
Definition isWhite (c : ascii) : bool :=
  match nat_of_ascii c with
  | 9 | 10 | 11 | 12 | 13 | 32 | 160 => true
  | _ => false
  end.

(** [s.match(/^\s*/)[0]]: the leading white space. *)
Fixpoint leadingWhite (s : string) : string :=
  match s with
  | String c s' => if isWhite c then String c (leadingWhite s') else EmptyString
  | EmptyString => EmptyString
  end.

Fixpoint trimStart (s : string) : string :=
  match s with
  | String c s' => if isWhite c then trimStart s' else s
  | EmptyString => EmptyString
  end.

Fixpoint trimEnd (s : string) : string :=
  match s with
  | EmptyString => EmptyString
  | String c s' =>
      match trimEnd s' with
      | EmptyString => if isWhite c then EmptyString else String c EmptyString
      | t => String c t
      end
  end.

Definition trim (s : string) : string := trimEnd (trimStart s).

Fixpoint repeat (s : string) (n : nat) : string :=
  match n with
  | O => EmptyString
  | S n' => s +:+ repeat s n'
  end.

(** [s.lastIndexOf(c)] for one character; [None] is JavaScript's -1. *)
Fixpoint lastIndexOf (c : ascii) (s : string) : option nat :=
  match s with
  | EmptyString => None
  | String d s' =>
      match lastIndexOf c s' with
      | Some i => Some (S i)
      | None => if Ascii.eqb d c then Some 0 else None
      end
  end.

(** [text.replace(/\r\n/g, '\n')]. *)
Fixpoint replaceCRLF (text : string) : string :=
  match text with
  | EmptyString => EmptyString
  | String c rest =>
      match rest with
      | String d rest' =>
          if Ascii.eqb c CR && Ascii.eqb d LF
          then String LF (replaceCRLF rest')
          else String c (replaceCRLF rest)
      | EmptyString => String c EmptyString
      end
  end.

(** Whether every byte of [s] is below 128. *)
Fixpoint isAscii (s : string) : bool :=
  match s with
  | EmptyString => true
  | String c s' => (nat_of_ascii c <=? 127) && isAscii s'
  end.

(** U+FFFD, in its UTF-8 form. *)
Definition REPLACEMENT : string :=
  String "239" (String "191" (String "189" EmptyString)).

(** A character the decoder is in the middle of: its bytes so far, the
    number still expected, and the range allowed for the next one. *)
Record Utf8Pending : Type :=
  { seen : string; needed : nat; lower : nat; upper : nat }.

(** A byte met between two characters: an ASCII byte is a character, a
    lead byte opens one, any other byte is ill-formed. *)
Definition utf8Lead (c : ascii) : string * option Utf8Pending :=
  let b := nat_of_ascii c in
  let one := String c EmptyString in
  if b <=? 127 then (one, None)
  else if (194 <=? b) && (b <=? 223) then
    (EmptyString, Some {| seen := one; needed := 1; lower := 128; upper := 191 |})
  else if (224 <=? b) && (b <=? 239) then
    (EmptyString,
     Some {| seen := one; needed := 2;
             lower := if b =? 224 then 160 else 128;
             upper := if b =? 237 then 159 else 191 |})
  else if (240 <=? b) && (b <=? 244) then
    (EmptyString,
     Some {| seen := one; needed := 3;
             lower := if b =? 240 then 144 else 128;
             upper := if b =? 244 then 143 else 191 |})
  else (REPLACEMENT, None).

(** The UTF-8 decoder of the Encoding Standard, which [Buffer] follows:
    a well-formed sequence is a character, and every maximal ill-formed
    run of bytes, a sequence cut short by the end of the input included,
    becomes one U+FFFD; the byte that breaks a sequence is looked at
    again as the start of the next one. *)
Fixpoint utf8Decode (pending : option Utf8Pending) (bytes : string) : string :=
  match bytes with
  | EmptyString =>
      match pending with
      | Some _ => REPLACEMENT
      | None => EmptyString
      end
  | String c rest =>
      match pending with
      | None =>
          fst (utf8Lead c) +:+ utf8Decode (snd (utf8Lead c)) rest
      | Some q =>
          let b := nat_of_ascii c in
          if (lower q <=? b) && (b <=? upper q) then
            match needed q with
            | S (S n) =>
                utf8Decode
                  (Some {| seen := seen q +:+ String c EmptyString; needed := S n;
                           lower := 128; upper := 191 |}) rest
            | _ => seen q +:+ String c (utf8Decode None rest)
            end
          else
            REPLACEMENT +:+ fst (utf8Lead c) +:+ utf8Decode (snd (utf8Lead c)) rest
      end
  end.

(** [buffer.toString('utf-8')]. *)
Definition toString_utf8 (bytes : string) : string := utf8Decode None bytes.

End Js.

(** ** Errors, outcomes and the effect monad *)

(** [error.code] is a string for system errors ('ENOENT') and a number for
    the exit status of a child process. *)
Inductive Code : Type :=
| CodeStr (s : string)
| CodeNum (n : Z).

Record JsError : Type := mkError { message : string; code : option Code }.

(** [new Error(msg)]: no [code] property. *)
Definition Error (msg : string) : JsError := {| message := msg; code := None |}.

(** A system error such as [ENOENT]. *)
Definition errno (name : string) : JsError :=
  {| message := name; code := Some (CodeStr name) |}.

Definition codeIs (e : JsError) (name : string) : bool :=
  match code e with
  | Some (CodeStr s) => String.eqb s name
  | _ => false
  end.

Definition codeIsNum (e : JsError) (n : Z) : bool :=
  match code e with
  | Some (CodeNum m) => Z.eqb m n
  | _ => false
  end.

(** The error taxonomy of the design document, read off the message the
    library builds. *)
Inductive ErrorKind : Type :=
| AccessDenied | SymlinkEscape | ParentMissing | NoMatchFound | OtherError.

Definition kindOf (e : JsError) : ErrorKind :=
  if Js.startsWith (message e) "Access denied - symlink target outside allowed directories"
  then SymlinkEscape
  else if Js.startsWith (message e) "Access denied" then AccessDenied
  else if Js.startsWith (message e) "Parent directory does not exist" then ParentMissing
  else if Js.startsWith (message e) "Could not find exact match for edit" then NoMatchFound
  else OtherError.

(** What an [async] function does: it resolves, rejects, or has not
    finished within the fuel given to a loop of the model. *)
Inductive Outcome (A : Type) : Type :=
| Return (a : A)
| Throw (e : JsError)
| Diverge.
Arguments Return {A} a.
Arguments Throw {A} e.
Arguments Diverge {A}.

(** ** The world: arrays on the heap, the file system, child processes *)

Inductive Node : Type :=
| File (content : string)
| Symlink (target : string)
| Directory.

Inductive FsCall : Type :=
| CRealpath (p : string)
| CStat (p : string)
| CAccess (p : string)
| CReadFile (p : string)
| CWriteFile (p content : string) (exclusive : bool)
| CRename (src dst : string)
| CUnlink (p : string)
| COpen (p : string)
| CRead (p : string) (size position : nat)
| CClose (p : string)
| CReaddir (p : string)
| CExec (cmd : string) (args : list string).

(** A failure injected by the environment: the error, and for a write
    what it left at the path before failing. *)
Record Fault : Type := { f_error : JsError; f_residue : option string }.

Record Dirent : Type :=
  { d_name : string; d_isFile : bool; d_isDirectory : bool }.

Record Stats : Type :=
  { size : nat; isFile : bool; isDirectory : bool }.

Record FileHandle : Type := { h_path : string }.

Record State : Type := mkState {
  heap : gmap nat (list string);   (* the string arrays alive in the process *)
  allowedDirectories : nat;        (* the module variable: a reference *)
  nodes : gmap string Node;        (* what sits at each absolute path *)
  trace : list FsCall;             (* system calls so far, oldest first *)
  drawn : nat                      (* calls of randomBytes so far *)
}.

(** Everything the library takes from outside: the two helper modules
    that accompany [lib.ts], Node's [path] and [process], the [minimatch]
    and [diff] packages, the regular-expression engine, and the operating
    system's answers. *)
Record Env : Type := {
  (* ./path-utils.js *)
  expandHome : string -> string;
  normalizePath : string -> string;
  (* node:path and process *)
  sep : string;
  isAbsolute : string -> bool;
  path_resolve : list string -> string;
  cwd : string;
  path_dirname : string -> string;
  path_basename : string -> string;
  path_join : string -> string -> string;
  path_relative : string -> string -> string;
  PLOCATE_DB : option string;
  (* packages and built-ins *)
  minimatch : string -> string -> bool -> bool;
  createTwoFilesPatch : string -> string -> string -> string -> string -> string -> string;
  regexCompile : string -> string -> JsError + (string -> bool);
  (* the operating system *)
  realpath : string -> JsError + string;
  readdir : string -> JsError + list Dirent;
  fault : nat -> FsCall -> option Fault;
  randomHex : nat -> string;
  execFile : string -> list string -> JsError + (string * string)
}.

Definition M (A : Type) : Type := State -> Outcome A * State.

Definition ret {A} (a : A) : M A := fun st => (Return a, st).
Definition throw {A} (e : JsError) : M A := fun st => (Throw e, st).
Definition diverge {A} : M A := fun st => (Diverge, st).

Definition bind {A B} (m : M A) (k : A -> M B) : M B :=
  fun st =>
    match m st with
    | (Return a, st') => k a st'
    | (Throw e, st') => (Throw e, st')
    | (Diverge, st') => (Diverge, st')
    end.

Declare Scope js_scope.
Delimit Scope js_scope with js.
Notation "x <- m ;; k" := (bind m (fun x => k))
  (at level 100, m at next level, right associativity) : js_scope.
Notation "m ;;; k" := (bind m (fun _ => k))
  (at level 100, right associativity) : js_scope.
Local Open Scope js_scope.

(** [try { body } catch (e) { handler }]. *)
Definition try_catch {A} (body : M A) (handler : JsError -> M A) : M A :=
  fun st =>
    match body st with
    | (Throw e, st') => handler e st'
    | r => r
    end.

(** [try { body } finally { fin }]: [fin] runs on both exits, and an error
    of [fin] replaces the outcome of [body]. *)
Definition try_finally {A} (body : M A) (fin : M unit) : M A :=
  fun st =>
    match body st with
    | (Diverge, st') => (Diverge, st')
    | (r, st') =>
        match fin st' with
        | (Return _, st'') => (r, st'')
        | (Throw e, st'') => (Throw e, st'')
        | (Diverge, st'') => (Diverge, st'')
        end
    end.

Definition get {A} (f : State -> A) : M A := fun st => (Return (f st), st).

Definition setNodes (m : gmap string Node) (st : State) : State :=
  mkState (heap st) (allowedDirectories st) m (trace st) (drawn st).

Definition log (c : FsCall) (st : State) : State :=
  mkState (heap st) (allowedDirectories st) (nodes st) (trace st ++ [c]) (drawn st).

(** One more call of [randomBytes]. *)
Definition bump (st : State) : State :=
mkState (heap st) (allowedDirectories st) (nodes st) (trace st) (S (drawn st)).

(** *** Arrays *)

(** [arr = value] for the whole contents of an array the caller holds:
    any sequence of [push], [pop], [splice] or index writes. *)
Definition store (l : nat) (xs : list string) (st : State) : State :=
  mkState (<[l := xs]> (heap st)) (allowedDirectories st) (nodes st) (trace st) (drawn st).

Definition deref (st : State) (l : nat) : list string :=
  default [] (heap st !! l).

(** [[...xs]]: a new array with the same elements. *)
Definition spread (l : nat) : M nat :=
  fun st =>
    let l' := fresh (dom (heap st)) in
    (Return l',
     mkState (<[l' := deref st l]> (heap st)) (allowedDirectories st)
             (nodes st) (trace st) (drawn st)).

(** The array the module variable refers to right now. *)
Definition allowed (st : State) : list string := deref st (allowedDirectories st).
(** The options of a content search, with the defaults of
    [searchFileContents] filled in ([maxResults = 100], [context = 0],
    [filePattern = '*'], ...). *)
Record GrepOptions : Type := {
  searchPath : string;
  pattern : string;
  ignoreCase : bool;
  recursive : bool;
  maxResults : Z;
  context : Z;
  beforeContext : option Z;
  afterContext : option Z;
  filePattern : string;
  includeLineNumbers : bool;
  excludePatterns : list string;
  invertMatch : bool;
  fixedStrings : bool
}.

Record GrepMatch : Type := {
  file : string;
  lineNumber : Z;
  content : string;
  contextBefore : list string;
  contextAfter : list string
}.

(** ** The library *)

Section Library.

Variable E : Env.

(** *** System calls *)

(** A call on the concrete part of the file system: it is logged, and
    the environment may fail it. *)
Definition syscall {A} (c : FsCall) (run : State -> Outcome A * State) : M A :=
  fun st =>
    match fault E (length (trace st)) c with
    | Some f => (Throw (f_error f), log c st)
    | None => run (log c st)
    end.

(** [fs.realpath]: the result depends on every component of the path
    and on every link on the way, so it is the environment's answer. *)
Definition fs_realpath (p : string) : M string :=
  fun st =>
    match realpath E p with
    | inl e => (Throw e, log (CRealpath p) st)
    | inr r => (Return r, log (CRealpath p) st)
    end.

(** [fs.readdir(p, { withFileTypes: true })]. *)
Definition fs_readdir (p : string) : M (list Dirent) :=
  fun st =>
    match readdir E p with
    | inl e => (Throw e, log (CReaddir p) st)
    | inr entries => (Return entries, log (CReaddir p) st)
    end.

(** [promisify(execFile)(cmd, args, options)]: resolves with the two
    output streams, rejects with the exit status in [code]. *)
Definition execFileAsync (cmd : string) (args : list string) : M (string * string) :=
  fun st =>
    match execFile E cmd args with
    | inl e => (Throw e, log (CExec cmd args) st)
    | inr out => (Return out, log (CExec cmd args) st)
    end.

(** The file a path leads to when its last component is a link. *)
Fixpoint follow (fuel : nat) (m : gmap string Node) (p : string) : option string :=
  match m !! p with
  | Some (Symlink t) =>
      match fuel with
      | O => None
      | S n => follow n m t
      end
  | _ => Some p
  end.

Definition fs_stat (p : string) : M Stats :=
  syscall (CStat p) (fun st =>
    match follow 40 (nodes st) p with
    | None => (Throw (errno "ELOOP"), st)
    | Some t =>
        match nodes st !! t with
        | Some (File c) =>
            (Return {| size := String.length c; isFile := true; isDirectory := false |}, st)
        | Some Directory =>
            (Return {| size := 4096; isFile := false; isDirectory := true |}, st)
        | _ => (Throw (errno "ENOENT"), st)
        end
    end).

Definition fs_access (p : string) : M unit :=
  syscall (CAccess p) (fun st =>
    match follow 40 (nodes st) p with
    | None => (Throw (errno "ELOOP"), st)
    | Some t =>
        match nodes st !! t with
        | Some _ => (Return tt, st)
        | None => (Throw (errno "ENOENT"), st)
        end
    end).

Definition fs_readFile (p : string) : M string :=
  syscall (CReadFile p) (fun st =>
    match follow 40 (nodes st) p with
    | None => (Throw (errno "ELOOP"), st)
    | Some t =>
        match nodes st !! t with
        | Some (File c) => (Return c, st)
        | Some Directory => (Throw (errno "EISDIR"), st)
        | _ => (Throw (errno "ENOENT"), st)
        end
    end).

(** What a failed write leaves behind. *)
Definition leave (p : string) (exclusive : bool) (residue : option string)
    (st : State) : State :=
  match residue, nodes st !! p with
  | Some r, None => setNodes (<[p := File r]> (nodes st)) st
  | Some r, Some (File _) =>
      if exclusive then st else setNodes (<[p := File r]> (nodes st)) st
  | _, _ => st
  end.

(** The directory in which an entry at [p] is created: what stands
    before the last slash of [p]. *)
Definition parentDirectory (p : string) : string :=
  match Js.lastIndexOf "/" p with
  | Some 0 => "/"
  | Some i => Js.take i p
  | None => cwd E
  end.

(** [fs.writeFile(p, content, { flag })]; [exclusive] is the flag 'wx',
    which refuses whatever already sits at [p], a link included, and
    never follows it; the new entry needs the directory it is created
    in.  Without the flag the library writes only the temporary sibling
    of a path that it has found occupied or has read. *)
Definition fs_writeFile (p content : string) (exclusive : bool) : M unit :=
  fun st =>
    let c := CWriteFile p content exclusive in
    match fault E (length (trace st)) c with
    | Some f => (Throw (f_error f), leave p exclusive (f_residue f) (log c st))
    | None =>
        if exclusive then
          match nodes st !! p with
          | None =>
              match follow 40 (nodes st) (parentDirectory p) with
              | None => (Throw (errno "ELOOP"), log c st)
              | Some d =>
                  match nodes st !! d with
                  | Some Directory =>
                      (Return tt, setNodes (<[p := File content]> (nodes st)) (log c st))
                  | Some (File _) => (Throw (errno "ENOTDIR"), log c st)
                  | _ => (Throw (errno "ENOENT"), log c st)
                  end
              end
          | Some _ => (Throw (errno "EEXIST"), log c st)
          end
        else
          match follow 40 (nodes st) p with
          | None => (Throw (errno "ELOOP"), log c st)
          | Some t =>
              match nodes st !! t with
              | Some Directory => (Throw (errno "EISDIR"), log c st)
              | _ => (Return tt, setNodes (<[t := File content]> (nodes st)) (log c st))
              end
          end
    end.

(** [fs.rename]: the entry at [dst] is replaced, never followed. *)
Definition fs_rename (src dst : string) : M unit :=
  syscall (CRename src dst) (fun st =>
    match nodes st !! src with
    | None => (Throw (errno "ENOENT"), st)
    | Some n =>
        match n, nodes st !! dst with
        | File _, Some Directory => (Throw (errno "EISDIR"), st)
        | _, _ => (Return tt, setNodes (<[dst := n]> (delete src (nodes st))) st)
        end
    end).

Definition fs_unlink (p : string) : M unit :=
  syscall (CUnlink p) (fun st =>
    match nodes st !! p with
    | None => (Throw (errno "ENOENT"), st)
    | Some Directory => (Throw (errno "EISDIR"), st)
    | Some _ => (Return tt, setNodes (delete p (nodes st)) st)
    end).

Definition fs_open (p : string) : M FileHandle :=
  syscall (COpen p) (fun st =>
    match follow 40 (nodes st) p with
    | None => (Throw (errno "ELOOP"), st)
    | Some t =>
        match nodes st !! t with
        | Some _ => (Return {| h_path := t |}, st)
        | None => (Throw (errno "ENOENT"), st)
        end
    end).

(** [fileHandle.read(chunk, 0, size, position)] followed by
    [chunk.slice(0, bytesRead)]: the bytes read; [bytesRead] is their
    number. *)
Definition handle_read (h : FileHandle) (sz position : nat) : M string :=
  syscall (CRead (h_path h) sz position) (fun st =>
    match nodes st !! h_path h with
    | Some (File c) => (Return (Js.slice c position (position + sz)), st)
    | Some Directory => (Throw (errno "EISDIR"), st)
    | _ => (Throw (errno "EBADF"), st)
    end).

Definition handle_close (h : FileHandle) : M unit :=
  syscall (CClose (h_path h)) (fun st => (Return tt, st)).

(** [randomBytes(16).toString('hex')]. *)
Definition randomBytesHex : M string :=
  fun st => (Return (randomHex E (drawn st)), bump st).

(** *** The allow-list *)

(** [allowedDirectories = [...directories]]. *)
Definition setAllowedDirectories (directories : nat) : M unit :=
  copy <- spread directories ;;
  fun st =>
    (Return tt, mkState (heap st) copy (nodes st) (trace st) (drawn st)).

(** [return [...allowedDirectories]]. *)
Definition getAllowedDirectories : M nat :=
  current <- get allowedDirectories ;;
  spread current.

(** *** Pure utilities *)

Definition nl : string := String Js.LF EmptyString.

Definition nonEmpty (s : string) : bool :=
match s with EmptyString => false | _ => true end.

Definition normalizeLineEndings (text : string) : string := Js.replaceCRLF text.

Definition createUnifiedDiff (originalContent newContent filepath : string) : string :=
  let normalizedOriginal := normalizeLineEndings originalContent in
  let normalizedNew := normalizeLineEndings newContent in
  createTwoFilesPatch E filepath filepath normalizedOriginal normalizedNew
    "original" "modified".

(** *** Security and validation *)

(** Modelled from the spec: [isPathWithinAllowedDirectories], which the
    library imports from [./path-validation.js]; that module is not
    among the sources.  "Containment test: path equals a root, or
    starts with root + separator." *)
Definition isPathWithinAllowedDirectories (p : string) (dirs : list string) : bool :=
  existsb (fun root => String.eqb p root || Js.startsWith p (root +:+ sep E)) dirs.

(** The same test as the design document words it: a path is inside
    when it "is either equal to one member or nested under one with a
    proper path-segment boundary", and outside otherwise. *)
Definition Inside (p : string) (dirs : list string) : Prop :=
  exists root, In root dirs /\ (p = root \/ Js.startsWith p (root +:+ sep E) = true).

Definition Outside (p : string) (dirs : list string) : Prop :=
  forall root, In root dirs -> p <> root /\ Js.startsWith p (root +:+ sep E) = false.

(** [path.isAbsolute(expandedPath) ? path.resolve(expandedPath)
     : path.resolve(process.cwd(), expandedPath)]. *)
Definition absolutePath (requestedPath : string) : string :=
  let expandedPath := expandHome E requestedPath in
  if isAbsolute E expandedPath
  then path_resolve E [expandedPath]
  else path_resolve E [cwd E; expandedPath].

Definition validatePath (requestedPath : string) : M string :=
  let absolute := absolutePath requestedPath in
  let normalizedRequested := normalizePath E absolute in
  dirs <- get allowed ;;
  let isAllowed := isPathWithinAllowedDirectories normalizedRequested dirs in
  if negb isAllowed then
    throw (Error ("Access denied - path outside allowed directories: "
                  +:+ absolute +:+ " not in " +:+ Js.join ", " dirs))
  else
    try_catch
      (realPath <- fs_realpath absolute ;;
       let normalizedReal := normalizePath E realPath in
       dirs <- get allowed ;;
       if negb (isPathWithinAllowedDirectories normalizedReal dirs) then
         throw (Error ("Access denied - symlink target outside allowed directories: "
                       +:+ realPath +:+ " not in " +:+ Js.join ", " dirs))
       else ret realPath)
      (fun error =>
         if codeIs error "ENOENT" then
           let parentDir := path_dirname E absolute in
           try_catch
             (realParentPath <- fs_realpath parentDir ;;
              let normalizedParent := normalizePath E realParentPath in
              dirs <- get allowed ;;
              if negb (isPathWithinAllowedDirectories normalizedParent dirs) then
                throw (Error ("Access denied - parent directory outside allowed directories: "
                              +:+ realParentPath +:+ " not in " +:+ Js.join ", " dirs))
              else ret absolute)
             (fun _ =>
                throw (Error ("Parent directory does not exist: " +:+ parentDir)))
         else throw error).

(** *** Reading the last and the first lines *)

Definition CHUNK_SIZE : nat := 1024.

(** [for (let i = chunkLines.length - 1; i >= 0 && linesFound < numLines; i--)
      { lines.unshift(chunkLines[i]); linesFound++; }]
    over the chunk's lines from the last to the first. *)
Fixpoint unshiftLines (fromLast lines : list string) (linesFound : nat) (numLines : Z)
  : list string * nat :=
match fromLast with
| [] => (lines, linesFound)
| line :: rest =>
    if (Z.of_nat linesFound <? numLines)%Z
    then unshiftLines rest (line :: lines) (S linesFound) numLines
    else (lines, linesFound)
end.

(** [while (position > 0 && linesFound < numLines)]; every turn moves
    [position] down by at least one byte, so [fuel] starts at the size. *)
Fixpoint tailLoop (fuel : nat) (fileHandle : FileHandle) (numLines : Z)
  (position : nat) (lines : list string) (linesFound : nat) (remainingText : string)
  : M (list string) :=
if (0 <? position) && (Z.of_nat linesFound <? numLines)%Z then
  match fuel with
  | O => diverge
  | S fuel' =>
      let size := Nat.min CHUNK_SIZE position in
      let position := position - size in
      bytes <- handle_read fileHandle size position ;;
      if String.length bytes =? 0 then ret lines
      else
        let readData := Js.toString_utf8 bytes in
        let chunkText := readData +:+ remainingText in
        let chunkLines := Js.split Js.LF (normalizeLineEndings chunkText) in
        let remainingText' :=
          if 0 <? position then hd EmptyString chunkLines else remainingText in
        let chunkLines' := if 0 <? position then tl chunkLines else chunkLines in
        let found := unshiftLines (rev chunkLines') lines linesFound numLines in
        tailLoop fuel' fileHandle numLines position (fst found) (snd found) remainingText'
  end
else ret lines.

Definition tailFile (filePath : string) (numLines : Z) : M string :=
stats <- fs_stat filePath ;;
let fileSize := size stats in
if fileSize =? 0 then ret EmptyString
else
  fileHandle <- fs_open filePath ;;
  try_finally
    (lines <- tailLoop fileSize fileHandle numLines fileSize [] 0 EmptyString ;;
     ret (Js.join nl lines))
    (handle_close fileHandle).

(** [for (const line of completeLines)
      { lines.push(line); if (lines.length >= numLines) break; }]. *)
Fixpoint pushLines (completeLines lines : list string) (numLines : Z) : list string :=
match completeLines with
| [] => lines
| line :: rest =>
    let lines' := lines ++ [line] in
    if (numLines <=? Z.of_nat (length lines'))%Z then lines'
    else pushLines rest lines' numLines
end.

(** [while (lines.length < numLines)]; a turn that reads nothing ends the
    loop, so it makes at most one turn per byte and one more. *)
Fixpoint headLoop (fuel : nat) (fileHandle : FileHandle) (numLines : Z)
  (lines : list string) (buffer : string) (bytesRead : nat)
  : M (list string * string) :=
if (Z.of_nat (length lines) <? numLines)%Z then
  match fuel with
  | O => diverge
  | S fuel' =>
      bytes <- handle_read fileHandle 1024 bytesRead ;;
      if String.length bytes =? 0 then ret (lines, buffer)
      else
        let bytesRead' := bytesRead + String.length bytes in
        let buffer' := buffer +:+ Js.toString_utf8 bytes in
        match Js.lastIndexOf Js.LF buffer' with
        | Some newLineIndex =>
            let completeLines := Js.split Js.LF (Js.slice buffer' 0 newLineIndex) in
            headLoop fuel' fileHandle numLines
              (pushLines completeLines lines numLines)
              (Js.drop (S newLineIndex) buffer') bytesRead'
        | None => headLoop fuel' fileHandle numLines lines buffer' bytesRead'
        end
  end
else ret (lines, buffer).

(** The number of bytes behind a handle, which bounds the turns of
    [headLoop]. *)
Definition bytesBehind (fileHandle : FileHandle) (st : State) : nat :=
match nodes st !! h_path fileHandle with
| Some (File c) => String.length c
| _ => 0
end.

Definition headFile (filePath : string) (numLines : Z) : M string :=
fileHandle <- fs_open filePath ;;
try_finally
  (total <- get (bytesBehind fileHandle) ;;
   read <- headLoop (S total) fileHandle numLines [] EmptyString 0 ;;
   let lines := fst read in
   let buffer := snd read in
   let lines' :=
     if (0 <? String.length buffer) && (Z.of_nat (length lines) <? numLines)%Z
     then lines ++ [buffer] else lines in
   ret (Js.join nl lines'))
  (handle_close fileHandle).

(** *** Writing (first revision of [lib.ts]) *)

(** [`${filePath}.${randomBytes(16).toString('hex')}.tmp`]. *)
Definition tempName (filePath hex : string) : string :=
filePath +:+ "." +:+ hex +:+ ".tmp".

(** [try { writeFile(temp); rename(temp, filePath) }
     catch (e) { try { unlink(temp) } catch {} throw e }]. *)
Definition replaceAtomically (tempPath filePath content : string) : M unit :=
try_catch
  (fs_writeFile tempPath content false ;;; fs_rename tempPath filePath)
  (fun renameError =>
     try_catch (fs_unlink tempPath) (fun _ => ret tt) ;;;
     throw renameError).

Definition writeFileContent (filePath content : string) : M unit :=
try_catch
  (fs_writeFile filePath content true)
  (fun error =>
     if codeIs error "EEXIST" then
       hex <- randomBytesHex ;;
       let tempPath := tempName filePath hex in
       replaceAtomically tempPath filePath content
     else throw error).

(** *** Editing (first revision of [lib.ts]) *)

(** [oldLines.every((oldLine, j) => oldLine.trim() === potentialMatch[j].trim())];
    the window always has as many lines as [oldLines]. *)
Fixpoint windowMatches (oldLines potentialMatch : list string) : bool :=
match oldLines, potentialMatch with
| [], _ => true
| oldLine :: oldLines', contentLine :: rest =>
    String.eqb (Js.trim oldLine) (Js.trim contentLine) && windowMatches oldLines' rest
| _ :: _, [] => false
end.

(** [for (let i = 0; i <= contentLines.length - oldLines.length; i++)]
    with [remaining] iterations to go; the result is the first matching [i]. *)
Fixpoint scanWindows (oldLines contentLines : list string) (i remaining : nat)
  : option nat :=
match remaining with
| O => None
| S remaining' =>
    let potentialMatch := take (length oldLines) (drop i contentLines) in
    if windowMatches oldLines potentialMatch then Some i
    else scanWindows oldLines contentLines (S i) remaining'
end.

Definition findWindow (oldLines contentLines : list string) : option nat :=
if length oldLines <=? length contentLines
then scanWindows oldLines contentLines 0 (S (length contentLines - length oldLines))
else None.

(** The callback of [normalizedNew.split('\n').map((line, j) => ...)]. *)
Definition reindent (originalIndent : string) (oldLines : list string)
  (j : nat) (line : string) : string :=
match j with
| O => originalIndent +:+ Js.trimStart line
| _ =>
    let oldIndent :=
      match oldLines !! j with
      | Some oldLine => Js.leadingWhite oldLine
      | None => EmptyString
      end in
    let newIndent := Js.leadingWhite line in
    if nonEmpty oldIndent && nonEmpty newIndent then
      let relativeIndent := String.length newIndent - String.length oldIndent in
      originalIndent +:+ Js.repeat " " relativeIndent +:+ Js.trimStart line
    else line
end.

(** No window of [contentLines] matches [oldLines]: in every window some
    line differs from its counterpart once both are trimmed. *)
Definition NoWindow (oldLines contentLines : list string) : Prop :=
forall i, i + length oldLines <= length contentLines ->
  exists j oldLine contentLine,
    oldLines !! j = Some oldLine
    /\ contentLines !! (i + j) = Some contentLine
    /\ Js.trim oldLine <> Js.trim contentLine.

Record FileEdit : Type := { oldText : string; newText : string }.

(** One turn of the loop [for (const edit of edits)]. *)
Definition applyEdit (modifiedContent : string) (edit : FileEdit) : JsError + string :=
let normalizedOld := normalizeLineEndings (oldText edit) in
let normalizedNew := normalizeLineEndings (newText edit) in
if Js.includes modifiedContent normalizedOld then
  inr (Js.replace modifiedContent normalizedOld normalizedNew)
else
  let oldLines := Js.split Js.LF normalizedOld in
  let contentLines := Js.split Js.LF modifiedContent in
  match findWindow oldLines contentLines with
  | Some i =>
      let originalIndent :=
        match contentLines !! i with
        | Some l => Js.leadingWhite l
        | None => EmptyString
        end in
      let newLines :=
        imap (reindent originalIndent oldLines) (Js.split Js.LF normalizedNew) in
      let spliced :=
        take i contentLines ++ newLines ++ drop (i + length oldLines) contentLines in
      inr (Js.join nl spliced)
  | None =>
      inl (Error ("Could not find exact match for edit:" +:+ nl +:+ oldText edit))
  end.

Fixpoint applyEdits (modifiedContent : string) (edits : list FileEdit)
  : JsError + string :=
match edits with
| [] => inr modifiedContent
| edit :: rest =>
    match applyEdit modifiedContent edit with
    | inl e => inl e
    | inr modifiedContent' => applyEdits modifiedContent' rest
    end
end.

(** [let n = 3; while (diff.includes('`'.repeat(n))) n++]. *)
Fixpoint fenceLength (diff : string) (numBackticks fuel : nat) : option nat :=
match fuel with
| O => None
| S fuel' =>
    if Js.includes diff (Js.repeat "`" numBackticks)
    then fenceLength diff (S numBackticks) fuel'
    else Some numBackticks
end.

Definition formatDiff (diff : string) (numBackticks : nat) : string :=
Js.repeat "`" numBackticks +:+ "diff" +:+ nl +:+ diff
+:+ Js.repeat "`" numBackticks +:+ nl +:+ nl.

Definition applyFileEdits (filePath : string) (edits : list FileEdit) (dryRun : bool)
  : M string :=
raw <- fs_readFile filePath ;;
let content := normalizeLineEndings raw in
match applyEdits content edits with
| inl e => throw e
| inr modifiedContent =>
    let diff := createUnifiedDiff content modifiedContent filePath in
    match fenceLength diff 3 (S (String.length diff)) with
    | None => diverge
    | Some numBackticks =>
        let formattedDiff := formatDiff diff numBackticks in
        (if negb dryRun then
           hex <- randomBytesHex ;;
           let tempPath := tempName filePath hex in
           replaceAtomically tempPath filePath modifiedContent
         else ret tt) ;;;
        ret formattedDiff
    end
end.

(** *** Searching for files *)

(** [try { await validatePath(p); ... } catch { continue; }]: whether
    the entry passes validation; a failure of any kind skips it. *)
Definition passes (p : string) : M bool :=
try_catch (validatePath p ;;; ret true) (fun _ => ret false).

(** [excludePatterns.some(p => minimatch(relativePath, p, { dot: true }))]. *)
Definition shouldExclude (relativePath : string) (excludePatterns : list string) : bool :=
existsb (fun excludePattern => minimatch E relativePath excludePattern true) excludePatterns.

(** The loop [for (const entry of entries)] of the walk, with the
    [results] array threaded through; [recur] is [search] itself, called
    on sub-directories.  Inside the loop every error is caught and the
    loop continues; the only error that leaves a call of [search] is the
    one of its own [readdir], raised before the call has pushed anything,
    so the caller goes on with the results it had. *)
Fixpoint walkEntries (recur : string -> list string -> M (list string))
  (rootPath pattern : string) (excludePatterns : list string)
  (currentPath : string) (entries : list Dirent) (results : list string)
  : M (list string) :=
match entries with
| [] => ret results
| entry :: rest =>
    let fullPath := path_join E currentPath (d_name entry) in
    valid <- passes fullPath ;;
    if valid then
      let relativePath := path_relative E rootPath fullPath in
      if shouldExclude relativePath excludePatterns
      then walkEntries recur rootPath pattern excludePatterns currentPath rest results
      else
        let results' :=
          if minimatch E relativePath pattern true
          then results ++ [fullPath] else results in
        if d_isDirectory entry then
          results'' <- try_catch (recur fullPath results') (fun _ => ret results') ;;
          walkEntries recur rootPath pattern excludePatterns currentPath rest results''
        else walkEntries recur rootPath pattern excludePatterns currentPath rest results'
    else walkEntries recur rootPath pattern excludePatterns currentPath rest results
end.

(** The recursive walk [search(currentPath)] of both revisions. *)
Fixpoint search (fuel : nat) (rootPath pattern : string) (excludePatterns : list string)
  (currentPath : string) (results : list string) : M (list string) :=
match fuel with
| O => diverge
| S fuel' =>
    entries <- fs_readdir currentPath ;;
    walkEntries (search fuel' rootPath pattern excludePatterns)
      rootPath pattern excludePatterns currentPath entries results
end.

(** [searchFilesWithValidation] of the first revision: the walk alone. *)
Definition searchFilesByWalk (fuel : nat) (rootPath pattern : string)
  (allowedDirectories : list string) (excludePatterns : list string) : M (list string) :=
search fuel rootPath pattern excludePatterns rootPath [].

(** The rest is the second revision. *)

Fixpoint dropSlashes (s : string) : string :=
match s with
| String c s' => if Ascii.eqb c "/" then dropSlashes s' else s
| EmptyString => EmptyString
end.

(** [s.replace(/\/+\*\*$/, '')]: the left-most run of slashes that is
    followed by two stars and the end of the string. *)
Fixpoint stripTrailingGlobstar (s : string) : string :=
match s with
| EmptyString => EmptyString
| String c s' =>
    if Ascii.eqb c "/" && String.eqb (dropSlashes s) "**" then EmptyString
    else String c (stripTrailingGlobstar s')
end.

(** [s.replace(/\*\*\/+/g, '')]; a match consumes at least three
    characters, so the length of [s] is fuel enough. *)
Fixpoint removeGlobstarSlash (fuel : nat) (s : string) : string :=
match fuel with
| O => s
| S fuel' =>
    match s with
    | EmptyString => EmptyString
    | String c s' =>
        if Js.startsWith s "**/"
        then removeGlobstarSlash fuel' (dropSlashes (Js.drop 2 s))
        else String c (removeGlobstarSlash fuel' s')
    end
end.

(** [s.replace(/\/+\*\*/g, '')]. *)
Fixpoint removeSlashGlobstar (fuel : nat) (s : string) : string :=
match fuel with
| O => s
| S fuel' =>
    match s with
    | EmptyString => EmptyString
    | String c s' =>
        if Ascii.eqb c "/" && Js.startsWith (dropSlashes s) "**"
        then removeSlashGlobstar fuel' (Js.drop 2 (dropSlashes s))
        else String c (removeSlashGlobstar fuel' s')
    end
end.

Definition preparePatternForPlocate (globPattern : string) : option string :=
let s1 :=
  if Js.startsWith globPattern "**/" then dropSlashes (Js.drop 2 globPattern)
  else globPattern in
let s2 := stripTrailingGlobstar s1 in
let s3 := removeGlobstarSlash (String.length s2) s2 in
let converted := removeSlashGlobstar (String.length s3) s3 in
if Js.includes converted "**"
   || Js.includes converted "{"
   || Js.includes converted "!("
   || Js.includes converted "?("
   || Js.includes converted "*("
   || Js.includes converted "+("
   || Js.includes converted "@("
   || String.eqb converted ""
   || String.eqb converted "/"
   || Js.startsWith converted "!"
   || Js.includes converted "\"
then None
else Some converted.

(** [process.env.PLOCATE_DB || '/var/lib/plocate/plocate.db']. *)
Definition plocateDb : string :=
match PLOCATE_DB E with
| Some db => if nonEmpty db then db else "/var/lib/plocate/plocate.db"
| None => "/var/lib/plocate/plocate.db"
end.

Definition isPlocateAvailable : M bool :=
try_catch
  (fs_access plocateDb ;;;
   try_catch
     (execFileAsync "plocate" ["--version"] ;;; ret true)
     (fun _ => ret false))
  (fun _ => ret false).

Definition plocateArgs (plocatePattern : string) : list string :=
["--database"; plocateDb; "--limit"; "10000"; plocatePattern].

(** [stdout.split('\n').map(line => line.trim()).filter(line => line.length > 0)]. *)
Definition parsePaths (stdout : string) : list string :=
filter (fun line => nonEmpty line = true) (map Js.trim (Js.split Js.LF stdout)).

(** The loop [for (const filePath of allPaths)] over the index's answer. *)
Fixpoint keepIndexed (rootPath : string) (excludePatterns : list string)
  (allPaths : list string) (results : list string) : M (list string) :=
match allPaths with
| [] => ret results
| filePath :: rest =>
    let normalizedRoot := normalizePath E rootPath in
    let rootPathWithSlash :=
      if Js.endsWith normalizedRoot "/" then normalizedRoot else normalizedRoot +:+ "/" in
    let normalizedPath := normalizePath E filePath in
    if negb (String.eqb normalizedPath normalizedRoot)
       && negb (Js.startsWith normalizedPath rootPathWithSlash)
    then keepIndexed rootPath excludePatterns rest results
    else
      valid <- passes filePath ;;
      if valid then
        let relativePath := path_relative E rootPath filePath in
        if shouldExclude relativePath excludePatterns
        then keepIndexed rootPath excludePatterns rest results
        else keepIndexed rootPath excludePatterns rest (results ++ [filePath])
      else keepIndexed rootPath excludePatterns rest results
end.

(** The index tier: [Some results] stands for [return results] (or
    [return []] on exit status 1), [None] for falling through to the
    walk. *)
Definition queryIndex (rootPath pattern : string) (excludePatterns : list string)
  : M (option (list string)) :=
usePlocate <- isPlocateAvailable ;;
if usePlocate then
  match preparePatternForPlocate pattern with
  | Some plocatePattern =>
      try_catch
        (out <- execFileAsync "plocate" (plocateArgs plocatePattern) ;;
         results <- keepIndexed rootPath excludePatterns (parsePaths (fst out)) [] ;;
         ret (Some results))
        (fun error =>
           if codeIsNum error 1 then ret (Some [])
           else ret None)
  | None => ret None
  end
else ret None.

Definition searchFilesWithValidation (fuel : nat) (rootPath pattern : string)
  (allowedDirectories : list string) (excludePatterns : list string) : M (list string) :=
answer <- queryIndex rootPath pattern excludePatterns ;;
match answer with
| Some results => ret results
| None => search fuel rootPath pattern excludePatterns rootPath []
end.

(** *** Searching file contents (second revision of [lib.ts]) *)

(** [(context !== undefined && context > 0) ? context
     : (own !== undefined ? own : 0)]. *)
Definition effectiveContext (o : GrepOptions) (own : option Z) : Z :=
if (0 <? context o)%Z then context o else default 0%Z own.

Definition rgArguments (o : GrepOptions) (validatedSearchPath : string) : list string :=
let effectiveBeforeContext := effectiveContext o (beforeContext o) in
let effectiveAfterContext := effectiveContext o (afterContext o) in
(if fixedStrings o then ["--fixed-strings"] else [])
++ [pattern o; validatedSearchPath]
++ (if ignoreCase o then ["--ignore-case"] else [])
++ (if recursive o then [] else ["--maxdepth"; "1"])
++ (if (0 <? effectiveBeforeContext)%Z || (0 <? effectiveAfterContext)%Z then
      if (effectiveBeforeContext =? effectiveAfterContext)%Z
      then ["--context"; pretty effectiveBeforeContext]
      else (if (0 <? effectiveBeforeContext)%Z
            then ["--before-context"; pretty effectiveBeforeContext] else [])
           ++ (if (0 <? effectiveAfterContext)%Z
               then ["--after-context"; pretty effectiveAfterContext] else [])
    else [])
++ (if includeLineNumbers o then ["--line-number"] else [])
++ (if invertMatch o then ["--invert-match"] else [])
++ (if String.eqb (filePattern o) "*" then [] else ["--glob"; filePattern o])
++ concat (map (fun excludePattern => ["--glob"; "!" +:+ excludePattern])
             (excludePatterns o))
++ ["--with-filename"; "--no-heading"; "--no-column"; "--color"; "never"].

Definition isDigit (c : ascii) : bool :=
(48 <=? nat_of_ascii c) && (nat_of_ascii c <=? 57).

(** The class [.] of a regular expression without the [s] flag. *)
Definition isLineTerminator (c : ascii) : bool :=
Ascii.eqb c Js.LF || Ascii.eqb c Js.CR.

Fixpoint hasLineTerminator (s : string) : bool :=
match s with
| EmptyString => false
| String c s' => isLineTerminator c || hasLineTerminator s'
end.

Fixpoint spanDigits (s : string) : string * string :=
match s with
| String c s' =>
    if isDigit c then (String c (fst (spanDigits s')), snd (spanDigits s'))
    else (EmptyString, s)
| EmptyString => (EmptyString, EmptyString)
end.

(** What follows the colon that ends the file name: digits, a colon,
    and the rest of the line. *)
Definition numberAndContent (s : string) : option (string * string) :=
match spanDigits s with
| (String d ds, String c rest) =>
    if Ascii.eqb c ":" then Some (String d ds, rest) else None
| _ => None
end.

(** The shortest non-empty prefix followed by ":digits:". *)
Fixpoint shortestName (s : string) : option (string * string * string) :=
match s with
| EmptyString => None
| String c s' =>
    match (if Ascii.eqb c ":" then numberAndContent s' else None) with
    | Some (lineNum, rest) => Some (EmptyString, lineNum, rest)
    | None =>
        match shortestName s' with
        | Some (name, lineNum, rest) => Some (String c name, lineNum, rest)
        | None => None
        end
    end
end.

(** [line.match(re)] for the pattern name:digits:rest, where the name is
    as short as possible and no part contains a line terminator. *)
Definition matchRgLine (line : string) : option (string * string * string) :=
if hasLineTerminator line then None
else match line with
     | EmptyString => None
     | String c s' =>
         match shortestName s' with
         | Some (name, lineNum, rest) => Some (String c name, lineNum, rest)
         | None => None
         end
     end.

(** [parseInt(lineNum, 10)] on a run of decimal digits. *)
Definition parseInt (digits : string) : Z :=
fold_left (fun n c => (10 * n + Z.of_nat (nat_of_ascii c - 48))%Z)
  (list_ascii_of_string digits) 0%Z.

(** [fileResults.get(filePath).push(match)] on the [Map], whose keys stay
    in the order of their first insertion. *)
Fixpoint pushMatch (filePath : string) (m : Z * string)
  (fileResults : list (string * list (Z * string))) : list (string * list (Z * string)) :=
match fileResults with
| [] => [(filePath, [m])]
| (f, ms) :: rest =>
    if String.eqb f filePath then (f, ms ++ [m]) :: rest
    else (f, ms) :: pushMatch filePath m rest
end.

(** The loop [for (const line of lines)] that fills [fileResults]. *)
Fixpoint parseRgOutput (lines : list string)
  (fileResults : list (string * list (Z * string))) : list (string * list (Z * string)) :=
match lines with
| [] => fileResults
| line :: rest =>
    if String.eqb (Js.trim line) "---" then parseRgOutput rest fileResults
    else match matchRgLine line with
         | Some (filePath, lineNum, text) =>
             parseRgOutput rest (pushMatch filePath (parseInt lineNum, text) fileResults)
         | None => parseRgOutput rest fileResults
         end
end.

(** The loop [for (const [filePath, matches] of fileResults.entries())]:
    the matches of each file that make it into the report. *)
Fixpoint capMatches (maxResults : Z) (fileResults : list (string * list (Z * string)))
  (totalMatches : nat) : list (string * list (Z * string)) :=
match fileResults with
| [] => []
| (filePath, matches) :: rest =>
    if (maxResults <=? Z.of_nat totalMatches)%Z then []
    else
      let matchesToInclude :=
        take (Z.to_nat (maxResults - Z.of_nat totalMatches)) matches in
      let totalMatches' := totalMatches + length matchesToInclude in
      if 0 <? length matchesToInclude
      then (filePath, matchesToInclude) :: capMatches maxResults rest totalMatches'
      else capMatches maxResults rest totalMatches'
end.

Definition formatRgFile (o : GrepOptions) (report : string * list (Z * string)) : string :=
Js.trim
  (fold_left
     (fun fileResult (m : Z * string) =>
        if includeLineNumbers o
        then fileResult +:+ "  Line " +:+ pretty (fst m) +:+ ": " +:+ snd m +:+ nl
        else fileResult +:+ "  " +:+ snd m +:+ nl)
     (snd report) ("File: " +:+ fst report +:+ nl)).

(** The matches [rg] printed, grouped by file. *)
Definition rgParsed (stdout : string) : list (string * list (Z * string)) :=
let lines :=
  filter (fun line => nonEmpty (Js.trim line) = true) (Js.split Js.LF stdout) in
parseRgOutput lines [].

(** The per-file reports behind the strings [searchFileContents] returns. *)
Definition rgReports (o : GrepOptions) (stdout : string) : list (string * list (Z * string)) :=
capMatches (maxResults o) (rgParsed stdout) 0.

Definition searchFileContents (o : GrepOptions) : M (list string) :=
validatedSearchPath <- validatePath (searchPath o) ;;
let rgArgs := rgArguments o validatedSearchPath in
try_catch
  (out <- execFileAsync "rg" rgArgs ;;
   let stdout := fst out in
   let stderr := snd out in
   if nonEmpty stderr && negb (Js.includes stderr "No matches found")
      && negb (nonEmpty stdout)
   then throw (Error ("ripgrep error: " +:+ stderr))
   else if negb (nonEmpty stdout) || negb (nonEmpty (Js.trim stdout)) then ret []
   else ret (map (formatRgFile o) (rgReports o stdout)))
  (fun error =>
     if codeIs error "ENOENT" then
       throw (Error "ripgrep (rg) is not installed. Please install ripgrep to use this feature.")
     else if codeIsNum error 1 then ret []
     else throw (Error ("ripgrep execution failed: "
                        +:+ (if nonEmpty (message error) then message error else "Error")))).

(** *** Searching file contents in process (first revision of [lib.ts]) *)

(** [pattern.replace(/[.*+?^${}()|[\]\\]/g, '\\$&')]. *)
Definition isRegExpSpecial (c : ascii) : bool :=
existsb (Ascii.eqb c) (list_ascii_of_string ".*+?^${}()|[]\").

Fixpoint escapeRegExp (s : string) : string :=
match s with
| EmptyString => EmptyString
| String c s' =>
    if isRegExpSpecial c then String "\" (String c (escapeRegExp s'))
    else String c (escapeRegExp s')
end.

(** [xs.slice(from, to)] on an array, for [from <= to]. *)
Definition sliceLines (xs : list string) (from to : nat) : list string :=
take (to - from) (drop from xs).

(** The accumulators [results] and [totalMatches] shared by the two
    nested functions; a report is kept as the file and its matches, and
    turned into text at the end. *)
Definition GrepState : Type := (list (string * list GrepMatch) * nat)%type.

(** The [GrepMatch] built for line [i] (counted from 0) of [lines]. *)
Definition matchAt (o : GrepOptions) (filePath : string) (lines : list string)
  (i : nat) (line : string) : GrepMatch :=
let before := effectiveContext o (beforeContext o) in
let after := effectiveContext o (afterContext o) in
{| file := filePath;
   lineNumber := Z.of_nat (S i);
   content := line;
   contextBefore :=
     if (0 <? before)%Z then sliceLines lines (i - Z.to_nat before) i else [];
   contextAfter :=
     if (0 <? after)%Z
     then sliceLines lines (S i) (Nat.min (length lines) (S i + Z.to_nat after))
     else [] |}.

(** [for (let i = 0; i < lines.length && totalMatches < maxResults; i++)]
    over the lines from index [i] on. *)
Fixpoint scanLines (o : GrepOptions) (matchesPattern : string -> bool)
  (filePath : string) (lines rest : list string) (i : nat)
  (fileMatches : list GrepMatch) (totalMatches : nat) : list GrepMatch * nat :=
match rest with
| [] => (fileMatches, totalMatches)
| line :: rest' =>
    if (Z.of_nat totalMatches <? maxResults o)%Z then
      if matchesPattern line then
        let found := matchAt o filePath lines i line in
        if (maxResults o <=? Z.of_nat (S totalMatches))%Z
        then (fileMatches ++ [found], S totalMatches)
        else scanLines o matchesPattern filePath lines rest' (S i)
               (fileMatches ++ [found]) (S totalMatches)
      else scanLines o matchesPattern filePath lines rest' (S i) fileMatches totalMatches
    else (fileMatches, totalMatches)
end.

(** [if (fileMatches.length > 0) results.push(...)]. *)
Definition pushReport (results : list (string * list GrepMatch)) (filePath : string)
  (fileMatches : list GrepMatch) : list (string * list GrepMatch) :=
match fileMatches with
| [] => results
| _ => results ++ [(filePath, fileMatches)]
end.

(** The accumulators after the lines of [text] have been scanned. *)
Definition scanFile (o : GrepOptions) (matchesPattern : string -> bool)
  (filePath text : string) (acc : GrepState) : GrepState :=
let lines := Js.split Js.LF (normalizeLineEndings text) in
let scanned := scanLines o matchesPattern filePath lines lines 0 [] (snd acc) in
(pushReport (fst acc) filePath (fst scanned), snd scanned).

Definition searchInFile (o : GrepOptions) (matchesPattern : string -> bool)
  (validatedSearchPath filePath : string) (acc : GrepState) : M GrepState :=
if (maxResults o <=? Z.of_nat (snd acc))%Z then ret acc
else
  try_catch
    (validatePath filePath ;;;
     let relativePath := path_relative E validatedSearchPath filePath in
     if shouldExclude relativePath (excludePatterns o) then ret acc
     else
       text <- fs_readFile filePath ;;
       ret (scanFile o matchesPattern filePath text acc))
    (fun _ => ret acc).

(** One entry of a directory: [try { ... } catch { continue; }], where
    [recur] is [searchDirectory] itself, called on a sub-directory. *)
Definition visitEntry (recur : string -> GrepState -> M GrepState)
  (o : GrepOptions) (matchesPattern : string -> bool)
  (validatedSearchPath dirPath : string) (entry : Dirent) (acc : GrepState)
  : M GrepState :=
let fullPath := path_join E dirPath (d_name entry) in
try_catch
  (if d_isFile entry then
     if String.eqb (filePattern o) "*"
        || minimatch E (d_name entry) (filePattern o) false
     then searchInFile o matchesPattern validatedSearchPath fullPath acc
     else ret acc
   else if d_isDirectory entry && recursive o then recur fullPath acc
   else ret acc)
  (fun _ => ret acc).

(** The loop [for (const entry of entries)] of [searchDirectory]. *)
Fixpoint searchEntries (recur : string -> GrepState -> M GrepState)
  (o : GrepOptions) (matchesPattern : string -> bool)
  (validatedSearchPath dirPath : string) (entries : list Dirent) (acc : GrepState)
  : M GrepState :=
match entries with
| [] => ret acc
| entry :: rest =>
    if (maxResults o <=? Z.of_nat (snd acc))%Z then ret acc
    else
      acc' <- visitEntry recur o matchesPattern validatedSearchPath dirPath entry acc ;;
      searchEntries recur o matchesPattern validatedSearchPath dirPath rest acc'
end.

(** [searchDirectory]; an error leaves a call only from its own
    [validatePath] or [readdir], before it has found anything. *)
Fixpoint searchDirectory (fuel : nat) (o : GrepOptions) (matchesPattern : string -> bool)
  (validatedSearchPath dirPath : string) (acc : GrepState) : M GrepState :=
if (maxResults o <=? Z.of_nat (snd acc))%Z then ret acc
else
  match fuel with
  | O => diverge
  | S fuel' =>
      try_catch
        (validatePath dirPath ;;;
         entries <- fs_readdir dirPath ;;
         searchEntries (searchDirectory fuel' o matchesPattern validatedSearchPath)
           o matchesPattern validatedSearchPath dirPath entries acc)
        (fun error =>
           if codeIs error "EACCES" || codeIs error "ENOENT" then ret acc
           else throw error)
  end.

(** The number of matches in a list of per-file reports. *)
Definition countMatches {A : Type} (reports : list (string * list A)) : nat :=
list_sum (map (fun report => length (snd report)) reports).

(** The same search with another cap. *)
Definition withCap (o : GrepOptions) (cap : Z) : GrepOptions :=
{| searchPath := searchPath o; pattern := pattern o; ignoreCase := ignoreCase o;
   recursive := recursive o; maxResults := cap; context := context o;
   beforeContext := beforeContext o; afterContext := afterContext o;
   filePattern := filePattern o; includeLineNumbers := includeLineNumbers o;
   excludePatterns := excludePatterns o; invertMatch := invertMatch o;
   fixedStrings := fixedStrings o |}.

(** The text pushed onto [results] for one file. *)
Definition formatContext (o : GrepOptions) (title : string) (first : Z)
  (lines : list string) : string :=
match lines with
| [] => EmptyString
| _ =>
    "    Context " +:+ title +:+ ":" +:+ nl
    +:+ String.concat EmptyString
          (imap (fun idx line =>
                   "      "
                   +:+ (if includeLineNumbers o
                        then pretty (first + Z.of_nat idx)%Z +:+ ": " else EmptyString)
                   +:+ line +:+ nl) lines)
end.

Definition formatMatch (o : GrepOptions) (m : GrepMatch) : string :=
let before := effectiveContext o (beforeContext o) in
let after := effectiveContext o (afterContext o) in
(if includeLineNumbers o
 then "  Line " +:+ pretty (lineNumber m) +:+ ": " +:+ content m +:+ nl
 else "  " +:+ content m +:+ nl)
+:+ (if (0 <? before)%Z || (0 <? after)%Z then
       formatContext o "before" (lineNumber m - before)%Z (contextBefore m)
       +:+ formatContext o "after" (lineNumber m + 1)%Z (contextAfter m)
     else EmptyString).

Definition formatFile (o : GrepOptions) (report : string * list GrepMatch) : string :=
Js.trim ("File: " +:+ fst report +:+ nl
         +:+ String.concat EmptyString (map (formatMatch o) (snd report))).

(** The tail of [searchFileContents]: a file is searched, a directory is
    walked, anything else is refused. *)
Definition searchFrom (fuel : nat) (o : GrepOptions) (matchesPattern : string -> bool)
  (validatedSearchPath : string) (stats : Stats) : M GrepState :=
if isFile stats then
  let fileName := path_basename E validatedSearchPath in
  if String.eqb (filePattern o) "*" || minimatch E fileName (filePattern o) false
  then searchInFile o matchesPattern validatedSearchPath validatedSearchPath ([], 0)
  else ret ([], 0)
else if isDirectory stats then
  searchDirectory fuel o matchesPattern validatedSearchPath validatedSearchPath ([], 0)
else
  throw (Error ("Path is neither a file nor a directory: " +:+ validatedSearchPath)).

(** The per-file reports of a search, before they are turned into text. *)
Definition grepReports (fuel : nat) (o : GrepOptions)
  : M (list (string * list GrepMatch)) :=
validatedSearchPath <- validatePath (searchPath o) ;;
let effectivePattern :=
  if fixedStrings o then escapeRegExp (pattern o) else pattern o in
match regexCompile E effectivePattern (if ignoreCase o then "gi" else "g") with
| inl e =>
    throw (Error ("Invalid regex pattern: " +:+ effectivePattern +:+ ". " +:+ message e))
| inr test =>
    let matchesPattern := fun line => xorb (test line) (invertMatch o) in
    stats <- fs_stat validatedSearchPath ;;
    acc <- searchFrom fuel o matchesPattern validatedSearchPath stats ;;
    ret (fst acc)
end.

Definition searchFileContentsInProcess (fuel : nat) (o : GrepOptions) : M (list string) :=
reports <- grepReports fuel o ;;
ret (map (formatFile o) reports).

(** The walk shows in the trace as calls of [readdir]. *)
Definition isReaddir (c : FsCall) : bool :=
match c with CReaddir _ => true | _ => false end.

End Library.

Arguments follow : simpl never.
Arguments normalizeLineEndings : simpl never.
Arguments createUnifiedDiff : simpl never.
Arguments fenceLength : simpl never.

(** ** Project introductions (second revision of [lib.ts]) *)

Module ProjectIntro.

Record ProjectIntroResult : Type :=
  { content : string; filesFound : list string; filesChecked : list string }.

Definition priorityFiles : list string := ["CLAUDE.md"; "README.md"].

Definition additionalFiles (includeAdditionalFiles : bool) : list string :=
if includeAdditionalFiles then
  [ "CONTRIBUTING.md"; "CHANGELOG.md"; "SECURITY.md"; "CODE_OF_CONDUCT.md";
    "ARCHITECTURE.md"; "DESIGN.md"; "OVERVIEW.md";
    "INTRO.md"; "ABOUT.md"; "GETTING_STARTED.md"; "QUICKSTART.md";
    "docs/README.md"; "docs/INTRO.md"; "docs/OVERVIEW.md"; "docs/GETTING_STARTED.md";
    ".github/README.md"; ".github/CONTRIBUTING.md" ]
else [].

(** The arrays [filesFound] and [contents] of the loop. *)
Definition Found : Type := (list string * list (string * string))%type.

(** [contents.find(c => c.file === priorityFile)]. *)
Definition findContent (contents : list (string * string)) (priorityFile : string)
  : option (string * string) :=
List.find (fun c => String.eqb (fst c) priorityFile) contents.

(** [for (const priorityFile of priorityFiles) { ...; if (found) push }]. *)
Definition priorityContents (contents : list (string * string))
  : list (string * string) :=
flat_map (fun priorityFile =>
            match findContent contents priorityFile with
            | Some found => [found]
            | None => []
            end) priorityFiles.

(** [contents.filter(c => additionalFiles.includes(c.file))]. *)
Definition additionalContents (includeAdditionalFiles : bool)
  (contents : list (string * string)) : list (string * string) :=
List.filter (fun c => existsb (String.eqb (fst c)) (additionalFiles includeAdditionalFiles))
  contents.

Definition combinedContents (includeAdditionalFiles : bool)
  (contents : list (string * string)) : list string :=
map (fun c => "# " +:+ fst c +:+ nl +:+ nl +:+ snd c) (priorityContents contents)
++ match additionalContents includeAdditionalFiles contents with
   | [] => []
   | additional =>
       (nl +:+ "---" +:+ nl +:+ nl +:+ "## Additional Documentation" +:+ nl)
       :: map (fun c => "### " +:+ fst c +:+ nl +:+ nl +:+ snd c) additional
   end.

Section Extract.

Variable E : Env.

(** The loop [for (const fileName of allFiles)]: a file that fails
    validation, is missing, is not a regular file or cannot be read is
    skipped. *)
Fixpoint checkFiles (validPath : string) (allFiles : list string) (found : Found)
  : M Found :=
match allFiles with
| [] => ret found
| fileName :: rest =>
    let filePath := path_join E validPath fileName in
    found' <-
      try_catch
        (validatePath E filePath ;;;
         stats <- fs_stat E filePath ;;
         if isFile stats then
           text <- fs_readFile E filePath ;;
           ret (fst found ++ [fileName], snd found ++ [(fileName, text)])
         else ret found)
        (fun _ => ret found) ;;
    checkFiles validPath rest found'
end.

Definition extractProjectIntro (projectPath : string) (includeAdditionalFiles : bool)
  : M ProjectIntroResult :=
validPath <- validatePath E projectPath ;;
let allFiles := priorityFiles ++ additionalFiles includeAdditionalFiles in
found <- checkFiles validPath allFiles ([], []) ;;
match snd found with
| [] => ret {| content := EmptyString; filesFound := []; filesChecked := allFiles |}
| contents =>
    ret {| content :=
             Js.join (nl +:+ nl +:+ "---" +:+ nl +:+ nl)
               (combinedContents includeAdditionalFiles contents);
           filesFound := fst found;
           filesChecked := allFiles |}
end.

End Extract.

End ProjectIntro.

(** ** Accumulators of the in-process content search *)

(** The shared counter [totalMatches], as the integer it is compared
    with [maxResults]. *)
Definition total (acc : GrepState) : Z := Z.of_nat (snd acc).

(** ** Every match of a content search, and one cap for all files

    What the design document says about the cap, written down on its
    own: the matches that exist are found by a search that nothing
    stops, and the cap is applied to them across the files.  Neither
    definition comes from [searchFileContents]; the properties compare
    the library with them. *)

(** "A single result cap is enforced across all files combined,
    truncating whichever file's match list would exceed the cap": the
    files are taken in order, each keeps what the budget left by the
    earlier ones allows, and a file that keeps nothing is not
    reported. *)
Fixpoint capAcrossFiles {A : Type} (cap : nat) (found : list (string * list A))
  : list (string * list A) :=
match found with
| [] => []
| (filePath, matches) :: rest =>
    match take cap matches with
    | [] => capAcrossFiles cap rest
    | kept => (filePath, kept) :: capAcrossFiles (cap - length matches) rest
    end
end.

(** The matches in one text: every line the pattern accepts, from line
    [i] on. *)
Fixpoint matchingLines (o : GrepOptions) (matchesPattern : string -> bool)
  (filePath : string) (lines rest : list string) (i : nat) : list GrepMatch :=
match rest with
| [] => []
| line :: rest' =>
    if matchesPattern line
    then matchAt o filePath lines i line
         :: matchingLines o matchesPattern filePath lines rest' (S i)
    else matchingLines o matchesPattern filePath lines rest' (S i)
end.

Definition everyMatchInText (o : GrepOptions) (matchesPattern : string -> bool)
  (filePath text : string) (found : list (string * list GrepMatch))
  : list (string * list GrepMatch) :=
let lines := Js.split Js.LF (normalizeLineEndings text) in
pushReport found filePath (matchingLines o matchesPattern filePath lines lines 0).

Section EveryMatch.

Variable E : Env.

(** A file counts when it passes validation, is not excluded and can be
    read. *)
Definition everyMatchInFile (o : GrepOptions) (matchesPattern : string -> bool)
  (validatedSearchPath filePath : string) (found : list (string * list GrepMatch))
  : M (list (string * list GrepMatch)) :=
try_catch
  (validatePath E filePath ;;;
   if shouldExclude E (path_relative E validatedSearchPath filePath) (excludePatterns o)
   then ret found
   else
     text <- fs_readFile E filePath ;;
     ret (everyMatchInText o matchesPattern filePath text found))
  (fun _ => ret found).

(** The entries of a directory in the order [readdir] gives them: files
    whose name fits the file pattern, and sub-directories when the
    search is recursive; what cannot be entered is passed over. *)
Definition everyMatchOfEntry (recur : string -> list (string * list GrepMatch)
                                      -> M (list (string * list GrepMatch)))
  (o : GrepOptions) (matchesPattern : string -> bool)
  (validatedSearchPath dirPath : string) (entry : Dirent)
  (found : list (string * list GrepMatch)) : M (list (string * list GrepMatch)) :=
let fullPath := path_join E dirPath (d_name entry) in
try_catch
  (if d_isFile entry then
     if String.eqb (filePattern o) "*"
        || minimatch E (d_name entry) (filePattern o) false
     then everyMatchInFile o matchesPattern validatedSearchPath fullPath found
     else ret found
   else if d_isDirectory entry && recursive o then recur fullPath found
   else ret found)
  (fun _ => ret found).

Fixpoint everyMatchOfEntries (recur : string -> list (string * list GrepMatch)
                                        -> M (list (string * list GrepMatch)))
  (o : GrepOptions) (matchesPattern : string -> bool)
  (validatedSearchPath dirPath : string) (entries : list Dirent)
  (found : list (string * list GrepMatch)) : M (list (string * list GrepMatch)) :=
match entries with
| [] => ret found
| entry :: rest =>
    found' <- everyMatchOfEntry recur o matchesPattern validatedSearchPath dirPath
                entry found ;;
    everyMatchOfEntries recur o matchesPattern validatedSearchPath dirPath rest found'
end.

Fixpoint everyMatchInDirectory (fuel : nat) (o : GrepOptions)
  (matchesPattern : string -> bool) (validatedSearchPath dirPath : string)
  (found : list (string * list GrepMatch)) : M (list (string * list GrepMatch)) :=
match fuel with
| O => diverge
| S fuel' =>
    try_catch
      (validatePath E dirPath ;;;
       entries <- fs_readdir E dirPath ;;
       everyMatchOfEntries (everyMatchInDirectory fuel' o matchesPattern validatedSearchPath)
         o matchesPattern validatedSearchPath dirPath entries found)
      (fun error =>
         if codeIs error "EACCES" || codeIs error "ENOENT" then ret found
         else throw error)
end.

Definition everyMatchFrom (fuel : nat) (o : GrepOptions) (matchesPattern : string -> bool)
  (validatedSearchPath : string) (stats : Stats) : M (list (string * list GrepMatch)) :=
if isFile stats then
  if String.eqb (filePattern o) "*"
     || minimatch E (path_basename E validatedSearchPath) (filePattern o) false
  then everyMatchInFile o matchesPattern validatedSearchPath validatedSearchPath []
  else ret []
else if isDirectory stats then
  everyMatchInDirectory fuel o matchesPattern validatedSearchPath validatedSearchPath []
else
  throw (Error ("Path is neither a file nor a directory: " +:+ validatedSearchPath)).

(** Every match of the search [o], file by file: the lines that the
    pattern accepts (or rejects, under [invertMatch]) in the files under
    the search path.  [maxResults] plays no part. *)
Definition everyMatch (fuel : nat) (o : GrepOptions)
  : M (list (string * list GrepMatch)) :=
validatedSearchPath <- validatePath E (searchPath o) ;;
let effectivePattern :=
  if fixedStrings o then escapeRegExp (pattern o) else pattern o in
match regexCompile E effectivePattern (if ignoreCase o then "gi" else "g") with
| inl e =>
    throw (Error ("Invalid regex pattern: " +:+ effectivePattern +:+ ". " +:+ message e))
| inr test =>
    let matchesPattern := fun line => xorb (test line) (invertMatch o) in
    stats <- fs_stat E validatedSearchPath ;;
    everyMatchFrom fuel o matchesPattern validatedSearchPath stats
end.

End EveryMatch.

(** The accumulators of the library's search follow the matches that
    exist: the reports are those matches under the cap, and the counter
    is their number. *)
Definition Tracks (cap : nat) (acc : GrepState)
  (found : list (string * list GrepMatch)) : Prop :=
fst acc = capAcrossFiles cap found /\ snd acc = Nat.min cap (countMatches found).

(** One step of the library's search against the same step of the
    search that nothing stops, from accumulators below the cap. *)
Definition CapSim (cap : nat) (f : GrepState -> M GrepState)
  (g : list (string * list GrepMatch) -> M (list (string * list GrepMatch))) : Prop :=
forall acc found st,
  Tracks cap acc found -> countMatches found < cap ->
  match g found st with
  | (Return found', st') =>
      exists acc' st1,
        f acc st = (Return acc', st1)
        /\ Tracks cap acc' found'
        /\ (countMatches found' < cap -> st1 = st')
  | (Throw e, st') => f acc st = (Throw e, st')
  | (Diverge, _) => True
  end.

(** The search that nothing stops only adds reports. *)
Definition Extends
  (g : list (string * list GrepMatch) -> M (list (string * list GrepMatch))) : Prop :=
forall found st found' st', g found st = (Return found', st') -> found `prefix_of` found'.

(** ** Notions used by the further properties

    Helper notions in which the properties of the last part are stated:
    what a text's lines are, which paths a search may report, which
    reports of a content search can be trusted. *)

(** Whether the character [c] occurs in [s]. *)
Fixpoint occurs (c : ascii) (s : string) : bool :=
match s with
| EmptyString => false
| String d s' => Ascii.eqb d c || occurs c s'
end.

(** The lines of a text as [headFile] counts them: the pieces between
    newlines, without the empty piece a final newline leaves behind. *)
Definition textLines (text : string) : list string :=
let pieces := Js.split Js.LF text in
List.removelast pieces
++ (if nonEmpty (List.last pieces EmptyString) then [List.last pieces EmptyString] else []).

(** [lines.slice(-n)] for [n > 0], and no line for [n = 0]. *)
Definition lastLines (n : nat) (lines : list string) : list string :=
drop (length lines - n) lines.

(** The reads from a handle show in the trace as [CRead]. *)
Definition isRead (c : FsCall) : bool :=
match c with CRead _ _ _ => true | _ => false end.

(** The two characters [normalizeLineEndings] looks for. *)
Definition CRLF : string := String Js.CR (String Js.LF EmptyString).

Section WalkNotions.

Variable E : Env.

(** A path the walk may enter or report: it passes [validatePath] under
    the allow-list of [st], and no exclude pattern matches its path
    relative to the root. *)
Definition Cleared (rootPath : string) (excludePatterns : list string) (st : State)
  (fullPath : string) : Prop :=
(exists real, fst (validatePath E fullPath st) = Return real)
/\ shouldExclude E (path_relative E rootPath fullPath) excludePatterns = false.

(** A path the walk reports: cleared, and matched by the search pattern. *)
Definition WalkHit (rootPath pattern : string) (excludePatterns : list string)
  (st : State) (fullPath : string) : Prop :=
Cleared rootPath excludePatterns st fullPath
/\ minimatch E (path_relative E rootPath fullPath) pattern true = true.

(** Every [readdir] among the calls is on the root or on a cleared
    directory. *)
Definition ListsCleared (rootPath : string) (excludePatterns : list string) (st : State)
  (calls : list FsCall) : Prop :=
Forall (fun c => match c with
                 | CReaddir q => q = rootPath \/ Cleared rootPath excludePatterns st q
                 | _ => True
                 end) calls.

(** What one stretch of the walk, started in [st] with the accumulator
    [results], has done when it ends in [r]: its calls list cleared
    directories only, the allow-list is the one of [st0], and what it
    returns is [results] followed by hits. *)
Definition WalkStep (rootPath pattern : string) (excludePatterns : list string)
  (st0 : State) (results : list string) (st : State)
  (r : Outcome (list string) * State) : Prop :=
(exists calls,
   trace (snd r) = trace st ++ calls
   /\ ListsCleared rootPath excludePatterns st0 calls)
/\ allowed (snd r) = allowed st0
/\ forall results', fst r = Return results' ->
     exists more,
       results' = results ++ more
       /\ Forall (WalkHit rootPath pattern excludePatterns st0) more.

(** A path of the index's answer that lies at or under the root. *)
Definition UnderRoot (rootPath filePath : string) : Prop :=
let normalizedRoot := normalizePath E rootPath in
normalizePath E filePath = normalizedRoot
\/ Js.startsWith (normalizePath E filePath)
     (if Js.endsWith normalizedRoot "/" then normalizedRoot else normalizedRoot +:+ "/")
   = true.

End WalkNotions.

(** The characters the translation for [plocate] may delete. *)
Definition isGlobJoint (c : ascii) : bool := Ascii.eqb c "/" || Ascii.eqb c "*".

(** A pattern without its slashes and stars. *)
Fixpoint withoutJoints (s : string) : string :=
match s with
| EmptyString => EmptyString
| String c s' => if isGlobJoint c then withoutJoints s' else String c (withoutJoints s')
end.

(** [q] is [p] with some of its slashes and stars deleted, and nothing
    else changed. *)
Inductive JointsDeleted : string -> string -> Prop :=
| jd_done : JointsDeleted EmptyString EmptyString
| jd_keep (c : ascii) (p q : string) :
    JointsDeleted p q -> JointsDeleted (String c p) (String c q)
| jd_drop (c : ascii) (p q : string) :
    isGlobJoint c = true -> JointsDeleted p q -> JointsDeleted (String c p) q.

(** The test [preparePatternForPlocate] applies to the converted
    pattern: what [plocate] cannot be asked. *)
Definition beyondPlocate (converted : string) : bool :=
Js.includes converted "**"
|| Js.includes converted "{"
|| Js.includes converted "!("
|| Js.includes converted "?("
|| Js.includes converted "*("
|| Js.includes converted "+("
|| Js.includes converted "@("
|| String.eqb converted ""
|| String.eqb converted "/"
|| Js.startsWith converted "!"
|| Js.includes converted "\".

(** A run of decimal digits, as the group [\d+] accepts it. *)
Fixpoint allDigits (s : string) : bool :=
match s with
| EmptyString => true
| String c s' => isDigit c && allDigits s'
end.

(** A line as [rg] prints it with [--with-filename --line-number
    --no-heading]. *)
Definition rgLine (filePath lineNum text : string) : string :=
filePath +:+ ":" +:+ lineNum +:+ ":" +:+ text.

(** The text [fs.readFile] finds at [filePath] in [st]. *)
Definition ReadsAs (st : State) (filePath text : string) : Prop :=
exists target,
  follow 40 (nodes st) filePath = Some target /\ nodes st !! target = Some (File text).

(** A match that is the one [searchInFile] builds for some line of
    [lines] accepted by [matchesPattern]. *)
Definition FaithfulMatch (o : GrepOptions) (matchesPattern : string -> bool)
  (filePath : string) (lines : list string) (m : GrepMatch) : Prop :=
exists i line,
  lines !! i = Some line
  /\ matchesPattern line = true
  /\ m = matchAt o filePath lines i line.

(** A report with at least one match, all of them faithful to the
    lines of the text the file holds in [st]. *)
Definition FaithfulReport (o : GrepOptions) (matchesPattern : string -> bool)
  (st : State) (report : string * list GrepMatch) : Prop :=
snd report <> []
/\ exists text,
     ReadsAs st (fst report) text
     /\ Forall (FaithfulMatch o matchesPattern (fst report)
                  (Js.split Js.LF (normalizeLineEndings text)))
          (snd report).

(** What a stretch of the content search, started in a state with the
    files of [st0] and faithful reports, leaves behind. *)
Definition KeepsFaithful (o : GrepOptions) (matchesPattern : string -> bool)
  (st0 : State) (f : GrepState -> M GrepState) : Prop :=
forall acc st,
  nodes st = nodes st0 ->
  Forall (FaithfulReport o matchesPattern st0) (fst acc) ->
  nodes (snd (f acc st)) = nodes st0
  /\ forall acc', fst (f acc st) = Return acc' ->
       Forall (FaithfulReport o matchesPattern st0) (fst acc').

(** A documentation file the extraction may report: under the
    validated project path it passes [validatePath] and holds a text. *)
Definition IntroFile (E : Env) (st : State) (validPath fileName : string) : Prop :=
(exists real, fst (validatePath E (path_join E validPath fileName) st) = Return real)
/\ exists text, ReadsAs st (path_join E validPath fileName) text.

(** ** A POSIX instance

    The environment used to run the library on concrete inputs: POSIX
    path functions restricted to paths that are already absolute and
    normal (no '.', '..' or doubled separators), on which [path.resolve]
    and [normalizePath] change nothing, and small stand-ins for the
    [minimatch], [diff] and regular-expression engines. *)

Module Posix.

Definition dirname (p : string) : string :=
  match Js.lastIndexOf "/" p with
  | Some O => "/"
  | Some i => Js.take i p
  | None => "."
  end.

Definition basename (p : string) : string :=
  match Js.lastIndexOf "/" p with
  | Some i => Js.drop (S i) p
  | None => p
  end.

Definition join (a b : string) : string := a +:+ "/" +:+ b.

Definition relative (from to : string) : string :=
  if String.eqb from to then ""
  else if Js.startsWith to (from +:+ "/") then Js.drop (S (String.length from)) to
  else to.

Definition expand (p : string) : string :=
  if String.eqb p "~" || Js.startsWith p "~/" then "/home/user" +:+ Js.drop 1 p else p.

Definition resolve (parts : list string) : string :=
  match parts with
  | [p] => p
  | [base; p] => base +:+ "/" +:+ p
  | _ => "/"
  end.

(** What follows the first separator of [s], if there is one. *)
Fixpoint afterSeparator (s : string) : option string :=
match s with
| EmptyString => None
| String c s' => if Ascii.eqb c "/" then Some s' else afterSeparator s'
end.

(** Glob matching with '*' and '?' inside one path segment and "**/"
    for any number of whole directories.  The [dot] option is not
    modelled: no name used here starts with a dot. *)
Fixpoint glob (fuel : nat) (pat s : string) : bool :=
match fuel with
| O => false
| S n =>
    match pat with
    | EmptyString => match s with EmptyString => true | _ => false end
    | String "*" pat' =>
        if Js.startsWith pat' "*/" then
          glob n (Js.drop 2 pat') s
          || match afterSeparator s with
             | Some s' => glob n pat s'
             | None => false
             end
        else
          glob n pat' s
          || match s with
             | String c s' => negb (Ascii.eqb c "/") && glob n pat s'
             | EmptyString => false
             end
    | String "?" pat' =>
        match s with
        | String c s' => negb (Ascii.eqb c "/") && glob n pat' s'
        | EmptyString => false
        end
    | String a pat' =>
        match s with
        | String c s' => Ascii.eqb a c && glob n pat' s'
        | EmptyString => false
        end
    end
end.

Definition match_glob (path pattern : string) (dot : bool) : bool :=
  glob (S (String.length path + String.length pattern)) pattern path.

Definition patch (oldName newName oldText newText oldHeader newHeader : string) : string :=
  "--- " +:+ oldName +:+ " " +:+ oldHeader +:+ String Js.LF
  ("+++ " +:+ newName +:+ " " +:+ newHeader +:+ String Js.LF
  ("-" +:+ oldText +:+ String Js.LF ("+" +:+ newText +:+ String Js.LF ""))).

Definition regex (source flags : string) : JsError + (string -> bool) :=
  inr (fun line => Js.includes line source).

Definition env
    (links : string -> JsError + string)
    (listing : string -> JsError + list Dirent)
    (faults : nat -> FsCall -> option Fault)
    (tools : string -> list string -> JsError + (string * string))
    (db : option string) : Env :=
  {| expandHome := expand;
     normalizePath := fun p => p;
     sep := "/";
     isAbsolute := fun p => Js.startsWith p "/";
     path_resolve := resolve;
     cwd := "/srv";
     path_dirname := dirname;
     path_basename := basename;
     path_join := join;
     path_relative := relative;
     PLOCATE_DB := db;
     minimatch := match_glob;
     createTwoFilesPatch := patch;
     regexCompile := regex;
     realpath := links;
     readdir := listing;
     fault := faults;
     randomHex := fun n => "00112233445566778899aabbccddeeff";
     execFile := tools |}.

(** A process whose allow-list array holds [dirs], over the files [fs]. *)
Definition boot (dirs : list string) (fs : gmap string Node) : State :=
  mkState {[ 0 := dirs ]} 0 fs [] 0.

Definition noFault : nat -> FsCall -> option Fault := fun _ _ => None.
Definition noTool : string -> list string -> JsError + (string * string) :=
  fun _ _ => inl (errno "ENOENT").
Definition noListing : string -> JsError + list Dirent :=
  fun _ => inl (errno "ENOENT").

(** Every path resolves to itself, nothing is listed, nothing fails and
    no tool is installed. *)
Definition quiet : Env := env (fun p => inr p) noListing noFault noTool None.

End Posix.

(** ** Concrete worlds

    The states and environments on which the properties below are run. *)

(** [["a", "b", "c", "d", "e"].join('\n')]. *)
Definition fiveLines : string :=
Eval vm_compute in Js.join nl ["a"; "b"; "c"; "d"; "e"].

Module PathExamples.

(** One allowed directory, holding a link [/allowed/link] to [/etc];
    every other path resolves to itself, and the file to be created
    under the link does not exist. *)
Definition links (p : string) : JsError + string :=
  if String.eqb p "/allowed/link/new.txt" then inl (errno "ENOENT")
  else if String.eqb p "/allowed/fresh/new.txt" then inl (errno "ENOENT")
  else if String.eqb p "/allowed/fresh" then inl (errno "ENOENT")
  else if String.eqb p "/allowed/new.txt" then inl (errno "ENOENT")
  else if String.eqb p "/allowed/link" then inr "/etc"
  else if String.eqb p "/allowed/passwd" then inr "/etc/passwd"
  else inr p.

Definition env : Env :=
  Posix.env links Posix.noListing Posix.noFault Posix.noTool None.

Definition st : State := Posix.boot ["/allowed"] ∅.

End PathExamples.

Module AllowListExample.

(** The caller's array lives at address 1; the module variable still
    refers to the empty array it was initialised with, at address 0. *)
Definition st : State :=
mkState (<[1 := ["/home/user"; "/tmp"]]> {[ 0 := [] ]}) 0 ∅ [] 0.

End AllowListExample.

Module WriterExample.

(** A link planted at the target, and a file system on which every
    [rename] fails. *)
Definition faults (n : nat) (c : FsCall) : option Fault :=
match c with
| CRename _ _ => Some {| f_error := errno "EXDEV"; f_residue := None |}
| _ => None
end.

Definition env : Env :=
Posix.env (fun p => inr p) Posix.noListing faults Posix.noTool None.

Definition st : State :=
Posix.boot ["/allowed"] {[ "/allowed/a.txt" := Symlink "/etc/passwd" ]}.

Definition tmp : string := "/allowed/a.txt.00112233445566778899aabbccddeeff.tmp".

End WriterExample.

Module NewFileExample.

(** An allowed directory with nothing in it. *)
Definition st : State := Posix.boot ["/allowed"] {[ "/allowed" := Directory ]}.

End NewFileExample.

Module PatchExample.

Definition original : string := "alpha" +:+ nl +:+ "  beta" +:+ nl.

Definition st : State :=
Posix.boot ["/allowed"] {[ "/allowed/f.txt" := File original ]}.

Definition first : FileEdit := {| oldText := "alpha"; newText := "ALPHA" |}.
Definition second : FileEdit := {| oldText := "gamma"; newText := "GAMMA" |}.

End PatchExample.

Module ReaderExample.

Definition st : State :=
Posix.boot ["/allowed"]
  (<[ "/allowed/empty.txt" := File EmptyString ]>
     {[ "/allowed/five.txt" := File fiveLines ]}).

End ReaderExample.

Module SearchExample.

Definition isVersionProbe (args : list string) : bool :=
match args with
| [a] => String.eqb a "--version"
| _ => false
end.

(** [plocate] is installed; every query exits with [status]. *)
Definition tools (status : Z) (cmd : string) (args : list string)
  : JsError + (string * string) :=
if String.eqb cmd "plocate" then
  if isVersionProbe args then inr ("plocate 1.1.18", "")
  else inl {| message := "Command failed: plocate"; code := Some (CodeNum status) |}
else inl (errno "ENOENT").

Definition listing (p : string) : JsError + list Dirent :=
if String.eqb p "/allowed/dir"
then inr [ {| d_name := "a.js"; d_isFile := true; d_isDirectory := false |} ]
else inl (errno "ENOTDIR").

Definition env (status : Z) : Env :=
Posix.env (fun p => inr p) listing Posix.noFault (tools status) None.

Definition db : string := "/var/lib/plocate/plocate.db".

Definition st : State := Posix.boot ["/allowed"] {[ db := File "index" ]}.

Definition probed : State :=
log (CExec "plocate" ["--version"]) (log (CAccess db) st).

End SearchExample.

Module GrepExample.

Definition listing (p : string) : JsError + list Dirent :=
if String.eqb p "/allowed/dir"
then inr [ {| d_name := "a.txt"; d_isFile := true; d_isDirectory := false |};
           {| d_name := "b.txt"; d_isFile := true; d_isDirectory := false |} ]
else inl (errno "ENOTDIR").

Definition env : Env :=
Posix.env (fun p => inr p) listing Posix.noFault Posix.noTool None.

(** Two files with two matching lines each. *)
Definition st : State :=
Posix.boot ["/allowed"]
  (<[ "/allowed/dir" := Directory ]>
     (<[ "/allowed/dir/a.txt" := File ("test 1" +:+ nl +:+ "test 2") ]>
        {[ "/allowed/dir/b.txt" := File ("test 3" +:+ nl +:+ "test 4") ]})).

Definition options : GrepOptions :=
{| searchPath := "/allowed/dir"; pattern := "test"; ignoreCase := false;
   recursive := true; maxResults := 100; context := 0; beforeContext := None;
   afterContext := None; filePattern := "*"; includeLineNumbers := true;
   excludePatterns := []; invertMatch := false; fixedStrings := false |}.

(** What [rg] prints for the same two files. *)
Definition stdout : string :=
"/allowed/dir/a.txt:1:test 1" +:+ nl +:+ "/allowed/dir/a.txt:2:test 2" +:+ nl
+:+ "/allowed/dir/b.txt:1:test 3" +:+ nl +:+ "/allowed/dir/b.txt:2:test 4" +:+ nl.

(** The same files with [rg] installed. *)
Definition rg (cmd : string) (args : list string) : JsError + (string * string) :=
if String.eqb cmd "rg" then inr (stdout, EmptyString) else inl (errno "ENOENT").

Definition withRg : Env :=
Posix.env (fun p => inr p) listing Posix.noFault rg None.

(** Every match in the two files. *)
Definition found : list (string * list GrepMatch) :=
[ ("/allowed/dir/a.txt",
   [ {| file := "/allowed/dir/a.txt"; lineNumber := 1; content := "test 1";
        contextBefore := []; contextAfter := [] |};
     {| file := "/allowed/dir/a.txt"; lineNumber := 2; content := "test 2";
        contextBefore := []; contextAfter := [] |} ]);
  ("/allowed/dir/b.txt",
   [ {| file := "/allowed/dir/b.txt"; lineNumber := 1; content := "test 3";
        contextBefore := []; contextAfter := [] |};
     {| file := "/allowed/dir/b.txt"; lineNumber := 2; content := "test 4";
        contextBefore := []; contextAfter := [] |} ]) ].

End GrepExample.

Module LongFileExample.

(** Two hundred lines of ten digits, each ended by a newline: 2200
    bytes, read in three chunks. *)
Definition text : string := Js.repeat ("0123456789" +:+ nl) 200.

Definition st : State := Posix.boot ["/allowed"] {[ "/allowed/long.txt" := File text ]}.

End LongFileExample.

Module CutCharacterExample.

(** 1023 letters, a character of two bytes across the end of the first
    chunk, and one more letter. *)
Definition text : string :=
Js.repeat "a" 1023 +:+ String "195" (String "169" "z").

Definition st : State := Posix.boot ["/allowed"] {[ "/allowed/cut.txt" := File text ]}.

End CutCharacterExample.

Module FaultyReadExample.

(** Every read from a handle fails. *)
Definition faults (n : nat) (c : FsCall) : option Fault :=
match c with
| CRead _ _ _ => Some {| f_error := errno "EIO"; f_residue := None |}
| _ => None
end.

Definition env : Env :=
Posix.env (fun p => inr p) Posix.noListing faults Posix.noTool None.

End FaultyReadExample.

Module DeniedExample.

(** The allowed directory cannot be resolved: permission is denied. *)
Definition links (p : string) : JsError + string :=
if String.eqb p "/allowed/locked" then inl (errno "EACCES") else inr p.

Definition env : Env :=
Posix.env links Posix.noListing Posix.noFault Posix.noTool None.

End DeniedExample.

Module EditExample.

(** A file with Windows line endings. *)
Definition original : string :=
"alpha" +:+ String Js.CR nl +:+ "beta" +:+ String Js.CR nl.

Definition st : State :=
Posix.boot ["/allowed"] {[ "/allowed/w.txt" := File original ]}.

Definition tmp : string := "/allowed/w.txt.00112233445566778899aabbccddeeff.tmp".

End EditExample.

Module IndexExample.

(** [plocate] is installed and answers every query with three paths,
    one under the search root, one outside the allowed directories and
    one under another allowed directory. *)
Definition tools (cmd : string) (args : list string) : JsError + (string * string) :=
if String.eqb cmd "plocate" then
  if SearchExample.isVersionProbe args then inr ("plocate 1.1.18", "")
  else inr ("/allowed/dir/a.js" +:+ nl +:+ "/etc/b.js" +:+ nl
            +:+ "/allowed/other/c.js" +:+ nl, "")
else inl (errno "ENOENT").

Definition env : Env :=
Posix.env (fun p => inr p) SearchExample.listing Posix.noFault tools None.

End IndexExample.

Module BadPatternExample.

(** An engine that refuses every pattern. *)
Definition env : Env :=
{| expandHome := Posix.expand;
   normalizePath := fun p => p;
   sep := "/";
   isAbsolute := fun p => Js.startsWith p "/";
   path_resolve := Posix.resolve;
   cwd := "/srv";
   path_dirname := Posix.dirname;
   path_basename := Posix.basename;
   path_join := Posix.join;
   path_relative := Posix.relative;
   PLOCATE_DB := None;
   minimatch := Posix.match_glob;
   createTwoFilesPatch := Posix.patch;
   regexCompile := fun _ _ => inl (Error "Unterminated group");
   realpath := fun p => inr p;
   readdir := Posix.noListing;
   fault := Posix.noFault;
   randomHex := fun n => "00112233445566778899aabbccddeeff";
   execFile := Posix.noTool |}.

End BadPatternExample.

Module IntroExample.

Definition st : State :=
Posix.boot ["/allowed"]
  (<[ "/allowed/proj/README.md" := File "Hello" ]> {[ "/allowed/proj" := Directory ]}).

End IntroExample.

(** * Properties *)

Example js_split_lines :
  Js.split Js.LF (String "a" (String Js.LF (String "b" (String Js.LF "")))) = ["a"; "b"; ""].
Proof. reflexivity. Qed.

Example js_replace_first : Js.replace "a-b-c" "-" "$$&$&" = "a$&-b-c".
Proof. reflexivity. Qed.

Example js_trim : Js.trim "  x y  " = "x y".
Proof. reflexivity. Qed.

(** ** Running the monad *)

Lemma bind_return {A B} (m : M A) (k : A -> M B) (st st' : State) (a : A) :
m st = (Return a, st') -> bind m k st = k a st'.
Proof. unfold bind. now intros ->. Qed.

Lemma bind_throw {A B} (m : M A) (k : A -> M B) (st st' : State) (e : JsError) :
m st = (Throw e, st') -> bind m k st = (Throw e, st').
Proof. unfold bind. now intros ->. Qed.

Lemma try_catch_return {A} (body : M A) (handler : JsError -> M A)
  (st st' : State) (a : A) :
body st = (Return a, st') -> try_catch body handler st = (Return a, st').
Proof. unfold try_catch. now intros ->. Qed.

Lemma try_catch_throw {A} (body : M A) (handler : JsError -> M A)
  (st st' : State) (e : JsError) :
body st = (Throw e, st') -> try_catch body handler st = handler e st'.
Proof. unfold try_catch. now intros ->. Qed.

Lemma try_finally_return {A} (body : M A) (fin : M unit) (st st1 st2 : State) (a : A) :
body st = (Return a, st1) -> fin st1 = (Return tt, st2) ->
try_finally body fin st = (Return a, st2).
Proof. unfold try_finally. now intros -> ->. Qed.

Lemma outcome_pair {A} (r : Outcome A * State) (o : Outcome A) :
fst r = o -> r = (o, snd r).
Proof. destruct r. cbn. now intros ->. Qed.

(** ** Path validation *)

Section PathValidation.

Variable E : Env.

Lemma within_true_iff p dirs :
  isPathWithinAllowedDirectories E p dirs = true <-> Inside E p dirs.
Proof.
  unfold isPathWithinAllowedDirectories, Inside.
  rewrite existsb_exists. split.
  - intros (root & Hin & Hor). exists root. split; [exact Hin|].
    apply orb_true_iff in Hor as [Heq | Hpre].
    + left. now apply String.eqb_eq.
    + now right.
  - intros (root & Hin & [-> | Hpre]); exists root; split; try exact Hin.
    + now rewrite String.eqb_refl.
    + rewrite Hpre. apply orb_true_r.
Qed.

Lemma within_false_iff p dirs :
  isPathWithinAllowedDirectories E p dirs = false <-> Outside E p dirs.
Proof.
  unfold Outside. split.
  - intros Hf root Hin.
    assert (Hn : ~ Inside E p dirs).
    { intros Hi. apply within_true_iff in Hi. congruence. }
    split.
    + intros ->. apply Hn. exists root. auto.
    + destruct (Js.startsWith p (root +:+ sep E)) eqn:Hs; [|reflexivity].
      exfalso. apply Hn. exists root. auto.
  - intros Hout.
    destruct (isPathWithinAllowedDirectories E p dirs) eqn:Hw; [|reflexivity].
    apply within_true_iff in Hw as (root & Hin & Hor).
    destruct (Hout root Hin) as [Hne Hs].
    destruct Hor as [-> | Hpre]; [contradiction | congruence].
Qed.

Ltac run_validate :=
  unfold validatePath, bind, get, try_catch, fs_realpath, throw, ret; cbn beta iota.

(** C1. A requested path that, once expanded, made absolute and
    normalised, is outside every allowed directory is rejected with the
    access-denied error, and the state is untouched: no system call has
    been logged when the error is raised. *)
Theorem validatePath_outside_denied_without_fs (st : State) (requestedPath : string) :
  Outside E (normalizePath E (absolutePath E requestedPath)) (allowed st) ->
  exists e,
    validatePath E requestedPath st = (Throw e, st)
    /\ kindOf e = AccessDenied
    /\ message e = "Access denied - path outside allowed directories: "
                   +:+ absolutePath E requestedPath +:+ " not in "
                   +:+ Js.join ", " (allowed st)
    /\ trace (snd (validatePath E requestedPath st)) = trace st.
Proof.
  intros Hout. apply within_false_iff in Hout.
  eexists. run_validate. rewrite Hout. cbn.
  repeat split; reflexivity.
Qed.

(** C2. When the requested form passes the containment test and the
    real path resolves, a real path outside every allowed directory is
    refused with the symlink-escape error, and a real path inside is
    what [validatePath] returns. *)
Theorem validatePath_checks_resolved_target (st : State) (requestedPath real : string) :
  Inside E (normalizePath E (absolutePath E requestedPath)) (allowed st) ->
  realpath E (absolutePath E requestedPath) = inr real ->
  (Outside E (normalizePath E real) (allowed st) ->
     exists e,
       fst (validatePath E requestedPath st) = Throw e
       /\ kindOf e = SymlinkEscape
       /\ message e = "Access denied - symlink target outside allowed directories: "
                      +:+ real +:+ " not in " +:+ Js.join ", " (allowed st))
  /\ (Inside E (normalizePath E real) (allowed st) ->
       fst (validatePath E requestedPath st) = Return real).
Proof.
  intros Hin Hreal. apply within_true_iff in Hin.
  split.
  - intros Hout. apply within_false_iff in Hout.
    eexists. run_validate. rewrite Hin, Hreal. cbn.
    unfold allowed, deref in *. cbn. rewrite Hout. cbn.
    repeat split; reflexivity.
  - intros Hin'. apply within_true_iff in Hin'.
    run_validate. rewrite Hin, Hreal. cbn.
    unfold allowed, deref in *. cbn. rewrite Hin'. reflexivity.
Qed.

(** C4. When the requested form passes the containment test and its own
    resolution fails with ENOENT: a parent that resolves inside the
    allowed directories makes [validatePath] return the absolute,
    unresolved path, and a parent that does not resolve makes it fail
    with the parent-missing error. *)
Theorem validatePath_new_file (st : State) (requestedPath : string) (enoent : JsError) :
  Inside E (normalizePath E (absolutePath E requestedPath)) (allowed st) ->
  realpath E (absolutePath E requestedPath) = inl enoent ->
  codeIs enoent "ENOENT" = true ->
  (forall realParent,
      realpath E (path_dirname E (absolutePath E requestedPath)) = inr realParent ->
      Inside E (normalizePath E realParent) (allowed st) ->
      fst (validatePath E requestedPath st) = Return (absolutePath E requestedPath))
  /\ (forall e',
        realpath E (path_dirname E (absolutePath E requestedPath)) = inl e' ->
        exists e,
          fst (validatePath E requestedPath st) = Throw e
          /\ kindOf e = ParentMissing
          /\ message e = "Parent directory does not exist: "
                         +:+ path_dirname E (absolutePath E requestedPath)).
Proof.
  intros Hin Hreal Hcode. apply within_true_iff in Hin.
  split.
  - intros realParent Hparent Hin'. apply within_true_iff in Hin'.
    run_validate. rewrite Hin, Hreal. cbn. rewrite Hcode, Hparent. cbn.
    unfold allowed, deref in *. cbn. rewrite Hin'. reflexivity.
  - intros e' Hparent.
    eexists. run_validate. rewrite Hin, Hreal. cbn. rewrite Hcode, Hparent. cbn.
    repeat split; reflexivity.
Qed.

End PathValidation.

Lemma validatePath_outside_denied_without_fs_witness :
  exists e,
    validatePath PathExamples.env "/allowed2/file.txt" PathExamples.st
    = (Throw e, PathExamples.st)
    /\ kindOf e = AccessDenied
    /\ message e = "Access denied - path outside allowed directories: "
                   +:+ absolutePath PathExamples.env "/allowed2/file.txt" +:+ " not in "
                   +:+ Js.join ", " (allowed PathExamples.st)
    /\ trace (snd (validatePath PathExamples.env "/allowed2/file.txt" PathExamples.st))
       = trace PathExamples.st.
Proof.
  apply (validatePath_outside_denied_without_fs PathExamples.env PathExamples.st
           "/allowed2/file.txt").
  intros root Hin. vm_compute in Hin. destruct Hin as [<- | []].
  split; [discriminate | reflexivity].
Defined.

Lemma allowed_example_inside (p : string) :
Js.startsWith p "/allowed/" = true ->
Inside PathExamples.env p (allowed PathExamples.st).
Proof.
intros Hp. exists "/allowed". split.
- vm_compute. auto.
- right. exact Hp.
Qed.

Lemma allowed_example_outside (p : string) :
p <> "/allowed" -> Js.startsWith p "/allowed/" = false ->
Outside PathExamples.env p (allowed PathExamples.st).
Proof.
intros Hne Hp root Hin. vm_compute in Hin. destruct Hin as [<- | []].
split; assumption.
Qed.

Lemma validatePath_checks_resolved_target_witness :
(exists e,
   fst (validatePath PathExamples.env "/allowed/passwd" PathExamples.st) = Throw e
   /\ kindOf e = SymlinkEscape
   /\ message e = "Access denied - symlink target outside allowed directories: "
                  +:+ "/etc/passwd" +:+ " not in " +:+ Js.join ", " (allowed PathExamples.st))
/\ fst (validatePath PathExamples.env "/allowed/notes.txt" PathExamples.st)
   = Return "/allowed/notes.txt".
Proof.
split.
- apply (validatePath_checks_resolved_target PathExamples.env PathExamples.st
           "/allowed/passwd" "/etc/passwd").
  + apply allowed_example_inside. reflexivity.
  + reflexivity.
  + apply allowed_example_outside; [discriminate | reflexivity].
- apply (validatePath_checks_resolved_target PathExamples.env PathExamples.st
           "/allowed/notes.txt" "/allowed/notes.txt").
  + apply allowed_example_inside. reflexivity.
  + reflexivity.
  + apply allowed_example_inside. reflexivity.
Defined.

Lemma validatePath_new_file_witness :
fst (validatePath PathExamples.env "/allowed/new.txt" PathExamples.st)
= Return "/allowed/new.txt"
/\ exists e,
     fst (validatePath PathExamples.env "/allowed/fresh/new.txt" PathExamples.st) = Throw e
     /\ kindOf e = ParentMissing
     /\ message e = "Parent directory does not exist: "
                    +:+ path_dirname PathExamples.env
                          (absolutePath PathExamples.env "/allowed/fresh/new.txt").
Proof.
split.
- apply (validatePath_new_file PathExamples.env PathExamples.st
           "/allowed/new.txt" (errno "ENOENT")) with (realParent := "/allowed").
  + apply allowed_example_inside. reflexivity.
  + reflexivity.
  + reflexivity.
  + reflexivity.
  + exists "/allowed". split; [vm_compute; auto | left; reflexivity].
- apply (validatePath_new_file PathExamples.env PathExamples.st
           "/allowed/fresh/new.txt" (errno "ENOENT")) with (e' := errno "ENOENT").
  + apply allowed_example_inside. reflexivity.
  + reflexivity.
  + reflexivity.
  + reflexivity.
Defined.

(** A parent that resolves outside the allowed directories: the inner
    handler catches the access-denied error raised for it and raises the
    parent-missing error in its place. *)
Lemma validatePath_parent_outside (E : Env) (st : State) (requestedPath : string)
  (enoent : JsError) (realParent : string) :
Inside E (normalizePath E (absolutePath E requestedPath)) (allowed st) ->
realpath E (absolutePath E requestedPath) = inl enoent ->
codeIs enoent "ENOENT" = true ->
realpath E (path_dirname E (absolutePath E requestedPath)) = inr realParent ->
Outside E (normalizePath E realParent) (allowed st) ->
fst (validatePath E requestedPath st)
= Throw (Error ("Parent directory does not exist: "
                +:+ path_dirname E (absolutePath E requestedPath))).
Proof.
intros Hin Hreal Hcode Hparent Hout.
apply within_true_iff in Hin. apply within_false_iff in Hout.
unfold validatePath, bind, get, try_catch, fs_realpath, throw, ret; cbn beta iota.
rewrite Hin, Hreal. cbn. rewrite Hcode, Hparent. cbn.
unfold allowed, deref in *. cbn. rewrite Hout. reflexivity.
Qed.

(** C3. With [/allowed] as the only allowed directory and [/allowed/link]
    a link to [/etc], the request for the new file [/allowed/link/new.txt]
    passes the first containment test, does not resolve (ENOENT), and its
    parent resolves to [/etc], outside every allowed directory; the call
    fails with the parent-missing error, not with access-denied. *)
Theorem validatePath_parent_escape_is_parent_missing :
Inside PathExamples.env
  (normalizePath PathExamples.env (absolutePath PathExamples.env "/allowed/link/new.txt"))
  (allowed PathExamples.st)
/\ realpath PathExamples.env (absolutePath PathExamples.env "/allowed/link/new.txt")
   = inl (errno "ENOENT")
/\ realpath PathExamples.env
     (path_dirname PathExamples.env (absolutePath PathExamples.env "/allowed/link/new.txt"))
   = inr "/etc"
/\ Outside PathExamples.env (normalizePath PathExamples.env "/etc") (allowed PathExamples.st)
/\ fst (validatePath PathExamples.env "/allowed/link/new.txt" PathExamples.st)
   = Throw (Error "Parent directory does not exist: /allowed/link")
/\ kindOf (Error "Parent directory does not exist: /allowed/link") = ParentMissing
/\ kindOf (Error "Parent directory does not exist: /allowed/link") <> AccessDenied.
Proof.
split; [apply allowed_example_inside; reflexivity|].
split; [reflexivity|].
split; [reflexivity|].
split; [apply allowed_example_outside; [discriminate | reflexivity]|].
split; [vm_compute; reflexivity|].
split; [reflexivity | discriminate].
Qed.

(** ** The allow-list accessors *)

Section AllowList.

Variable E : Env.

(** The outcome of [validatePath] depends on the state only through the
    array the module variable refers to. *)
Lemma validatePath_depends_on_allowed (p : string) (st st' : State) :
allowed st = allowed st' ->
fst (validatePath E p st) = fst (validatePath E p st').
Proof.
intros Heq.
unfold validatePath, bind, get, try_catch, fs_realpath, throw, ret; cbn beta iota.
rewrite <- Heq.
destruct (isPathWithinAllowedDirectories E _ (allowed st)); cbn; [|reflexivity].
destruct (realpath E (absolutePath E p)) as [e | real]; cbn.
- destruct (codeIs e "ENOENT"); cbn; [|reflexivity].
  destruct (realpath E (path_dirname E (absolutePath E p))) as [e' | parent]; cbn;
    [reflexivity|].
  change (allowed (log _ (log _ st))) with (allowed st).
  change (allowed (log _ (log _ st'))) with (allowed st').
  rewrite <- Heq.
  destruct (isPathWithinAllowedDirectories E _ (allowed st)); reflexivity.
- change (allowed (log _ st)) with (allowed st).
  change (allowed (log _ st')) with (allowed st').
  rewrite <- Heq.
  destruct (isPathWithinAllowedDirectories E _ (allowed st)); reflexivity.
Qed.

Lemma fresh_not_allocated (st : State) (l : nat) :
is_Some (heap st !! l) -> fresh (dom (heap st)) <> l.
Proof.
intros Hl Heq. apply elem_of_dom in Hl. rewrite <- Heq in Hl.
exact (is_fresh _ Hl).
Qed.

(** C10. [setAllowedDirectories] stores a copy of the array it is given
    and [getAllowedDirectories] hands out a copy of the stored one: after
    either call, whatever the caller then writes into its own array, the
    array [validatePath] tests against, and with it the outcome of
    [validatePath] on every path, is unchanged. *)
Theorem allow_list_defensive_copies (st : State) (caller : nat) :
is_Some (heap st !! caller) ->
is_Some (heap st !! allowedDirectories st) ->
(exists st1,
   setAllowedDirectories caller st = (Return tt, st1)
   /\ allowedDirectories st1 <> caller
   /\ allowed st1 = deref st caller
   /\ forall (xs : list string) (p : string),
        allowed (store caller xs st1) = allowed st1
        /\ fst (validatePath E p (store caller xs st1)) = fst (validatePath E p st1))
/\ (exists r st2,
      getAllowedDirectories st = (Return r, st2)
      /\ r <> allowedDirectories st2
      /\ deref st2 r = allowed st
      /\ allowed st2 = allowed st
      /\ forall (xs : list string) (p : string),
           allowed (store r xs st2) = allowed st
           /\ fst (validatePath E p (store r xs st2)) = fst (validatePath E p st)).
Proof.
intros Hcaller Hmodule.
pose proof (fresh_not_allocated st caller Hcaller) as Hfresh1.
pose proof (fresh_not_allocated st _ Hmodule) as Hfresh2.
split.
- eexists. split; [reflexivity|]. cbn.
  split; [exact Hfresh1|].
  assert (Hst1 : forall xs,
             allowed (store caller xs
                        (mkState (<[fresh (dom (heap st)) := deref st caller]> (heap st))
                           (fresh (dom (heap st))) (nodes st) (trace st) (drawn st)))
             = deref st caller).
  { intros xs. unfold allowed, deref at 1, store. cbn.
    rewrite lookup_insert_ne by congruence.
    rewrite lookup_insert_eq. reflexivity. }
  assert (Hst0 : allowed (mkState (<[fresh (dom (heap st)) := deref st caller]> (heap st))
                            (fresh (dom (heap st))) (nodes st) (trace st) (drawn st))
                 = deref st caller).
  { unfold allowed, deref at 1. cbn. rewrite lookup_insert_eq. reflexivity. }
  split; [exact Hst0|].
  intros xs p. split.
  + rewrite Hst1, Hst0. reflexivity.
  + apply validatePath_depends_on_allowed. rewrite Hst1, Hst0. reflexivity.
- eexists. eexists. split; [reflexivity|]. cbn.
  split; [exact Hfresh2|].
  split.
  { unfold deref at 1. cbn. rewrite lookup_insert_eq. reflexivity. }
  assert (Hkeep : forall h : gmap nat (list string),
             h !! allowedDirectories st = heap st !! allowedDirectories st ->
             default [] (h !! allowedDirectories st) = allowed st).
  { intros h ->. reflexivity. }
  split.
  { unfold allowed at 1, deref. cbn. apply Hkeep.
    rewrite lookup_insert_ne by exact Hfresh2. reflexivity. }
  intros xs p.
  assert (Hstore : allowed (store (fresh (dom (heap st))) xs
                      (mkState (<[fresh (dom (heap st)) := deref st (allowedDirectories st)]>
                                  (heap st))
                         (allowedDirectories st) (nodes st) (trace st) (drawn st)))
                   = allowed st).
  { unfold allowed at 1, deref at 1, store. cbn. apply Hkeep.
    rewrite lookup_insert_ne by exact Hfresh2.
    rewrite lookup_insert_ne by exact Hfresh2. reflexivity. }
  split; [exact Hstore|].
  apply validatePath_depends_on_allowed. exact Hstore.
Qed.

End AllowList.

Lemma allow_list_defensive_copies_witness :
(exists st1,
   setAllowedDirectories 1 AllowListExample.st = (Return tt, st1)
   /\ allowedDirectories st1 <> 1
   /\ allowed st1 = deref AllowListExample.st 1
   /\ forall (xs : list string) (p : string),
        allowed (store 1 xs st1) = allowed st1
        /\ fst (validatePath PathExamples.env p (store 1 xs st1))
           = fst (validatePath PathExamples.env p st1))
/\ (exists r st2,
      getAllowedDirectories AllowListExample.st = (Return r, st2)
      /\ r <> allowedDirectories st2
      /\ deref st2 r = allowed AllowListExample.st
      /\ allowed st2 = allowed AllowListExample.st
      /\ forall (xs : list string) (p : string),
           allowed (store r xs st2) = allowed AllowListExample.st
           /\ fst (validatePath PathExamples.env p (store r xs st2))
              = fst (validatePath PathExamples.env p AllowListExample.st)).
Proof.
apply (allow_list_defensive_copies PathExamples.env AllowListExample.st 1).
- exists ["/home/user"; "/tmp"]. reflexivity.
- exists []. reflexivity.
Defined.

(** ** The writer *)

Section Writer.

Variable E : Env.

(** A successful [unlink] leaves nothing at the path. *)
Lemma fs_unlink_removes (p : string) (st st' : State) :
fs_unlink E p st = (Return tt, st') -> nodes st' !! p = None.
Proof.
unfold fs_unlink, syscall.
destruct (fault E (length (trace st)) (CUnlink p)); [discriminate|].
cbn. destruct (nodes st !! p) as [[c | t |]|]; try discriminate.
- intros [= <-]. cbn. apply lookup_delete_eq.
- intros [= <-]. cbn. apply lookup_delete_eq.
Qed.

Lemma fs_unlink_logs (p : string) (st : State) :
trace (snd (fs_unlink E p st)) = trace st ++ [CUnlink p].
Proof.
unfold fs_unlink, syscall.
destruct (fault E (length (trace st)) (CUnlink p)); [reflexivity|].
cbn. destruct (nodes st !! p) as [[c | t |]|]; reflexivity.
Qed.

Lemma fs_unlink_total (p : string) (st : State) :
fst (fs_unlink E p st) <> Diverge.
Proof.
unfold fs_unlink, syscall.
destruct (fault E (length (trace st)) (CUnlink p)); [discriminate|].
cbn. destruct (nodes st !! p) as [[c | t |]|]; discriminate.
Qed.

Lemma fs_writeFile_logs (p content : string) (x : bool) (st : State) :
trace (snd (fs_writeFile E p content x st)) = trace st ++ [CWriteFile p content x].
Proof.
unfold fs_writeFile.
destruct (fault E (length (trace st)) (CWriteFile p content x)) as [f|]; cbn.
- unfold leave. destruct (f_residue f); cbn; [|reflexivity].
  destruct (nodes st !! p) as [[c | t |]|]; destruct x; reflexivity.
- destruct x.
  + destruct (nodes st !! p); [reflexivity|].
    destruct (follow 40 (nodes st) (parentDirectory E p)) as [d|]; [|reflexivity].
    destruct (nodes st !! d) as [[c | t' |]|]; reflexivity.
  + destruct (follow 40 (nodes st) p) as [t|]; [|reflexivity].
    destruct (nodes st !! t) as [[c | t' |]|]; reflexivity.
Qed.

Lemma fs_writeFile_total (p content : string) (x : bool) (st : State) :
fst (fs_writeFile E p content x st) <> Diverge.
Proof.
unfold fs_writeFile.
destruct (fault E (length (trace st)) (CWriteFile p content x)) as [f|]; [discriminate|].
destruct x.
- destruct (nodes st !! p); [discriminate|].
  destruct (follow 40 (nodes st) (parentDirectory E p)) as [d|]; [|discriminate].
  destruct (nodes st !! d) as [[c | t' |]|]; discriminate.
- destruct (follow 40 (nodes st) p) as [t|]; [|discriminate].
  destruct (nodes st !! t) as [[c | t' |]|]; discriminate.
Qed.

Lemma fs_rename_logs (src dst : string) (st : State) :
trace (snd (fs_rename E src dst st)) = trace st ++ [CRename src dst].
Proof.
unfold fs_rename, syscall.
destruct (fault E (length (trace st)) (CRename src dst)); [reflexivity|]. cbn.
destruct (nodes st !! src) as [n|]; [|reflexivity].
destruct n; try reflexivity.
destruct (nodes st !! dst) as [[c' | t' |]|]; reflexivity.
Qed.

Lemma fs_rename_total (src dst : string) (st : State) :
fst (fs_rename E src dst st) <> Diverge.
Proof.
unfold fs_rename, syscall.
destruct (fault E (length (trace st)) (CRename src dst)); [discriminate|]. cbn.
destruct (nodes st !! src) as [n|]; [|discriminate].
destruct n; try discriminate.
destruct (nodes st !! dst) as [[c' | t' |]|]; discriminate.
Qed.

(** The body of [replaceAtomically]: one or two calls, never stuck. *)
Lemma write_then_rename_logs (tmp p content : string) (st : State) :
exists rest,
  trace (snd ((fs_writeFile E tmp content false ;;; fs_rename E tmp p) st))
  = trace st ++ CWriteFile tmp content false :: rest.
Proof.
unfold bind.
pose proof (fs_writeFile_logs tmp content false st) as Hw.
destruct (fs_writeFile E tmp content false st) as [[[] | e |] st1]; cbn in *;
  try (exists []; exact Hw).
pose proof (fs_rename_logs tmp p st1) as Hr.
rewrite Hr, Hw, <- app_assoc. eexists. reflexivity.
Qed.

Lemma write_then_rename_total (tmp p content : string) (st : State) :
fst ((fs_writeFile E tmp content false ;;; fs_rename E tmp p) st) <> Diverge.
Proof.
unfold bind.
pose proof (fs_writeFile_total tmp content false st) as Hw.
destruct (fs_writeFile E tmp content false st) as [[[] | e |] st1]; cbn in *;
  try discriminate; try congruence.
apply fs_rename_total.
Qed.

(** What [replaceAtomically] does after its body has run. *)
Lemma replaceAtomically_ok (tmp p content : string) (st st' : State) :
(fs_writeFile E tmp content false ;;; fs_rename E tmp p) st = (Return tt, st') ->
replaceAtomically E tmp p content st = (Return tt, st').
Proof. unfold replaceAtomically, try_catch. now intros ->. Qed.

Lemma replaceAtomically_cleanup (tmp p content : string) (st st' : State) (e : JsError) :
(fs_writeFile E tmp content false ;;; fs_rename E tmp p) st = (Throw e, st') ->
replaceAtomically E tmp p content st = (Throw e, snd (fs_unlink E tmp st')).
Proof.
unfold replaceAtomically, try_catch at 1. intros ->.
unfold bind, try_catch, ret, throw.
pose proof (fs_unlink_total tmp st') as Hu.
destruct (fs_unlink E tmp st') as [[[] | e' |] st'']; cbn in *; congruence.
Qed.

(** C5. [writeFileContent] starts with the exclusive-create write, which
    fails on an occupied path whatever sits there (a link included).
    When that write succeeds, or fails with an error other than EEXIST,
    its outcome is the outcome of the whole call and nothing else has
    been done, so no temporary file was created.  Only on EEXIST is the
    content written to the temporary sibling and renamed onto the
    target; when either step fails the temporary file is unlinked, the
    failing step's error is the one reported, and if the unlink
    succeeded nothing is left at the temporary path. *)
Theorem writeFileContent_protocol (st : State) (filePath content : string) :
let first := fs_writeFile E filePath content true st in
let tmp := tempName filePath (randomHex E (drawn (snd first))) in
let second :=
  (fs_writeFile E tmp content false ;;; fs_rename E tmp filePath) (bump (snd first)) in
let result := writeFileContent E filePath content st in
(exists rest,
   trace (snd result) = trace st ++ CWriteFile filePath content true :: rest)
/\ (forall n, nodes st !! filePath = Some n ->
      exists e, fst first = Throw e
                /\ (fault E (length (trace st)) (CWriteFile filePath content true) = None ->
                    e = errno "EEXIST"))
/\ (fst first = Return tt -> result = first)
/\ (forall e, fst first = Throw e -> codeIs e "EEXIST" = false ->
      result = first
      /\ trace (snd result) = trace st ++ [CWriteFile filePath content true])
/\ (forall e, fst first = Throw e -> codeIs e "EEXIST" = true ->
      (fst second = Return tt -> result = second)
      /\ (forall e2, fst second = Throw e2 ->
            fst result = Throw e2
            /\ trace (snd result) = trace (snd second) ++ [CUnlink tmp]
            /\ (fst (fs_unlink E tmp (snd second)) = Return tt ->
                nodes (snd result) !! tmp = None))).
Proof.
intros first tmp second result.
pose proof (fs_writeFile_logs filePath content true st) as Hlog. fold first in Hlog.
pose proof (fs_writeFile_total filePath content true st) as Htot. fold first in Htot.
assert (Hexcl : forall n, nodes st !! filePath = Some n ->
          exists e, fst first = Throw e
                    /\ (fault E (length (trace st)) (CWriteFile filePath content true) = None ->
                        e = errno "EEXIST")).
{ intros n Hn. subst first. unfold fs_writeFile.
  destruct (fault E (length (trace st)) (CWriteFile filePath content true)) as [f|]; cbn.
  - eexists. split; [reflexivity | discriminate].
  - rewrite Hn. eexists. split; reflexivity. }
assert (Hret : fst first = Return tt -> result = first).
{ intros H. subst result. unfold writeFileContent, try_catch.
  fold first. destruct first as [[[] | e |] st1]; cbn in H; try discriminate.
  reflexivity. }
assert (Hother : forall e, fst first = Throw e -> codeIs e "EEXIST" = false ->
          result = first).
{ intros e H Hc. subst result. unfold writeFileContent, try_catch.
  fold first. destruct first as [[[] | e0 |] st1]; cbn in H; try discriminate.
  injection H as ->. rewrite Hc. reflexivity. }
assert (Hexists : forall e, fst first = Throw e -> codeIs e "EEXIST" = true ->
          result = replaceAtomically E tmp filePath content (bump (snd first))).
{ intros e H Hc. subst result tmp. unfold writeFileContent, try_catch at 1.
  fold first. destruct first as [[[] | e0 |] st1]; cbn in H; try discriminate.
  injection H as ->. rewrite Hc. reflexivity. }
destruct (write_then_rename_logs tmp filePath content (bump (snd first)))
  as [rest Hrest].
fold second in Hrest. cbn in Hrest.
pose proof (write_then_rename_total tmp filePath content (bump (snd first))) as Htot2.
fold second in Htot2.
split.
{ destruct (fst first) as [[] | e |] eqn:Hf; [| |congruence].
  - rewrite (Hret eq_refl), Hlog. exists []. reflexivity.
  - destruct (codeIs e "EEXIST") eqn:Hc.
    + rewrite (Hexists e eq_refl Hc).
      destruct second as [[[] | e2 |] st2] eqn:Hs; cbn in Htot2; [| |congruence].
      * rewrite (replaceAtomically_ok _ _ _ _ _ Hs). cbn in *.
        rewrite Hrest, Hlog, <- app_assoc. eexists. reflexivity.
      * rewrite (replaceAtomically_cleanup _ _ _ _ _ _ Hs). cbn in *.
        rewrite fs_unlink_logs, Hrest, Hlog, <- !app_assoc. eexists. reflexivity.
    + rewrite (Hother e eq_refl Hc), Hlog. exists []. reflexivity. }
split; [exact Hexcl|].
split; [exact Hret|].
split.
{ intros e H Hc. rewrite (Hother e H Hc). split; [reflexivity | exact Hlog]. }
intros e H Hc. rewrite (Hexists e H Hc). split.
- intros Hs.
  assert (Hs' : second = (Return tt, snd second)).
  { destruct second as [o st2]. cbn in *. now subst o. }
  rewrite Hs'. apply replaceAtomically_ok. exact Hs'.
- intros e2 Hs.
  assert (Hs' : second = (Throw e2, snd second)).
  { destruct second as [o st2]. cbn in *. now subst o. }
  rewrite (replaceAtomically_cleanup _ _ _ _ _ _ Hs'). cbn.
  split; [reflexivity|]. split; [apply fs_unlink_logs|].
  intros Hu. apply (fs_unlink_removes tmp (snd second)).
  destruct (fs_unlink E tmp (snd second)) as [o st3]. cbn in *. now subst o.
Qed.

End Writer.

Lemma writeFileContent_protocol_witness :
fst (writeFileContent WriterExample.env "/allowed/a.txt" "hello" WriterExample.st)
= Throw (errno "EXDEV")
/\ trace (snd (writeFileContent WriterExample.env "/allowed/a.txt" "hello" WriterExample.st))
   = [CWriteFile "/allowed/a.txt" "hello" true;
      CWriteFile WriterExample.tmp "hello" false;
      CRename WriterExample.tmp "/allowed/a.txt";
      CUnlink WriterExample.tmp]
/\ nodes (snd (writeFileContent WriterExample.env "/allowed/a.txt" "hello" WriterExample.st))
   !! WriterExample.tmp = None.
Proof.
destruct (writeFileContent_protocol WriterExample.env WriterExample.st
            "/allowed/a.txt" "hello") as (_ & Hexcl & _ & _ & Hexists).
destruct (Hexcl (Symlink "/etc/passwd")) as (e & He & Heexist);
  [vm_compute; reflexivity|].
specialize (Heexist eq_refl). subst e.
destruct (Hexists (errno "EEXIST") He eq_refl) as [_ Hfail].
destruct (Hfail (errno "EXDEV")) as (Hr & Htrace & Hgone);
  [vm_compute; reflexivity|].
split; [exact Hr|]. split.
- rewrite Htrace. vm_compute. reflexivity.
- apply Hgone. vm_compute. reflexivity.
Defined.

(** ** The patch engine *)

Section PatchEngine.

Variable E : Env.

Lemma windowMatches_differs (oldLines window : list string) (j : nat)
  (oldLine contentLine : string) :
oldLines !! j = Some oldLine ->
window !! j = Some contentLine ->
Js.trim oldLine <> Js.trim contentLine ->
windowMatches oldLines window = false.
Proof.
revert window j. induction oldLines as [|o os IH]; intros window j Ho Hw Hne.
- discriminate.
- destruct window as [|w ws]; [reflexivity|].
  destruct j as [|j]; cbn in *.
  + injection Ho as ->. injection Hw as ->.
    apply String.eqb_neq in Hne. now rewrite Hne.
  + rewrite (IH ws j Ho Hw Hne). apply andb_false_r.
Qed.

Lemma scanWindows_none (oldLines contentLines : list string) (remaining i : nat) :
(forall k, i <= k < i + remaining ->
   windowMatches oldLines (take (length oldLines) (drop k contentLines)) = false) ->
scanWindows oldLines contentLines i remaining = None.
Proof.
revert i. induction remaining as [|r IH]; intros i Hall; [reflexivity|].
cbn. rewrite (Hall i) by lia. apply IH. intros k Hk. apply Hall. lia.
Qed.

Lemma findWindow_none (oldLines contentLines : list string) :
NoWindow oldLines contentLines -> findWindow oldLines contentLines = None.
Proof.
intros Hno. unfold findWindow.
destruct (length oldLines <=? length contentLines) eqn:Hle; [|reflexivity].
apply Nat.leb_le in Hle.
apply scanWindows_none. intros k Hk.
destruct (Hno k) as (j & o & c & Ho & Hc & Hne); [lia|].
apply (windowMatches_differs _ _ j o c Ho); [|exact Hne].
rewrite lookup_take_lt by (apply lookup_lt_Some in Ho; exact Ho).
rewrite lookup_drop. exact Hc.
Qed.

(** The converse: when the scan finds nothing, no window matches. *)
Lemma windowMatches_false_differs (oldLines window : list string) :
length oldLines <= length window ->
windowMatches oldLines window = false ->
exists j oldLine contentLine,
  oldLines !! j = Some oldLine /\ window !! j = Some contentLine
  /\ Js.trim oldLine <> Js.trim contentLine.
Proof.
revert window. induction oldLines as [|o os IH]; intros window Hlen Hm.
- discriminate.
- destruct window as [|w ws]; cbn in Hlen; [lia|].
  cbn in Hm. apply andb_false_iff in Hm as [Hne | Hrest].
  + exists 0, o, w. repeat split. now apply String.eqb_neq.
  + destruct (IH ws ltac:(lia) Hrest) as (j & o' & c' & Ho & Hc & Hne).
    exists (S j), o', c'. auto.
Qed.

Lemma scanWindows_none_inv (oldLines contentLines : list string) (remaining i : nat) :
scanWindows oldLines contentLines i remaining = None ->
forall k, i <= k < i + remaining ->
  windowMatches oldLines (take (length oldLines) (drop k contentLines)) = false.
Proof.
revert i. induction remaining as [|r IH]; intros i Hscan k Hk; [lia|].
cbn in Hscan.
destruct (windowMatches oldLines (take (length oldLines) (drop i contentLines))) eqn:Hm;
  [discriminate|].
destruct (Nat.eq_dec k i) as [-> | Hne]; [exact Hm|].
apply (IH (S i) Hscan). lia.
Qed.

Lemma findWindow_none_iff (oldLines contentLines : list string) :
findWindow oldLines contentLines = None <-> NoWindow oldLines contentLines.
Proof.
split; [|apply findWindow_none].
unfold findWindow. intros Hf i Hi.
destruct (length oldLines <=? length contentLines) eqn:Hle.
- pose proof (scanWindows_none_inv _ _ _ _ Hf i ltac:(lia)) as Hm.
  apply windowMatches_false_differs in Hm.
  + destruct Hm as (j & o & c & Ho & Hc & Hne).
    exists j, o, c. repeat split; try assumption.
    rewrite lookup_take_lt in Hc by (apply lookup_lt_Some in Ho; exact Ho).
    now rewrite lookup_drop in Hc.
  + rewrite length_take, length_drop. lia.
- apply Nat.leb_gt in Hle. lia.
Qed.

(** An edit with neither an exact nor a trimmed window match fails. *)
Lemma applyEdit_no_match (current : string) (edit : FileEdit) :
Js.includes current (normalizeLineEndings (oldText edit)) = false ->
NoWindow (Js.split Js.LF (normalizeLineEndings (oldText edit))) (Js.split Js.LF current) ->
applyEdit current edit
= inl (Error ("Could not find exact match for edit:" +:+ nl +:+ oldText edit)).
Proof.
intros Hinc Hno. unfold applyEdit. rewrite Hinc.
now rewrite (findWindow_none _ _ Hno).
Qed.

Lemma applyEdits_stops (content current : string) (before after : list FileEdit)
  (edit : FileEdit) (e : JsError) :
applyEdits content before = inr current ->
applyEdit current edit = inl e ->
applyEdits content (before ++ edit :: after) = inl e.
Proof.
revert content. induction before as [|b bs IH]; intros content Hb He; cbn in *.
- injection Hb as ->. now rewrite He.
- destruct (applyEdit content b) as [e' | c']; [discriminate|]. now apply IH.
Qed.

Lemma fs_readFile_reads_only (p : string) (st : State) :
trace (snd (fs_readFile E p st)) = trace st ++ [CReadFile p]
/\ nodes (snd (fs_readFile E p st)) = nodes st
/\ fst (fs_readFile E p st) <> Diverge.
Proof.
unfold fs_readFile, syscall.
destruct (fault E (length (trace st)) (CReadFile p)); [repeat split; discriminate|].
cbn. destruct (follow 40 (nodes st) p) as [t|]; [|repeat split; discriminate].
destruct (nodes st !! t) as [[c | t' |]|]; repeat split; discriminate.
Qed.

(** The fence loop ends: a run of back-ticks longer than the diff is not
    in the diff. *)
Lemma prefix_length (a b : string) :
String.prefix a b = true -> String.length a <= String.length b.
Proof.
revert b. induction a as [|c a IH]; intros b H; cbn; [lia|].
destruct b as [|d b]; cbn in *; [discriminate|].
destruct (ascii_dec c d); [|discriminate]. apply IH in H. lia.
Qed.

Lemma includes_length (s sub : string) :
Js.includes s sub = true -> String.length sub <= String.length s.
Proof.
induction s as [|c s IH]; intros H.
- destruct sub; cbn in *; [lia | discriminate].
- change (Js.includes (String c s) sub)
    with (String.prefix sub (String c s) || Js.includes s sub) in H.
  apply orb_true_iff in H as [H | H].
  + now apply prefix_length in H.
  + apply IH in H. cbn. lia.
Qed.

Lemma length_ticks (n : nat) : String.length (Js.repeat "`" n) = n.
Proof.
induction n as [|n IH]; [reflexivity|].
change (S (String.length (Js.repeat "`" n)) = S n). now rewrite IH.
Qed.

Lemma fenceLength_total (diff : string) (fuel numBackticks : nat) :
String.length diff < numBackticks + fuel ->
exists n, fenceLength diff numBackticks (S fuel) = Some n.
Proof.
revert numBackticks. induction fuel as [|f IH]; intros k Hlt;
  cbn [fenceLength]; unfold fenceLength; fold fenceLength.
- destruct (Js.includes diff (Js.repeat "`" k)) eqn:Hi; [|eauto].
  apply includes_length in Hi. rewrite length_ticks in Hi. lia.
- destruct (Js.includes diff (Js.repeat "`" k)) eqn:Hi; [|eauto].
  apply (IH (S k)). lia.
Qed.

(** C6. If the file is read and some edit of the list finds, in the
    content as edited by the edits before it, neither its old text
    verbatim nor a window of lines equal to its lines once trimmed, then
    [applyFileEdits] fails with the no-match error carrying that edit's
    old text; the only system call made is the read, and the files are
    what they were.  With [dryRun] set the same holds of every edit list:
    the read is the only call, the files are what they were, and when all
    edits apply the fenced diff is returned. *)
Theorem applyFileEdits_writes_nothing_on_failure_or_dry_run
  (st : State) (filePath : string) :
(forall (raw current : string) (before after : list FileEdit) (edit : FileEdit)
        (dryRun : bool),
   fst (fs_readFile E filePath st) = Return raw ->
   applyEdits (normalizeLineEndings raw) before = inr current ->
   Js.includes current (normalizeLineEndings (oldText edit)) = false ->
   NoWindow (Js.split Js.LF (normalizeLineEndings (oldText edit)))
            (Js.split Js.LF current) ->
   let result := applyFileEdits E filePath (before ++ edit :: after) dryRun st in
   let e := Error ("Could not find exact match for edit:" +:+ nl +:+ oldText edit) in
   fst result = Throw e
   /\ kindOf e = NoMatchFound
   /\ trace (snd result) = trace st ++ [CReadFile filePath]
   /\ nodes (snd result) = nodes st)
/\ (forall edits : list FileEdit,
      let result := applyFileEdits E filePath edits true st in
      trace (snd result) = trace st ++ [CReadFile filePath]
      /\ nodes (snd result) = nodes st
      /\ forall raw modified,
           fst (fs_readFile E filePath st) = Return raw ->
           applyEdits (normalizeLineEndings raw) edits = inr modified ->
           exists numBackticks,
             fst result
             = Return (formatDiff
                         (createUnifiedDiff E (normalizeLineEndings raw) modified filePath)
                         numBackticks)).
Proof.
destruct (fs_readFile_reads_only filePath st) as (Htrace & Hnodes & Htotal).
split.
- intros raw current before after edit dryRun Hread Hbefore Hinc Hwin result e.
  pose proof (applyEdits_stops _ _ before after edit _ Hbefore
                (applyEdit_no_match current edit Hinc Hwin)) as Hstop.
  subst result. unfold applyFileEdits, bind.
  destruct (fs_readFile E filePath st) as [o st1]. cbn in *. subst o.
  rewrite Hstop. cbn. repeat split; assumption.
- intros edits result. subst result. unfold applyFileEdits, bind.
  destruct (fs_readFile E filePath st) as [[raw | e |] st1]; cbn in *;
    [| split; [assumption | split; [assumption | discriminate]] | congruence].
  destruct (applyEdits (normalizeLineEndings raw) edits) as [e | modified] eqn:Hedits;
    cbn; [split; [assumption | split; [assumption|]]; intros ? ? [= <-]; congruence|].
  destruct (fenceLength_total
              (createUnifiedDiff E (normalizeLineEndings raw) modified filePath)
              (String.length
                 (createUnifiedDiff E (normalizeLineEndings raw) modified filePath)) 3)
    as [n Hn]; [lia|].
  rewrite Hn. cbn. split; [assumption | split; [assumption|]].
  intros raw' modified' [= <-] Hm. rewrite Hedits in Hm. injection Hm as <-.
  exists n. reflexivity.
Qed.

End PatchEngine.

Lemma applyFileEdits_writes_nothing_on_failure_or_dry_run_witness :
(fst (applyFileEdits Posix.quiet "/allowed/f.txt"
        ([PatchExample.first] ++ PatchExample.second :: []) false PatchExample.st)
 = Throw (Error ("Could not find exact match for edit:" +:+ nl +:+ "gamma"))
 /\ nodes (snd (applyFileEdits Posix.quiet "/allowed/f.txt"
                  ([PatchExample.first] ++ PatchExample.second :: []) false
                  PatchExample.st))
    = nodes PatchExample.st)
/\ nodes (snd (applyFileEdits Posix.quiet "/allowed/f.txt"
                 [PatchExample.first] true PatchExample.st))
   = nodes PatchExample.st.
Proof.
destruct (applyFileEdits_writes_nothing_on_failure_or_dry_run
            Posix.quiet PatchExample.st "/allowed/f.txt") as [Hfail Hdry].
split.
- destruct (Hfail PatchExample.original ("ALPHA" +:+ nl +:+ "  beta" +:+ nl)
              [PatchExample.first] [] PatchExample.second false)
    as (Hthrow & _ & _ & Hnodes).
  + vm_compute. reflexivity.
  + vm_compute. reflexivity.
  + vm_compute. reflexivity.
  + apply findWindow_none_iff. vm_compute. reflexivity.
  + split; [exact Hthrow | exact Hnodes].
- destruct (Hdry [PatchExample.first]) as (_ & Hnodes & _). exact Hnodes.
Defined.

(** ** The chunked readers *)

Section Readers.

Variable E : Env.

Hypothesis no_fault : forall n c, fault E n c = None.

Lemma follow_file (fuel : nat) (m : gmap string Node) (p c : string) :
m !! p = Some (File c) -> follow fuel m p = Some p.
Proof. intros H. destruct fuel; unfold follow; now rewrite H. Qed.

Lemma fs_stat_file (p c : string) (st : State) :
nodes st !! p = Some (File c) ->
fs_stat E p st
= (Return {| size := String.length c; isFile := true; isDirectory := false |},
   log (CStat p) st).
Proof.
intros H. unfold fs_stat, syscall. rewrite no_fault. cbn.
rewrite (follow_file _ _ _ _ H), H. reflexivity.
Qed.

Lemma fs_open_file (p c : string) (st : State) :
nodes st !! p = Some (File c) ->
fs_open E p st = (Return {| h_path := p |}, log (COpen p) st).
Proof.
intros H. unfold fs_open, syscall. rewrite no_fault. cbn.
rewrite (follow_file _ _ _ _ H), H. reflexivity.
Qed.

Lemma handle_read_file (p c : string) (sz position : nat) (st : State) :
nodes st !! p = Some (File c) ->
handle_read E {| h_path := p |} sz position st
= (Return (Js.slice c position (position + sz)), log (CRead p sz position) st).
Proof.
intros H. unfold handle_read, syscall. rewrite no_fault. cbn.
rewrite H. reflexivity.
Qed.

Lemma handle_close_ok (h : FileHandle) (st : State) :
handle_close E h st = (Return tt, log (CClose (h_path h)) st).
Proof. unfold handle_close, syscall. now rewrite no_fault. Qed.

(** One turn of each loop. *)
Lemma tailLoop_eq (fuel : nat) (h : FileHandle) (numLines : Z) (position : nat)
  (lines : list string) (linesFound : nat) (remainingText : string) :
tailLoop E (S fuel) h numLines position lines linesFound remainingText
= if (0 <? position) && (Z.of_nat linesFound <? numLines)%Z then
    bytes <- handle_read E h (Nat.min CHUNK_SIZE position)
               (position - Nat.min CHUNK_SIZE position) ;;
    if String.length bytes =? 0 then ret lines
    else
      let position' := position - Nat.min CHUNK_SIZE position in
      let readData := Js.toString_utf8 bytes in
      let chunkLines := Js.split Js.LF (normalizeLineEndings (readData +:+ remainingText)) in
      let found :=
        unshiftLines (rev (if 0 <? position' then tl chunkLines else chunkLines))
          lines linesFound numLines in
      tailLoop E fuel h numLines position' (fst found) (snd found)
        (if 0 <? position' then hd EmptyString chunkLines else remainingText)
  else ret lines.
Proof. reflexivity. Qed.

Lemma headLoop_eq (fuel : nat) (h : FileHandle) (numLines : Z)
  (lines : list string) (buffer : string) (bytesRead : nat) :
headLoop E (S fuel) h numLines lines buffer bytesRead
= if (Z.of_nat (length lines) <? numLines)%Z then
    bytes <- handle_read E h 1024 bytesRead ;;
    if String.length bytes =? 0 then ret (lines, buffer)
    else
      let readData := Js.toString_utf8 bytes in
      match Js.lastIndexOf Js.LF (buffer +:+ readData) with
      | Some newLineIndex =>
          headLoop E fuel h numLines
            (pushLines (Js.split Js.LF (Js.slice (buffer +:+ readData) 0 newLineIndex))
               lines numLines)
            (Js.drop (S newLineIndex) (buffer +:+ readData))
            (bytesRead + String.length bytes)
      | None =>
          headLoop E fuel h numLines lines (buffer +:+ readData)
            (bytesRead + String.length bytes)
      end
  else ret (lines, buffer).
Proof. reflexivity. Qed.

Lemma tail_five_lines (st : State) (p : string) :
nodes st !! p = Some (File fiveLines) ->
fst (tailFile E p 3 st) = Return (Js.join nl ["c"; "d"; "e"]).
Proof.
intros H. unfold tailFile.
rewrite (bind_return _ _ _ _ _ (fs_stat_file _ _ _ H)).
cbn [size]. change (String.length fiveLines =? 0) with false. cbv iota.
rewrite (bind_return _ _ _ _ _ (fs_open_file p fiveLines (log (CStat p) st) H)).
erewrite try_finally_return; [reflexivity | | apply handle_close_ok].
change (String.length fiveLines) with 9.
rewrite tailLoop_eq.
change ((0 <? 9) && (Z.of_nat 0 <? 3)%Z) with true. cbv iota.
rewrite (bind_return _ _ _ _ _
           (bind_return _ _ _ _ _
              (handle_read_file p fiveLines _ _ (log (COpen p) (log (CStat p) st)) H))).
vm_compute. reflexivity.
Qed.

Lemma head_five_lines (st : State) (p : string) :
nodes st !! p = Some (File fiveLines) ->
fst (headFile E p 2 st) = Return (Js.join nl ["a"; "b"]).
Proof.
intros H. unfold headFile.
rewrite (bind_return _ _ _ _ _ (fs_open_file p fiveLines st H)).
erewrite try_finally_return; [reflexivity | | apply handle_close_ok].
unfold get at 1. unfold bind at 1.
change (bytesBehind {| h_path := p |} (log (COpen p) st))
  with (match nodes st !! p with Some (File c) => String.length c | _ => 0 end).
rewrite H. change (String.length fiveLines) with 9.
rewrite headLoop_eq.
change (Z.of_nat (length (@nil string)) <? 2)%Z with true. cbv iota.
rewrite (bind_return _ _ _ _ _
           (bind_return _ _ _ _ _
              (handle_read_file p fiveLines _ _ (log (COpen p) st) H))).
vm_compute. reflexivity.
Qed.

End Readers.

(** C9. On a file holding the lines a, b, c, d, e joined by newlines,
    read without failures of the environment, [tailFile] with 3 returns
    "c\nd\ne" and [headFile] with 2 returns "a\nb"; and when [stat]
    reports size zero [tailFile] returns the empty string having made
    that one call only: the file is never opened. *)
Theorem tail_and_head_examples (E : Env) (st : State) (p : string) :
((forall n c, fault E n c = None) ->
 nodes st !! p = Some (File fiveLines) ->
 fst (tailFile E p 3 st) = Return (Js.join nl ["c"; "d"; "e"])
 /\ fst (headFile E p 2 st) = Return (Js.join nl ["a"; "b"]))
/\ (forall (numLines : Z) (stats : Stats),
      fst (fs_stat E p st) = Return stats ->
      size stats = 0 ->
      fst (tailFile E p numLines st) = Return EmptyString
      /\ trace (snd (tailFile E p numLines st)) = trace st ++ [CStat p]).
Proof.
split.
- intros Hno H. split; [now apply tail_five_lines | now apply head_five_lines].
- intros numLines stats Hstat Hsize. unfold tailFile, bind.
  assert (Hlog : trace (snd (fs_stat E p st)) = trace st ++ [CStat p]).
  { unfold fs_stat, syscall.
    destruct (fault E (length (trace st)) (CStat p)); [reflexivity|]. cbn.
    destruct (follow 40 (nodes st) p) as [t|]; [|reflexivity].
    destruct (nodes st !! t) as [[c | t' |]|]; reflexivity. }
  destruct (fs_stat E p st) as [o st1]. cbn in Hstat, Hlog. subst o.
  rewrite Hsize. cbn. split; [reflexivity | exact Hlog].
Qed.

Lemma tail_and_head_examples_witness :
(fst (tailFile Posix.quiet "/allowed/five.txt" 3 ReaderExample.st)
 = Return (Js.join nl ["c"; "d"; "e"])
 /\ fst (headFile Posix.quiet "/allowed/five.txt" 2 ReaderExample.st)
    = Return (Js.join nl ["a"; "b"]))
/\ fst (tailFile Posix.quiet "/allowed/empty.txt" 5 ReaderExample.st)
   = Return EmptyString
/\ trace (snd (tailFile Posix.quiet "/allowed/empty.txt" 5 ReaderExample.st))
   = [CStat "/allowed/empty.txt"].
Proof.
split.
- apply (tail_and_head_examples Posix.quiet ReaderExample.st "/allowed/five.txt").
  + intros n c. reflexivity.
  + vm_compute. reflexivity.
- apply (proj2 (tail_and_head_examples Posix.quiet ReaderExample.st
                  "/allowed/empty.txt") 5%Z
           {| size := 0; isFile := true; isDirectory := false |}).
  + vm_compute. reflexivity.
  + reflexivity.
Defined.

(** ** Searching for files *)

Section SearchFiles.

Variable E : Env.

Lemma validatePath_calls (p : string) (st : State) :
exists calls,
  trace (snd (validatePath E p st)) = trace st ++ calls
  /\ Forall (fun c => isReaddir c = false) calls
  /\ fst (validatePath E p st) <> Diverge.
Proof.
unfold validatePath, bind, get, try_catch, fs_realpath, throw, ret; cbn beta iota.
destruct (isPathWithinAllowedDirectories E _ (allowed st)); cbn.
2:{ exists []. rewrite app_nil_r. repeat split; [constructor | discriminate]. }
destruct (realpath E (absolutePath E p)) as [e | real]; cbn.
- destruct (codeIs e "ENOENT"); cbn.
  + destruct (realpath E (path_dirname E (absolutePath E p))) as [e' | parent]; cbn.
    * eexists. rewrite <- app_assoc. repeat split; [|discriminate].
      repeat constructor.
    * destruct (isPathWithinAllowedDirectories E _ _); cbn;
        (eexists; rewrite <- app_assoc; repeat split; [|discriminate]);
        repeat constructor.
  + eexists. repeat split; [|discriminate]. repeat constructor.
- destruct (isPathWithinAllowedDirectories E _ _); cbn;
    (eexists; repeat split; [|discriminate]); repeat constructor.
Qed.

Lemma passes_calls (p : string) (st : State) :
exists valid st' calls,
  passes E p st = (Return valid, st')
  /\ trace st' = trace st ++ calls
  /\ Forall (fun c => isReaddir c = false) calls.
Proof.
unfold passes, try_catch, bind, ret.
destruct (validatePath_calls p st) as (calls & Htrace & Hcalls & Htotal).
destruct (validatePath E p st) as [[real | e |] st1]; cbn in *; [| |congruence].
- exists true, st1, calls. auto.
- exists false, st1, calls. auto.
Qed.

Lemma keepIndexed_calls (rootPath : string) (excludePatterns allPaths results : list string)
  (st : State) :
exists calls,
  trace (snd (keepIndexed E rootPath excludePatterns allPaths results st))
  = trace st ++ calls
  /\ Forall (fun c => isReaddir c = false) calls
  /\ exists kept, fst (keepIndexed E rootPath excludePatterns allPaths results st)
                  = Return kept.
Proof.
revert results st. induction allPaths as [|filePath rest IH]; intros results st.
- exists []. cbn. rewrite app_nil_r. repeat split; [constructor | eauto].
- cbn [keepIndexed].
  destruct (negb _ && negb _); [apply IH|].
  destruct (passes_calls filePath st) as (valid & st1 & calls & Hpass & Htrace & Hcalls).
  rewrite (bind_return _ _ _ _ _ Hpass).
  assert (Hnext : forall results',
            exists calls0,
              trace (snd (keepIndexed E rootPath excludePatterns rest results' st1))
              = trace st ++ calls0
              /\ Forall (fun c => isReaddir c = false) calls0
              /\ exists kept,
                   fst (keepIndexed E rootPath excludePatterns rest results' st1)
                   = Return kept).
  { intros results'.
    destruct (IH results' st1) as (calls' & Htrace' & Hcalls' & Hret).
    exists (calls ++ calls'). rewrite Htrace', Htrace, app_assoc.
    split; [reflexivity|]. split; [now apply Forall_app | exact Hret]. }
  destruct valid; [|apply Hnext].
  destruct (shouldExclude E _ excludePatterns); apply Hnext.
Qed.

Lemma isPlocateAvailable_true (st st1 : State) :
isPlocateAvailable E st = (Return true, st1) ->
st1 = log (CExec "plocate" ["--version"]) (log (CAccess (plocateDb E)) st).
Proof.
unfold isPlocateAvailable, try_catch, bind, fs_access, syscall, execFileAsync, ret.
destruct (fault E (length (trace st)) (CAccess (plocateDb E))); [discriminate|].
cbn. destruct (follow 40 (nodes st) (plocateDb E)) as [t|]; [|discriminate].
destruct (nodes st !! t); [|discriminate].
destruct (execFile E "plocate" ["--version"]); [discriminate|].
now intros [= <-].
Qed.

(** C7. When the index is available and the pattern translates for it
    (as "**/*.js" does, to "*.js"): if [plocate] exits with status 1 the
    search returns the empty list and the calls made are the two
    availability probes and the query, no [readdir]; if it fails in any
    other way the search is the in-process walk from the root; and if it
    succeeds the answer is filtered without any [readdir]. *)
Theorem searchFiles_index_exit_status (fuel : nat) (st st1 : State)
  (rootPath pattern plocatePattern : string) (allowedDirs excludePatterns : list string) :
isPlocateAvailable E st = (Return true, st1) ->
preparePatternForPlocate pattern = Some plocatePattern ->
let query := CExec "plocate" (plocateArgs E plocatePattern) in
let result :=
  searchFilesWithValidation E fuel rootPath pattern allowedDirs excludePatterns st in
preparePatternForPlocate "**/*.js" = Some "*.js"
/\ (forall e, execFile E "plocate" (plocateArgs E plocatePattern) = inl e ->
      codeIsNum e 1 = true ->
      fst result = Return []
      /\ trace (snd result)
         = trace st ++ [CAccess (plocateDb E); CExec "plocate" ["--version"]; query]
      /\ existsb isReaddir [CAccess (plocateDb E); CExec "plocate" ["--version"]; query]
         = false)
/\ (forall e, execFile E "plocate" (plocateArgs E plocatePattern) = inl e ->
      codeIsNum e 1 = false ->
      result = search E fuel rootPath pattern excludePatterns rootPath [] (log query st1))
/\ (forall out, execFile E "plocate" (plocateArgs E plocatePattern) = inr out ->
      exists kept calls,
        fst result = Return kept
        /\ trace (snd result) = trace (log query st1) ++ calls
        /\ Forall (fun c => isReaddir c = false) calls).
Proof.
intros Havail Hpattern query result.
pose proof (isPlocateAvailable_true _ _ Havail) as Hst1.
assert (Hquery : forall k : option (list string) -> M (list string),
          (answer <- queryIndex E rootPath pattern excludePatterns ;; k answer) st
          = (answer <-
               try_catch
                 (out <- execFileAsync E "plocate" (plocateArgs E plocatePattern) ;;
                  results <- keepIndexed E rootPath excludePatterns (parsePaths (fst out)) [] ;;
                  ret (Some results))
                 (fun error => if codeIsNum error 1 then ret (Some []) else ret None) ;;
             k answer) st1).
{ intros k. unfold queryIndex. unfold bind at 1 2. rewrite Havail. cbn iota.
  rewrite Hpattern. reflexivity. }
assert (Hrun : forall (answer : option (list string)) (st2 : State),
          try_catch
            (out <- execFileAsync E "plocate" (plocateArgs E plocatePattern) ;;
             results <- keepIndexed E rootPath excludePatterns (parsePaths (fst out)) [] ;;
             ret (Some results))
            (fun error => if codeIsNum error 1 then ret (Some []) else ret None) st1
          = (Return answer, st2) ->
          result
          = match answer with
            | Some results => (Return results, st2)
            | None => search E fuel rootPath pattern excludePatterns rootPath [] st2
            end).
{ intros answer st2 Htier. subst result. unfold searchFilesWithValidation.
  rewrite Hquery, (bind_return _ _ _ _ _ Htier). now destruct answer. }
assert (Hfail : forall e,
          execFile E "plocate" (plocateArgs E plocatePattern) = inl e ->
          (out <- execFileAsync E "plocate" (plocateArgs E plocatePattern) ;;
           results <- keepIndexed E rootPath excludePatterns (parsePaths (fst out)) [] ;;
           ret (Some results)) st1
          = (Throw e, log query st1)).
{ intros e Hexec. apply bind_throw. unfold execFileAsync. now rewrite Hexec. }
split; [vm_compute; reflexivity|].
split; [|split].
- intros e Hexec Hcode.
  rewrite (Hrun (Some []) (log query st1)).
  + rewrite Hst1. cbn. rewrite <- !app_assoc. repeat split.
  + rewrite (try_catch_throw _ _ _ _ _ (Hfail e Hexec)), Hcode. reflexivity.
- intros e Hexec Hcode.
  rewrite (Hrun None (log query st1)); [reflexivity|].
  rewrite (try_catch_throw _ _ _ _ _ (Hfail e Hexec)), Hcode. reflexivity.
- intros out Hexec.
  destruct (keepIndexed_calls rootPath excludePatterns (parsePaths (fst out)) []
              (log query st1)) as (calls & Htrace & Hcalls & kept & Hret).
  apply outcome_pair in Hret.
  rewrite (Hrun (Some kept)
             (snd (keepIndexed E rootPath excludePatterns (parsePaths (fst out)) []
                     (log query st1)))).
  + exists kept, calls. split; [reflexivity|]. split; [exact Htrace | exact Hcalls].
  + apply try_catch_return.
    assert (Hexec' : execFileAsync E "plocate" (plocateArgs E plocatePattern) st1
                     = (Return out, log query st1)).
    { unfold execFileAsync. now rewrite Hexec. }
    rewrite (bind_return _ _ _ _ _ Hexec'), (bind_return _ _ _ _ _ Hret). reflexivity.
Qed.

End SearchFiles.

Lemma searchFiles_index_exit_status_witness :
(fst (searchFilesWithValidation (SearchExample.env 1) 8 "/allowed/dir" "**/*.js"
        ["/allowed"] [] SearchExample.st)
 = Return []
 /\ trace (snd (searchFilesWithValidation (SearchExample.env 1) 8 "/allowed/dir" "**/*.js"
                  ["/allowed"] [] SearchExample.st))
    = [CAccess SearchExample.db; CExec "plocate" ["--version"];
       CExec "plocate" ["--database"; SearchExample.db; "--limit"; "10000"; "*.js"]])
/\ fst (searchFilesWithValidation (SearchExample.env 2) 8 "/allowed/dir" "**/*.js"
          ["/allowed"] [] SearchExample.st)
   = Return ["/allowed/dir/a.js"].
Proof.
split.
- destruct (searchFiles_index_exit_status (SearchExample.env 1) 8
              SearchExample.st SearchExample.probed
              "/allowed/dir" "**/*.js" "*.js" ["/allowed"] [])
    as (_ & Hone & _ & _).
  + vm_compute. reflexivity.
  + vm_compute. reflexivity.
  + destruct (Hone {| message := "Command failed: plocate"; code := Some (CodeNum 1) |})
      as (Hret & Htrace & _).
    * vm_compute. reflexivity.
    * reflexivity.
    * split; [exact Hret | exact Htrace].
- destruct (searchFiles_index_exit_status (SearchExample.env 2) 8
              SearchExample.st SearchExample.probed
              "/allowed/dir" "**/*.js" "*.js" ["/allowed"] [])
    as (_ & _ & Hother & _).
  + vm_compute. reflexivity.
  + vm_compute. reflexivity.
  + rewrite (Hother {| message := "Command failed: plocate"; code := Some (CodeNum 2) |}).
    * vm_compute. reflexivity.
    * vm_compute. reflexivity.
    * reflexivity.
Defined.

(** ** Searching file contents *)

Lemma countMatches_cons {A} (f : string) (ms : list A) (rest : list (string * list A)) :
countMatches ((f, ms) :: rest) = length ms + countMatches rest.
Proof. reflexivity. Qed.

Lemma countMatches_app {A} (xs ys : list (string * list A)) :
countMatches (xs ++ ys) = countMatches xs + countMatches ys.
Proof. unfold countMatches. now rewrite map_app, list_sum_app. Qed.

Section InProcess.

Variable E : Env.
Variable o : GrepOptions.
Variable matchesPattern : string -> bool.
Variable validatedSearchPath : string.

Local Abbreviation inFile cap :=
  (searchInFile E (withCap o cap) matchesPattern validatedSearchPath).
Local Abbreviation visit recur cap :=
  (visitEntry E recur (withCap o cap) matchesPattern validatedSearchPath).
Local Abbreviation entriesOf recur cap :=
  (searchEntries E recur (withCap o cap) matchesPattern validatedSearchPath).

(** [searchInFile] always returns: unchanged accumulators, or the
    accumulators after scanning the file's text. *)
Lemma searchInFile_shape (cap : Z) (filePath : string) (acc : GrepState) (st : State) :
exists st',
  inFile cap filePath acc st
  = (Return acc, st')
  \/ exists text,
       (total acc < cap)%Z
       /\ inFile cap filePath acc st
          = (Return (scanFile (withCap o cap) matchesPattern filePath text acc), st').
Proof.
unfold searchInFile, total. cbn [maxResults withCap excludePatterns].
destruct (cap <=? Z.of_nat (snd acc))%Z eqn:Hcap; [eexists; left; reflexivity|].
apply Z.leb_gt in Hcap.
unfold try_catch, bind, ret.
destruct (validatePath_calls E filePath st) as (_ & _ & _ & Htotal).
destruct (validatePath E filePath st) as [[real | e |] st1]; cbn in *;
  [| eexists; left; reflexivity | congruence].
destruct (shouldExclude E _ _); [eexists; left; reflexivity|].
destruct (fs_readFile_reads_only E filePath st1) as (_ & _ & Htotal').
destruct (fs_readFile E filePath st1) as [[text | e |] st2]; cbn in *;
  [| eexists; left; reflexivity | congruence].
eexists. right. exists text. split; [exact Hcap | reflexivity].
Qed.

Lemma searchInFile_no_throw (cap : Z) (filePath : string) (acc : GrepState)
  (st st' : State) (e : JsError) :
inFile cap filePath acc st
<> (Throw e, st').
Proof.
destruct (searchInFile_shape cap filePath acc st) as (st1 & [-> | (text & _ & ->)]);
  discriminate.
Qed.

Lemma searchEntries_cons (recur : string -> GrepState -> M GrepState) (cap : Z)
  (dirPath : string) (entry : Dirent) (rest : list Dirent) (acc : GrepState) :
entriesOf recur cap dirPath (entry :: rest) acc
= if (cap <=? total acc)%Z then ret acc
  else
    acc' <- visit recur cap dirPath entry acc ;;
    entriesOf recur cap dirPath rest acc'.
Proof. reflexivity. Qed.

Lemma visitEntry_no_throw (recur : string -> GrepState -> M GrepState) (cap : Z)
  (dirPath : string) (entry : Dirent) (acc : GrepState) (st st' : State) (e : JsError) :
visit recur cap dirPath entry acc st <> (Throw e, st').
Proof.
unfold visitEntry, try_catch, ret.
destruct (_ st) as [[acc' | e' |] st1]; discriminate.
Qed.

Lemma searchEntries_no_throw (recur : string -> GrepState -> M GrepState) (cap : Z)
  (dirPath : string) (entries : list Dirent) (acc : GrepState) (st st' : State)
  (e : JsError) :
entriesOf recur cap dirPath entries acc st
<> (Throw e, st').
Proof.
revert acc st. induction entries as [|entry rest IH]; intros acc st; [discriminate|].
rewrite searchEntries_cons. destruct (cap <=? total acc)%Z; [discriminate|].
unfold bind.
pose proof (visitEntry_no_throw recur cap dirPath entry acc st) as Hvisit.
destruct (visit recur cap dirPath entry acc st) as [[acc1 | e1 |] st1];
  [apply IH | intros [= -> ->]; now apply (Hvisit st' e) | discriminate].
Qed.

End InProcess.

Lemma capAcrossFiles_zero {A} (found : list (string * list A)) :
capAcrossFiles 0 found = [].
Proof. induction found as [|[f ms] rest IH]; [reflexivity | exact IH]. Qed.

Lemma capAcrossFiles_app {A} (cap : nat) (xs ys : list (string * list A)) :
capAcrossFiles cap (xs ++ ys)
= capAcrossFiles cap xs ++ capAcrossFiles (cap - countMatches xs) ys.
Proof.
revert cap. induction xs as [|[f ms] rest IH]; intros cap.
- cbn. now rewrite Nat.sub_0_r.
- cbn [app capAcrossFiles]. rewrite countMatches_cons.
  destruct (take cap ms) as [|m kept] eqn:Htake.
  + rewrite IH. f_equal.
    assert (Hnone : cap = 0 \/ ms = []).
    { destruct cap; [now left|]. destruct ms; [now right | discriminate]. }
    destruct Hnone as [-> | ->]; [reflexivity|]. cbn. reflexivity.
  + cbn [app]. rewrite IH.
    replace (cap - (length ms + countMatches rest)) with (cap - length ms - countMatches rest)
      by lia.
    reflexivity.
Qed.

Lemma countMatches_capAcrossFiles {A} (cap : nat) (found : list (string * list A)) :
countMatches (capAcrossFiles cap found) = Nat.min cap (countMatches found).
Proof.
revert cap. induction found as [|[f ms] rest IH]; intros cap.
- cbn. lia.
- cbn [capAcrossFiles]. rewrite countMatches_cons.
  pose proof (length_take ms cap) as Hlen.
  destruct (take cap ms) as [|m kept] eqn:Htake.
  + rewrite IH. cbn in Hlen. lia.
  + rewrite countMatches_cons, IH. lia.
Qed.

Lemma capAcrossFiles_prefixes {A} (cap : nat) (found : list (string * list A))
  (f : string) (ms : list A) :
In (f, ms) (capAcrossFiles cap found) ->
exists all, In (f, all) found /\ ms `prefix_of` all.
Proof.
revert cap. induction found as [|[g all] rest IH]; intros cap Hin; [destruct Hin|].
cbn [capAcrossFiles] in Hin.
destruct (take cap all) as [|m kept] eqn:Htake.
- destruct (IH _ Hin) as (all' & Hall & Hpre). exists all'. split; [now right | exact Hpre].
- destruct Hin as [[= <- <-] | Hin].
  + exists all. split; [now left|]. rewrite <- Htake. apply prefix_take.
  + destruct (IH _ Hin) as (all' & Hall & Hpre). exists all'. split; [now right | exact Hpre].
Qed.

(** The loop of [searchFileContents] over the matches [rg] printed is
    the cap across the files. *)
Lemma capMatches_capAcrossFiles (maxResults : Z)
  (fileResults : list (string * list (Z * string))) (totalMatches : nat) :
capMatches maxResults fileResults totalMatches
= capAcrossFiles (Z.to_nat maxResults - totalMatches) fileResults.
Proof.
revert totalMatches. induction fileResults as [|[f ms] rest IH]; intros t; [reflexivity|].
cbn [capMatches capAcrossFiles].
destruct (maxResults <=? Z.of_nat t)%Z eqn:Hcap.
- apply Z.leb_le in Hcap. replace (Z.to_nat maxResults - t) with 0 by lia.
  cbn [take]. symmetry. apply capAcrossFiles_zero.
- apply Z.leb_gt in Hcap.
  replace (Z.to_nat (maxResults - Z.of_nat t)) with (Z.to_nat maxResults - t) by lia.
  pose proof (length_take ms (Z.to_nat maxResults - t)) as Hlen.
  destruct (take (Z.to_nat maxResults - t) ms) as [|m kept] eqn:Htake.
  + cbn [length Nat.ltb Nat.leb]. rewrite IH. f_equal. lia.
  + cbn [length Nat.ltb Nat.leb]. rewrite IH. do 2 f_equal. cbn [length] in *. lia.
Qed.

Lemma pushReport_app (results : list (string * list GrepMatch)) (filePath : string)
  (fileMatches : list GrepMatch) :
pushReport results filePath fileMatches
= results ++ match fileMatches with [] => [] | _ => [(filePath, fileMatches)] end.
Proof. destruct fileMatches; [now rewrite app_nil_r | reflexivity]. Qed.

Lemma countMatches_pushReport (results : list (string * list GrepMatch))
  (filePath : string) (fileMatches : list GrepMatch) :
countMatches (pushReport results filePath fileMatches)
= countMatches results + length fileMatches.
Proof.
rewrite pushReport_app, countMatches_app. destruct fileMatches; cbn; lia.
Qed.

(** The scan of a file stops at the cap: it adds the first matches of
    the file that the cap still allows. *)
Lemma scanLines_matchingLines (o : GrepOptions) (matchesPattern : string -> bool)
  (filePath : string) (lines rest : list string) (i : nat)
  (fileMatches : list GrepMatch) (totalMatches : nat) :
let kept :=
  take (Z.to_nat (maxResults o) - totalMatches)
    (matchingLines o matchesPattern filePath lines rest i) in
scanLines o matchesPattern filePath lines rest i fileMatches totalMatches
= (fileMatches ++ kept, totalMatches + length kept).
Proof.
revert i fileMatches totalMatches.
induction rest as [|line rest IH]; intros i fm t; cbn [scanLines matchingLines].
- cbn. rewrite take_nil, app_nil_r. cbn. f_equal. lia.
- destruct (Z.of_nat t <? maxResults o)%Z eqn:Hlt.
  + apply Z.ltb_lt in Hlt.
    destruct (matchesPattern line).
    * destruct (maxResults o <=? Z.of_nat (S t))%Z eqn:Hbreak.
      -- apply Z.leb_le in Hbreak.
         replace (Z.to_nat (maxResults o) - t) with 1 by lia.
         rewrite firstn_cons, take_0. cbn [length]. f_equal. lia.
      -- apply Z.leb_gt in Hbreak. rewrite IH. cbv zeta.
         replace (Z.to_nat (maxResults o) - t) with (S (Z.to_nat (maxResults o) - S t))
           by lia.
         rewrite firstn_cons. cbn [length]. rewrite <- app_assoc. cbn [app]. f_equal. lia.
    * apply IH.
  + apply Z.ltb_ge in Hlt.
    replace (Z.to_nat (maxResults o) - t) with 0 by lia.
    rewrite take_0, app_nil_r. cbn [length]. f_equal. lia.
Qed.

Lemma scanFile_tracks (o : GrepOptions) (matchesPattern : string -> bool)
  (filePath text : string) (acc : GrepState) (found : list (string * list GrepMatch)) :
Tracks (Z.to_nat (maxResults o)) acc found ->
Tracks (Z.to_nat (maxResults o)) (scanFile o matchesPattern filePath text acc)
  (everyMatchInText o matchesPattern filePath text found).
Proof.
intros [Hfst Hsnd]. unfold scanFile, everyMatchInText. cbv zeta.
rewrite scanLines_matchingLines. cbv zeta. cbn [fst snd app].
set (all := matchingLines o matchesPattern filePath _ _ 0).
set (cap := Z.to_nat (maxResults o)) in *.
split; cbn [fst snd].
- rewrite !pushReport_app, capAcrossFiles_app, Hfst, Hsnd. f_equal.
  replace (cap - Nat.min cap (countMatches found)) with (cap - countMatches found) by lia.
  destruct all as [|m all]; [now rewrite take_nil|].
  cbn [capAcrossFiles]. destruct (take (cap - countMatches found) (m :: all)); reflexivity.
- rewrite countMatches_pushReport, Hsnd, length_take. lia.
Qed.

Lemma tracks_extended (cap : nat) (acc : GrepState)
  (found found' : list (string * list GrepMatch)) :
Tracks cap acc found -> cap <= countMatches found -> found `prefix_of` found' ->
Tracks cap acc found' /\ cap <= countMatches found'.
Proof.
intros [Hfst Hsnd] Hfull [more ->]. rewrite countMatches_app. split; [|lia].
split.
- rewrite capAcrossFiles_app. replace (cap - countMatches found) with 0 by lia.
  now rewrite capAcrossFiles_zero, app_nil_r.
- rewrite countMatches_app. lia.
Qed.

Section CapAcross.

Variable E : Env.
Variable o : GrepOptions.
Variable matchesPattern : string -> bool.
Variable validatedSearchPath : string.

Local Abbreviation cap := (Z.to_nat (maxResults o)).

Lemma cap_reached (acc : GrepState) :
cap <= snd acc -> (maxResults o <=? Z.of_nat (snd acc))%Z = true.
Proof. intros H. apply Z.leb_le. lia. Qed.

Lemma cap_not_reached (acc : GrepState) :
snd acc < cap -> (maxResults o <=? Z.of_nat (snd acc))%Z = false.
Proof. intros H. apply Z.leb_gt. lia. Qed.

Lemma everyMatchInText_extends (filePath text : string)
  (found : list (string * list GrepMatch)) :
found `prefix_of` everyMatchInText o matchesPattern filePath text found.
Proof. unfold everyMatchInText. cbv zeta. rewrite pushReport_app. now eexists. Qed.

Lemma everyMatchInFile_outcome (filePath : string) (found : list (string * list GrepMatch))
  (st : State) :
exists found' st',
  everyMatchInFile E o matchesPattern validatedSearchPath filePath found st
  = (Return found', st')
  /\ found `prefix_of` found'.
Proof.
unfold everyMatchInFile, try_catch, bind, ret.
destruct (validatePath_calls E filePath st) as (_ & _ & _ & Htotal).
destruct (validatePath E filePath st) as [[real | e |] st1]; cbn in *;
  [| eexists; eexists; split; [reflexivity | reflexivity] | congruence].
destruct (shouldExclude E _ _); [eexists; eexists; split; reflexivity|].
destruct (fs_readFile_reads_only E filePath st1) as (_ & _ & Htotal').
destruct (fs_readFile E filePath st1) as [[text | e |] st2]; cbn in *;
  [| eexists; eexists; split; reflexivity | congruence].
eexists. eexists. split; [reflexivity | apply everyMatchInText_extends].
Qed.

Lemma everyMatchInFile_extends (filePath : string) :
Extends (everyMatchInFile E o matchesPattern validatedSearchPath filePath).
Proof.
intros found st found' st' Hrun.
destruct (everyMatchInFile_outcome filePath found st) as (f1 & s1 & Heq & Hpre).
rewrite Heq in Hrun. now injection Hrun as <- _.
Qed.

Lemma everyMatchOfEntry_extends
  (recur : string -> list (string * list GrepMatch) -> M (list (string * list GrepMatch)))
  (dirPath : string) (entry : Dirent) :
(forall p, Extends (recur p)) ->
Extends (everyMatchOfEntry E recur o matchesPattern validatedSearchPath dirPath entry).
Proof.
intros Hrecur found st found' st'. unfold everyMatchOfEntry, try_catch, ret.
destruct (d_isFile entry).
- destruct (_ || _).
  + destruct (everyMatchInFile E _ _ _ _ _ _) as [[f1 | e |] s1] eqn:Hfile;
      intros [= <- <-]; [|reflexivity].
    now apply everyMatchInFile_extends in Hfile.
  + now intros [= <- <-].
- destruct (_ && _).
  + destruct (recur _ _ _) as [[f1 | e |] s1] eqn:Hdir; intros [= <- <-]; [|reflexivity].
    now apply Hrecur in Hdir.
  + now intros [= <- <-].
Qed.

Lemma everyMatchOfEntry_no_throw
  (recur : string -> list (string * list GrepMatch) -> M (list (string * list GrepMatch)))
  (dirPath : string) (entry : Dirent) (found : list (string * list GrepMatch))
  (st st' : State) (e : JsError) :
everyMatchOfEntry E recur o matchesPattern validatedSearchPath dirPath entry found st
<> (Throw e, st').
Proof.
unfold everyMatchOfEntry, try_catch, ret.
destruct (_ st) as [[f1 | e' |] s1]; discriminate.
Qed.

Lemma everyMatchOfEntries_no_throw
  (recur : string -> list (string * list GrepMatch) -> M (list (string * list GrepMatch)))
  (dirPath : string) (entries : list Dirent) (found : list (string * list GrepMatch))
  (st st' : State) (e : JsError) :
everyMatchOfEntries E recur o matchesPattern validatedSearchPath dirPath entries found st
<> (Throw e, st').
Proof.
revert found st. induction entries as [|entry rest IH]; intros found st; [discriminate|].
cbn [everyMatchOfEntries]. unfold bind.
pose proof (everyMatchOfEntry_no_throw recur dirPath entry found st) as Hentry.
destruct (everyMatchOfEntry E recur o matchesPattern validatedSearchPath dirPath entry
            found st) as [[f1 | e1 |] s1];
  [apply IH | intros [= -> ->]; now apply (Hentry st' e) | discriminate].
Qed.

Lemma everyMatchOfEntries_extends
  (recur : string -> list (string * list GrepMatch) -> M (list (string * list GrepMatch)))
  (dirPath : string) (entries : list Dirent) :
(forall p, Extends (recur p)) ->
Extends (everyMatchOfEntries E recur o matchesPattern validatedSearchPath dirPath entries).
Proof.
intros Hrecur. induction entries as [|entry rest IH]; intros found st found' st'.
- now intros [= <- <-].
- cbn [everyMatchOfEntries]. unfold bind.
  destruct (everyMatchOfEntry E recur o matchesPattern validatedSearchPath dirPath entry
              found st) as [[f1 | e1 |] s1] eqn:Hentry; [| discriminate | discriminate].
  intros Hrest. apply IH in Hrest.
  apply (everyMatchOfEntry_extends _ _ _ Hrecur) in Hentry.
  now transitivity f1.
Qed.

Lemma everyMatchInDirectory_extends (fuel : nat) (dirPath : string) :
Extends (everyMatchInDirectory E fuel o matchesPattern validatedSearchPath dirPath).
Proof.
revert dirPath. induction fuel as [|fuel IH]; intros dirPath found st found' st';
  [discriminate|].
cbn [everyMatchInDirectory]. unfold try_catch, bind, ret, throw.
destruct (validatePath E dirPath st) as [[real | e |] st1];
  [| destruct (_ || _); [now intros [= <- <-] | discriminate] | discriminate].
destruct (fs_readdir E dirPath st1) as [[entries | e |] st2];
  [| destruct (_ || _); [now intros [= <- <-] | discriminate] | discriminate].
pose proof (everyMatchOfEntries_extends _ dirPath entries IH found st2) as Hentries.
pose proof (everyMatchOfEntries_no_throw
              (everyMatchInDirectory E fuel o matchesPattern validatedSearchPath)
              dirPath entries found st2) as Hno.
destruct (everyMatchOfEntries E _ _ _ _ _ entries found st2) as [[f1 | e |] st3];
  [| now destruct (Hno st3 e) | discriminate].
intros [= <- <-]. now apply (Hentries f1 st3).
Qed.

(** Once the cap is reached the library's search does nothing more. *)
Lemma searchInFile_reached (filePath : string) (acc : GrepState) (st : State) :
cap <= snd acc ->
searchInFile E o matchesPattern validatedSearchPath filePath acc st = (Return acc, st).
Proof. intros H. unfold searchInFile. now rewrite (cap_reached _ H). Qed.

Lemma searchEntries_reached (recur : string -> GrepState -> M GrepState)
  (dirPath : string) (entries : list Dirent) (acc : GrepState) (st : State) :
cap <= snd acc ->
searchEntries E recur o matchesPattern validatedSearchPath dirPath entries acc st
= (Return acc, st).
Proof.
intros H. destruct entries as [|entry rest]; [reflexivity|].
cbn [searchEntries]. now rewrite (cap_reached _ H).
Qed.

Lemma searchDirectory_reached (fuel : nat) (dirPath : string) (acc : GrepState)
  (st : State) :
cap <= snd acc ->
searchDirectory E fuel o matchesPattern validatedSearchPath dirPath acc st
= (Return acc, st).
Proof. intros H. destruct fuel; cbn [searchDirectory]; now rewrite (cap_reached _ H). Qed.

Lemma searchInFile_capSim (filePath : string) :
CapSim cap (searchInFile E o matchesPattern validatedSearchPath filePath)
  (everyMatchInFile E o matchesPattern validatedSearchPath filePath).
Proof.
intros acc found st Htracks Hbelow.
unfold searchInFile, everyMatchInFile.
rewrite cap_not_reached by (destruct Htracks as [_ ->]; lia).
unfold try_catch, bind, ret.
destruct (validatePath E filePath st) as [[real | e |] st1]; cbn;
  [| exists acc, st1; auto | exact I].
destruct (shouldExclude E _ _); [exists acc, st1; auto|].
destruct (fs_readFile E filePath st1) as [[text | e |] st2]; cbn;
  [| exists acc, st2; auto | exact I].
eexists. exists st2. split; [reflexivity|]. split; [|reflexivity].
now apply scanFile_tracks.
Qed.

Lemma visitEntry_capSim (recur : string -> GrepState -> M GrepState)
  (recur' : string -> list (string * list GrepMatch) -> M (list (string * list GrepMatch)))
  (dirPath : string) (entry : Dirent) :
(forall p, CapSim cap (recur p) (recur' p)) ->
CapSim cap (visitEntry E recur o matchesPattern validatedSearchPath dirPath entry)
  (everyMatchOfEntry E recur' o matchesPattern validatedSearchPath dirPath entry).
Proof.
intros Hrecur acc found st Htracks Hbelow.
unfold visitEntry, everyMatchOfEntry.
assert (Hcatch : forall (f : GrepState -> M GrepState)
                        (g : list (string * list GrepMatch)
                             -> M (list (string * list GrepMatch))),
          CapSim cap f g ->
          match try_catch (g found) (fun _ => ret found) st with
          | (Return found', st') =>
              exists acc' st1,
                try_catch (f acc) (fun _ => ret acc) st = (Return acc', st1)
                /\ Tracks cap acc' found'
                /\ (countMatches found' < cap -> st1 = st')
          | (Throw e, st') => try_catch (f acc) (fun _ => ret acc) st = (Throw e, st')
          | (Diverge, _) => True
          end).
{ intros f g Hsim. specialize (Hsim acc found st Htracks Hbelow).
  unfold try_catch, ret.
  destruct (g found st) as [[found' | e |] st'].
  - destruct Hsim as (acc' & st1 & -> & Hacc' & Hst). eauto.
  - rewrite Hsim. eauto.
  - exact I. }
destruct (d_isFile entry).
- destruct (_ || _).
  + apply Hcatch, searchInFile_capSim.
  + apply (Hcatch (fun a => ret a) (fun f => ret f)).
    intros a f s Ha Hb. exists a, s. auto.
- destruct (_ && _).
  + apply Hcatch, Hrecur.
  + apply (Hcatch (fun a => ret a) (fun f => ret f)).
    intros a f s Ha Hb. exists a, s. auto.
Qed.

Lemma searchEntries_capSim (recur : string -> GrepState -> M GrepState)
  (recur' : string -> list (string * list GrepMatch) -> M (list (string * list GrepMatch)))
  (dirPath : string) (entries : list Dirent) :
(forall p, CapSim cap (recur p) (recur' p)) ->
(forall p, Extends (recur' p)) ->
CapSim cap (searchEntries E recur o matchesPattern validatedSearchPath dirPath entries)
  (everyMatchOfEntries E recur' o matchesPattern validatedSearchPath dirPath entries).
Proof.
intros Hrecur Hextends.
induction entries as [|entry rest IH]; intros acc found st Htracks Hbelow.
- exists acc, st. auto.
- cbn [searchEntries everyMatchOfEntries].
  rewrite cap_not_reached by (destruct Htracks as [_ ->]; lia).
  pose proof (visitEntry_capSim recur recur' dirPath entry Hrecur acc found st
                Htracks Hbelow) as Hvisit.
  unfold bind at 1.
  destruct (everyMatchOfEntry E recur' o matchesPattern validatedSearchPath dirPath entry
              found st) as [[found1 | e |] st1'].
  + destruct Hvisit as (acc1 & st1 & Hreal & Htracks1 & Hst).
    rewrite (bind_return _ _ _ _ _ Hreal).
    destruct (Nat.lt_ge_cases (countMatches found1) cap) as [Hbelow1 | Hfull].
    * rewrite (Hst Hbelow1). now apply IH.
    * rewrite searchEntries_reached by (destruct Htracks1 as [_ ->]; lia).
      pose proof (everyMatchOfEntries_no_throw recur' dirPath rest found1 st1') as Hno.
      pose proof (everyMatchOfEntries_extends recur' dirPath rest Hextends found1 st1')
        as Hext.
      destruct (everyMatchOfEntries E recur' o matchesPattern validatedSearchPath dirPath
                  rest found1 st1') as [[found2 | e |] st2'];
        [| now destruct (Hno st2' e) | exact I].
      destruct (tracks_extended _ _ _ _ Htracks1 Hfull (Hext _ _ eq_refl))
        as [Htracks2 Hfull2].
      exists acc1, st1. split; [reflexivity|]. split; [exact Htracks2 | lia].
  + now rewrite (bind_throw _ _ _ _ _ Hvisit).
  + exact I.
Qed.

Lemma searchDirectory_capSim (fuel : nat) (dirPath : string) :
CapSim cap (searchDirectory E fuel o matchesPattern validatedSearchPath dirPath)
  (everyMatchInDirectory E fuel o matchesPattern validatedSearchPath dirPath).
Proof.
revert dirPath. induction fuel as [|fuel IH]; intros dirPath acc found st Htracks Hbelow;
  [exact I|].
cbn [searchDirectory everyMatchInDirectory].
rewrite cap_not_reached by (destruct Htracks as [_ ->]; lia).
unfold try_catch, bind, ret, throw.
destruct (validatePath E dirPath st) as [[real | e |] st1];
  [| destruct (_ || _); [exists acc, st1; auto | reflexivity] | exact I].
destruct (fs_readdir E dirPath st1) as [[entries | e |] st2];
  [| destruct (_ || _); [exists acc, st2; auto | reflexivity] | exact I].
pose proof (searchEntries_capSim _ _ dirPath entries IH
              (fun p => everyMatchInDirectory_extends fuel p) acc found st2
              Htracks Hbelow) as Hentries.
destruct (everyMatchOfEntries E _ _ _ _ _ entries found st2) as [[found' | e |] st'].
- destruct Hentries as (acc' & st3 & -> & Hacc' & Hst). eauto.
- rewrite Hentries. destruct (_ || _); [exists acc, st'; auto | reflexivity].
- exact I.
Qed.

End CapAcross.

Section CapTop.

Variable E : Env.

(** The library's search returns the matches that exist, under the cap
    across the files. *)
Lemma searchFrom_everyMatch (fuel : nat) (o : GrepOptions)
  (matchesPattern : string -> bool) (vsp : string) (stats : Stats) (st st' : State)
  (found : list (string * list GrepMatch)) :
everyMatchFrom E fuel o matchesPattern vsp stats st = (Return found, st') ->
exists acc st1,
  searchFrom E fuel o matchesPattern vsp stats st = (Return acc, st1)
  /\ fst acc = capAcrossFiles (Z.to_nat (maxResults o)) found.
Proof.
intros Hrun.
destruct (Nat.eq_dec (Z.to_nat (maxResults o)) 0) as [Hzero | Hpos].
- rewrite Hzero, capAcrossFiles_zero.
  exists ([], 0), st. split; [|reflexivity].
  revert Hrun. unfold everyMatchFrom, searchFrom.
  destruct (isFile stats).
  + destruct (_ || _); [|reflexivity].
    intros _. apply searchInFile_reached. cbn. lia.
  + destruct (isDirectory stats); [|discriminate].
    intros _. apply searchDirectory_reached. cbn. lia.
- assert (Hstart : Tracks (Z.to_nat (maxResults o)) ([], 0) []).
  { split; [reflexivity | cbn; lia]. }
  assert (Hbelow : @countMatches GrepMatch [] < Z.to_nat (maxResults o)) by (cbn; lia).
  revert Hrun. unfold everyMatchFrom, searchFrom.
  destruct (isFile stats).
  + destruct (_ || _).
    * intros Hrun.
      pose proof (searchInFile_capSim E o matchesPattern vsp vsp _ _ st Hstart Hbelow)
        as Hsim.
      rewrite Hrun in Hsim. destruct Hsim as (acc & st1 & Hreal & [Hfst _] & _). eauto.
    * intros [= <- <-]. exists ([], 0), st. split; reflexivity.
  + destruct (isDirectory stats); [|discriminate].
    intros Hrun.
    pose proof (searchDirectory_capSim E o matchesPattern vsp fuel vsp _ _ st
                  Hstart Hbelow) as Hsim.
    rewrite Hrun in Hsim. destruct Hsim as (acc & st1 & Hreal & [Hfst _] & _). eauto.
Qed.

Lemma searchFileContentsInProcess_everyMatch (fuel : nat) (o : GrepOptions)
  (st st' : State) (found : list (string * list GrepMatch)) :
everyMatch E fuel o st = (Return found, st') ->
exists st1,
  searchFileContentsInProcess E fuel o st
  = (Return (map (formatFile o) (capAcrossFiles (Z.to_nat (maxResults o)) found)), st1).
Proof.
unfold everyMatch, searchFileContentsInProcess, grepReports, bind.
destruct (validatePath E (searchPath o) st) as [[vsp | e |] st1]; try discriminate.
destruct (regexCompile E _ _) as [e | test]; [discriminate|].
destruct (fs_stat E vsp st1) as [[stats | e |] st2]; try discriminate.
intros Hrun.
destruct (searchFrom_everyMatch fuel o _ vsp stats st2 st' found Hrun)
  as (acc & st3 & Hreal & Hfst).
rewrite Hreal. unfold ret. rewrite Hfst. eauto.
Qed.

Lemma nonEmpty_trim (s : string) : nonEmpty (Js.trim s) = true -> nonEmpty s = true.
Proof. destruct s; [discriminate | reflexivity]. Qed.

Lemma searchFileContents_printed (o : GrepOptions) (st st1 : State)
  (vsp stdout stderr : string) :
validatePath E (searchPath o) st = (Return vsp, st1) ->
execFile E "rg" (rgArguments o vsp) = inr (stdout, stderr) ->
nonEmpty (Js.trim stdout) = true ->
searchFileContents E o st
= (Return (map (formatRgFile o)
             (capAcrossFiles (Z.to_nat (maxResults o)) (rgParsed stdout))),
   log (CExec "rg" (rgArguments o vsp)) st1).
Proof.
intros Hvalid Hexec Hout. unfold searchFileContents.
rewrite (bind_return _ _ _ _ _ Hvalid).
unfold try_catch, bind, execFileAsync. rewrite Hexec. cbn [fst snd].
rewrite (nonEmpty_trim _ Hout), Hout. cbn [negb andb orb].
rewrite andb_false_r. unfold ret, rgReports.
now rewrite capMatches_capAcrossFiles, Nat.sub_0_r.
Qed.

End CapTop.

(** C8. One cap for all files together.  Take the matches that exist,
    file by file: those a search finds that nothing stops (first
    revision, in process), or those [rg] printed (second revision).
    What [searchFileContents] returns is the text of these matches cut
    by the cap across the files: the files in order, each with the
    first of its matches that the earlier files have left room for, and
    no file that is left with none.  So the matches reported sum to the
    smaller of the cap and the number of matches that exist, exactly the
    cap when that many exist, and every report is the beginning of the
    file's matches.  A cap of zero or less reports nothing. *)
Theorem content_search_cap_is_global (E : Env) (o : GrepOptions) (fuel : nat) (st : State) :
let cap := Z.to_nat (maxResults o) in
(forall found st',
   everyMatch E fuel o st = (Return found, st') ->
   exists reports st1,
     searchFileContentsInProcess E fuel o st = (Return (map (formatFile o) reports), st1)
     /\ reports = capAcrossFiles cap found
     /\ countMatches reports = Nat.min cap (countMatches found)
     /\ forall f ms, In (f, ms) reports ->
          exists all, In (f, all) found /\ ms `prefix_of` all)
/\ (forall vsp st1 stdout stderr,
      validatePath E (searchPath o) st = (Return vsp, st1) ->
      execFile E "rg" (rgArguments o vsp) = inr (stdout, stderr) ->
      nonEmpty (Js.trim stdout) = true ->
      exists reports,
        searchFileContents E o st
        = (Return (map (formatRgFile o) reports), log (CExec "rg" (rgArguments o vsp)) st1)
        /\ reports = capAcrossFiles cap (rgParsed stdout)
        /\ countMatches reports = Nat.min cap (countMatches (rgParsed stdout))
        /\ forall f ms, In (f, ms) reports ->
             exists all, In (f, all) (rgParsed stdout) /\ ms `prefix_of` all).
Proof.
intros cap. split.
- intros found st' Hrun.
  destruct (searchFileContentsInProcess_everyMatch E fuel o st st' found Hrun) as [st1 Hreal].
  exists (capAcrossFiles cap found), st1.
  split; [exact Hreal|]. split; [reflexivity|].
  split; [apply countMatches_capAcrossFiles | apply capAcrossFiles_prefixes].
- intros vsp st1 stdout stderr Hvalid Hexec Hout.
  exists (capAcrossFiles cap (rgParsed stdout)).
  split; [now apply (searchFileContents_printed E o st st1 vsp stdout stderr)|].
  split; [reflexivity|].
  split; [apply countMatches_capAcrossFiles | apply capAcrossFiles_prefixes].
Qed.

Lemma content_search_cap_is_global_witness :
(exists reports st1,
   searchFileContentsInProcess GrepExample.env 4 (withCap GrepExample.options 3)
     GrepExample.st
   = (Return (map (formatFile (withCap GrepExample.options 3)) reports), st1)
   /\ map (fun report => (fst report, length (snd report))) reports
      = [("/allowed/dir/a.txt", 2); ("/allowed/dir/b.txt", 1)])
/\ (exists reports,
      fst (searchFileContents GrepExample.withRg (withCap GrepExample.options 3)
             GrepExample.st)
      = Return (map (formatRgFile (withCap GrepExample.options 3)) reports)
      /\ map (fun report => (fst report, length (snd report))) reports
         = [("/allowed/dir/a.txt", 2); ("/allowed/dir/b.txt", 1)]).
Proof.
split.
- destruct (proj1 (content_search_cap_is_global GrepExample.env
                     (withCap GrepExample.options 3) 4 GrepExample.st)
              GrepExample.found
              (snd (everyMatch GrepExample.env 4 (withCap GrepExample.options 3)
                      GrepExample.st)))
    as (reports & st1 & Hrun & -> & _).
  { apply outcome_pair. vm_compute. reflexivity. }
  eexists. exists st1. split; [exact Hrun | vm_compute; reflexivity].
- destruct (proj2 (content_search_cap_is_global GrepExample.withRg
                     (withCap GrepExample.options 3) 4 GrepExample.st)
              "/allowed/dir" (log (CRealpath "/allowed/dir") GrepExample.st)
              GrepExample.stdout EmptyString)
    as (reports & Hrun & -> & _).
  { vm_compute. reflexivity. }
  { vm_compute. reflexivity. }
  { vm_compute. reflexivity. }
  eexists. split; [now rewrite Hrun | vm_compute; reflexivity].
Defined.

(** * Further properties

    Properties of the same functions, and of their neighbours in
    [lib.ts], beyond those the design document states. *)

(** ** Strings and lines *)

Ltac app_step :=
  repeat match goal with
  | |- context [String ?c ?a +:+ ?b] => change (String c a +:+ b) with (String c (a +:+ b))
  | |- context [EmptyString +:+ ?b] => change (EmptyString +:+ b) with b
  end.

Ltac app_step_in H :=
  repeat match type of H with
  | context [String ?c ?a +:+ ?b] => change (String c a +:+ b) with (String c (a +:+ b)) in H
  | context [EmptyString +:+ ?b] => change (EmptyString +:+ b) with b in H
  end.

Lemma js_app_nil_r (s : string) : s +:+ "" = s.
Proof. induction s as [|c s IH]; app_step; [reflexivity | now rewrite IH]. Qed.

Lemma js_app_assoc (a b c : string) : (a +:+ b) +:+ c = a +:+ (b +:+ c).
Proof. induction a as [|x a IH]; app_step; [reflexivity | now rewrite IH]. Qed.

Lemma js_length_app (a b : string) :
String.length (a +:+ b) = String.length a + String.length b.
Proof. induction a as [|x a IH]; app_step; cbn; [reflexivity | now rewrite IH]. Qed.

Lemma prefix_app (p s : string) : String.prefix p (p +:+ s) = true.
Proof.
induction p as [|c p IH]; app_step; [now destruct s|].
cbn [String.prefix]. destruct (ascii_dec c c); [exact IH | contradiction].
Qed.

Lemma js_drop_app (p s : string) : Js.drop (String.length p) (p +:+ s) = s.
Proof. induction p as [|c p IH]; app_step; [reflexivity | exact IH]. Qed.

Lemma js_take_drop (n : nat) (s : string) : Js.take n s +:+ Js.drop n s = s.
Proof.
revert s. induction n as [|n IH]; intros [|c s]; cbn; app_step; try reflexivity.
now rewrite IH.
Qed.

Lemma js_length_take (n : nat) (s : string) :
String.length (Js.take n s) = Nat.min n (String.length s).
Proof.
revert s. induction n as [|n IH]; intros [|c s]; cbn; try reflexivity.
now rewrite IH.
Qed.

Lemma js_length_drop (n : nat) (s : string) :
String.length (Js.drop n s) = String.length s - n.
Proof.
revert s. induction n as [|n IH]; intros [|c s]; cbn; try reflexivity.
now rewrite IH.
Qed.

Lemma js_drop_drop (n m : nat) (s : string) :
Js.drop n (Js.drop m s) = Js.drop (m + n) s.
Proof.
revert s. induction m as [|m IH]; intros s; [reflexivity|].
destruct s as [|c s]; cbn; [now destruct n | apply IH].
Qed.

Lemma js_take_all (n : nat) (s : string) :
String.length s <= n -> Js.take n s = s.
Proof.
revert s. induction n as [|n IH]; intros [|c s] H; cbn in *; try reflexivity; try lia.
rewrite IH by lia. reflexivity.
Qed.

Lemma js_drop_all (n : nat) (s : string) :
String.length s <= n -> Js.drop n s = "".
Proof.
revert s. induction n as [|n IH]; intros [|c s] H; cbn in *; try reflexivity; try lia.
apply IH. lia.
Qed.

Lemma js_take_add (n m : nat) (s : string) :
Js.take (n + m) s = Js.take n s +:+ Js.take m (Js.drop n s).
Proof.
revert s. induction n as [|n IH]; intros s; [reflexivity|].
destruct s as [|c s]; cbn; app_step.
- now destruct m.
- now rewrite IH.
Qed.

Lemma js_slice_chunk (s : string) (from sz : nat) :
Js.slice s from (from + sz) = Js.take sz (Js.drop from s).
Proof. unfold Js.slice. now replace (from + sz - from) with sz by lia. Qed.

Lemma js_length_zero (s : string) : String.length s = 0 -> s = "".
Proof. now destruct s. Qed.

(* occurs *)
Lemma occurs_app (c : ascii) (a b : string) :
occurs c (a +:+ b) = occurs c a || occurs c b.
Proof.
induction a as [|x a IH]; app_step; cbn; [reflexivity|].
now rewrite IH, orb_assoc.
Qed.

Lemma occurs_take (c : ascii) (n : nat) (s : string) :
occurs c s = false -> occurs c (Js.take n s) = false.
Proof.
intros H. rewrite <- (js_take_drop n s), occurs_app in H.
now apply orb_false_iff in H.
Qed.

Lemma occurs_drop (c : ascii) (n : nat) (s : string) :
occurs c s = false -> occurs c (Js.drop n s) = false.
Proof.
intros H. rewrite <- (js_take_drop n s), occurs_app in H.
now apply orb_false_iff in H.
Qed.

(* split *)
Lemma split_not_nil (sep : ascii) (s : string) : Js.split sep s <> [].
Proof.
induction s as [|c s IH]; cbn; [discriminate|].
destruct (Ascii.eqb c sep); [discriminate|].
destruct (Js.split sep s); discriminate.
Qed.

Lemma split_cons (sep c : ascii) (s : string) :
Js.split sep (String c s)
= if Ascii.eqb c sep then EmptyString :: Js.split sep s
  else String c (hd EmptyString (Js.split sep s)) :: tl (Js.split sep s).
Proof.
cbn. destruct (Ascii.eqb c sep); [reflexivity|].
pose proof (split_not_nil sep s). destruct (Js.split sep s); [contradiction | reflexivity].
Qed.

Lemma split_no_sep (sep : ascii) (s : string) :
occurs sep s = false -> Js.split sep s = [s].
Proof.
induction s as [|c s IH]; [reflexivity|].
cbn [occurs]. intros H. apply orb_false_iff in H as [Hc Hs].
rewrite split_cons, Hc, (IH Hs). reflexivity.
Qed.

Lemma split_no_sep_app (sep : ascii) (x b : string) :
occurs sep x = false ->
Js.split sep (x +:+ String sep b) = x :: Js.split sep b.
Proof.
induction x as [|c x IH]; app_step.
- intros _. rewrite split_cons, Ascii.eqb_refl. reflexivity.
- cbn [occurs]. intros H. apply orb_false_iff in H as [Hc Hx].
  rewrite split_cons, Hc, (IH Hx). reflexivity.
Qed.

Lemma split_app_last (sep : ascii) (a b x : string) (La : list string) :
Js.split sep a = La ++ [x] ->
Js.split sep (a +:+ b) = La ++ Js.split sep (x +:+ b).
Proof.
revert La x. induction a as [|c a IH]; intros La x; app_step.
- cbn. destruct La as [|y [|z La]]; cbn; intros [= <-]. reflexivity.
- rewrite !split_cons.
  pose proof (split_not_nil sep a) as Hne.
  destruct (exists_last Hne) as (La' & x' & Heq).
  specialize (IH La' x' Heq).
  destruct (Ascii.eqb c sep) eqn:Hc.
  + rewrite Heq. intros H.
    change ("" :: La' ++ [x']) with (("" :: La') ++ [x']) in H.
    apply app_inj_tail in H as [<- <-].
    rewrite IH. reflexivity.
  + rewrite Heq. destruct La' as [|l La'].
    * cbn. intros H. destruct La as [|y [|z La]]; cbn in H; try discriminate.
      injection H as <-. cbn.
      rewrite IH. cbn. app_step. rewrite split_cons, Hc. reflexivity.
    * cbn. intros H.
      change (String c l :: La' ++ [x']) with ((String c l :: La') ++ [x']) in H.
      apply app_inj_tail in H as [<- <-].
      rewrite IH. reflexivity.
Qed.

Lemma split_last_no_sep (sep : ascii) (s x : string) (La : list string) :
Js.split sep s = La ++ [x] -> occurs sep x = false.
Proof.
revert La x. induction s as [|c s IH]; intros La x.
- cbn. destruct La as [|y [|z La]]; cbn; intros [= <-]. reflexivity.
- rewrite split_cons.
  pose proof (split_not_nil sep s) as Hne.
  destruct (exists_last Hne) as (La' & x' & Heq).
  pose proof (IH La' x' Heq) as Hx'.
  rewrite Heq. destruct (Ascii.eqb c sep) eqn:Hc.
  + intros H. change ("" :: La' ++ [x']) with (("" :: La') ++ [x']) in H.
    apply app_inj_tail in H as [_ <-]. exact Hx'.
  + destruct La' as [|l La']; cbn.
    * intros H. destruct La as [|y [|z La]]; cbn in H; try discriminate.
      injection H as <-. cbn. now rewrite Hc.
    * intros H.
      change (String c l :: La' ++ [x']) with ((String c l :: La') ++ [x']) in H.
      apply app_inj_tail in H as [_ <-]. exact Hx'.
Qed.

Lemma split_snoc (sep : ascii) (a b : string) :
occurs sep b = false ->
Js.split sep (a +:+ String sep b) = Js.split sep a ++ [b].
Proof.
intros Hb.
destruct (exists_last (split_not_nil sep a)) as (La & x & Heq).
rewrite (split_app_last _ _ _ _ _ Heq), Heq.
rewrite (split_no_sep_app _ _ _ (split_last_no_sep _ _ _ _ Heq)).
rewrite (split_no_sep _ _ Hb), <- app_assoc. reflexivity.
Qed.

(* lastIndexOf *)
Lemma lastIndexOf_none (c : ascii) (s : string) :
Js.lastIndexOf c s = None -> occurs c s = false.
Proof.
induction s as [|d s IH]; cbn; [reflexivity|].
destruct (Js.lastIndexOf c s); [discriminate|].
destruct (Ascii.eqb d c); [discriminate|]. intros _. now apply IH.
Qed.

Lemma lastIndexOf_some (c : ascii) (s : string) (k : nat) :
Js.lastIndexOf c s = Some k ->
s = Js.take k s +:+ String c (Js.drop (S k) s)
/\ occurs c (Js.drop (S k) s) = false.
Proof.
revert k. induction s as [|d s IH]; intros k; cbn [Js.lastIndexOf]; [discriminate|].
destruct (Js.lastIndexOf c s) as [i|] eqn:Hlast.
- intros [= <-]. destruct (IH i eq_refl) as [Heq Hocc].
  split; [|exact Hocc].
  change (String d s = String d (Js.take i s +:+ String c (Js.drop (S i) s))).
  f_equal. exact Heq.
- destruct (Ascii.eqb d c) eqn:Hd; [|discriminate].
  intros [= <-]. apply Ascii.eqb_eq in Hd as ->.
  cbn. app_step. split; [reflexivity | now apply lastIndexOf_none].
Qed.

(** ** The chunked readers on files of any size *)

Lemma split_sep_free (sep : ascii) (s : string) :
Forall (fun x => occurs sep x = false) (Js.split sep s).
Proof.
induction s as [|c s IH]; [repeat constructor|].
rewrite split_cons.
pose proof (split_not_nil sep s) as Hne.
destruct (Js.split sep s) as [|l ls]; [contradiction|].
apply Forall_cons in IH as [Hl Hls].
destruct (Ascii.eqb c sep) eqn:Hc.
- constructor; [reflexivity|]. now constructor.
- cbn. constructor; [|exact Hls]. cbn. now rewrite Hc.
Qed.

Lemma split_keeps_free (sep ch : ascii) (s : string) :
occurs ch s = false ->
Forall (fun x => occurs ch x = false) (Js.split sep s).
Proof.
induction s as [|c s IH]; [repeat constructor|].
cbn [occurs]. intros H. apply orb_false_iff in H as [Hc Hs].
specialize (IH Hs). rewrite split_cons.
pose proof (split_not_nil sep s) as Hne.
destruct (Js.split sep s) as [|l ls]; [contradiction|].
apply Forall_cons in IH as [Hl Hls].
destruct (Ascii.eqb c sep).
- constructor; [reflexivity|]. now constructor.
- cbn. constructor; [|exact Hls]. cbn. now rewrite Hc.
Qed.

Lemma split_no_sep_prefix (sep : ascii) (x b : string) :
occurs sep x = false ->
Js.split sep (x +:+ b)
= (x +:+ hd EmptyString (Js.split sep b)) :: tl (Js.split sep b).
Proof.
induction x as [|c x IH]; app_step.
- intros _. pose proof (split_not_nil sep b).
  destruct (Js.split sep b); [contradiction | reflexivity].
- cbn [occurs]. intros H. apply orb_false_iff in H as [Hc Hx].
  rewrite split_cons, Hc, (IH Hx). reflexivity.
Qed.

Lemma replaceCRLF_no_cr (s : string) :
occurs Js.CR s = false -> Js.replaceCRLF s = s.
Proof.
induction s as [|c s IH]; [reflexivity|].
cbn [occurs]. intros H. apply orb_false_iff in H as [Hc Hs].
cbn [Js.replaceCRLF]. destruct s as [|d s]; [reflexivity|].
rewrite Hc. cbn [andb]. now rewrite (IH Hs).
Qed.

Lemma lastLines_app (n : nat) (Y Ls : list string) :
length Ls <= n -> lastLines n (Y ++ Ls) = lastLines (n - length Ls) Y ++ Ls.
Proof.
intros H. unfold lastLines. rewrite length_app.
replace (length Y + length Ls - n) with (length Y - (n - length Ls)) by lia.
apply drop_app_le. lia.
Qed.

Lemma lastLines_suffix (n : nat) (Pre Ls : list string) :
n <= length Ls -> lastLines n (Pre ++ Ls) = lastLines n Ls.
Proof.
intros H. unfold lastLines. rewrite length_app.
rewrite drop_app_ge by lia. f_equal. lia.
Qed.

Lemma length_lastLines (n : nat) (Ls : list string) :
length (lastLines n Ls) = Nat.min n (length Ls).
Proof. unfold lastLines. rewrite length_drop. lia. Qed.

Lemma textLines_prefix (text : string) (br : nat) (Lc : list string) (buffer : string) :
Js.split Js.LF (Js.take br text) = Lc ++ [buffer] ->
exists more, textLines text = Lc ++ more.
Proof.
intros H.
assert (Hs : Js.split Js.LF text = Lc ++ Js.split Js.LF (buffer +:+ Js.drop br text)).
{ rewrite <- (js_take_drop br text) at 1. apply split_app_last. exact H. }
unfold textLines. cbv zeta. rewrite Hs.
pose proof (split_not_nil Js.LF (buffer +:+ Js.drop br text)) as Hne.
set (rest := Js.split Js.LF (buffer +:+ Js.drop br text)) in *.
rewrite (removelast_app Lc Hne), <- app_assoc. eauto.
Qed.

Lemma textLines_all (text : string) (Lc : list string) (buffer : string) :
Js.split Js.LF text = Lc ++ [buffer] ->
textLines text = Lc ++ (if nonEmpty buffer then [buffer] else []).
Proof.
intros H. unfold textLines. rewrite H, removelast_last, last_last. reflexivity.
Qed.

Lemma pushLines_take (n : Z) (L lines : list string) :
(Z.of_nat (length lines) < n)%Z ->
pushLines L lines n = take (Z.to_nat n) (lines ++ L).
Proof.
revert lines. induction L as [|l rest IH]; intros lines Hlt.
- cbn. rewrite app_nil_r. symmetry. apply take_ge. lia.
- cbn [pushLines].
  destruct (n <=? Z.of_nat (length (lines ++ [l])))%Z eqn:Hfull.
  + apply Z.leb_le in Hfull. rewrite length_app in Hfull. cbn in Hfull.
    change (lines ++ l :: rest) with (lines ++ [l] ++ rest).
    rewrite app_assoc, take_app_le by (rewrite length_app; cbn; lia).
    symmetry. apply take_ge. rewrite length_app. cbn. lia.
  + apply Z.leb_gt in Hfull. rewrite IH by exact Hfull.
    now rewrite <- app_assoc.
Qed.

Lemma unshiftLines_take (n : Z) (X lines : list string) (found : nat) :
unshiftLines X lines found n
= (rev (take (Z.to_nat n - found) X) ++ lines,
   found + Nat.min (Z.to_nat n - found) (length X)).
Proof.
revert lines found. induction X as [|l rest IH]; intros lines found.
- cbn. rewrite take_nil. cbn. f_equal. lia.
- cbn [unshiftLines]. destruct (Z.of_nat found <? n)%Z eqn:Hlt.
  + apply Z.ltb_lt in Hlt. rewrite IH.
    replace (Z.to_nat n - found) with (S (Z.to_nat n - S found)) by lia.
    cbn [take firstn rev length]. rewrite <- app_assoc. cbn. f_equal. lia.
  + apply Z.ltb_ge in Hlt.
    replace (Z.to_nat n - found) with 0 by lia. cbn. f_equal. lia.
Qed.

Lemma js_take_length_take (k : nat) (s : string) :
Js.take (String.length (Js.take k s)) s = Js.take k s.
Proof.
revert s. induction k as [|k IH]; intros [|x s]; cbn; try reflexivity.
now rewrite IH.
Qed.

Lemma isAscii_take (k : nat) (s : string) :
Js.isAscii s = true -> Js.isAscii (Js.take k s) = true.
Proof.
revert s. induction k as [|k IH]; intros [|x s]; cbn; try reflexivity.
intros H. apply andb_true_iff in H as [Hx Hs]. rewrite Hx. now apply IH.
Qed.

Lemma isAscii_drop (k : nat) (s : string) :
Js.isAscii s = true -> Js.isAscii (Js.drop k s) = true.
Proof.
revert s. induction k as [|k IH]; intros [|x s]; cbn; try reflexivity; try easy.
intros H. apply andb_true_iff in H as [_ Hs]. now apply IH.
Qed.

(** Decoding leaves ASCII text as it is. *)
Lemma toString_utf8_ascii (s : string) :
Js.isAscii s = true -> Js.toString_utf8 s = s.
Proof.
unfold Js.toString_utf8. induction s as [|x s IH]; [reflexivity|].
cbn [Js.isAscii]. intros H. apply andb_true_iff in H as [Hx Hs].
cbn [Js.utf8Decode]. unfold Js.utf8Lead. rewrite Hx. cbn [fst snd].
rewrite (IH Hs). reflexivity.
Qed.

Section Chunked.

Variable E : Env.
Hypothesis no_fault : forall n c, fault E n c = None.
Variable p : string.
Variable c : string.

Lemma headLoop_lines (n : Z) (fuel : nat) :
forall (lines : list string) (buffer : string) (bytesRead : nat) (st : State)
       (Lc : list string),
nodes st !! p = Some (File c) ->
Js.isAscii c = true ->
bytesRead <= String.length c ->
Js.split Js.LF (Js.take bytesRead c) = Lc ++ [buffer] ->
lines = take (Z.to_nat n) Lc ->
String.length c - bytesRead < fuel ->
exists lines' buffer' st',
  headLoop E fuel {| h_path := p |} n lines buffer bytesRead st
  = (Return (lines', buffer'), st')
  /\ (if (0 <? String.length buffer') && (Z.of_nat (length lines') <? n)%Z
      then lines' ++ [buffer'] else lines')
     = take (Z.to_nat n) (textLines c).
Proof.
induction fuel as [|fuel IH];
  intros lines buffer bytesRead st Lc Hfile Hascii Hle Hsplit Hlines Hfuel; [lia|].
rewrite headLoop_eq.
destruct (Z.of_nat (length lines) <? n)%Z eqn:Hmore.
- apply Z.ltb_lt in Hmore.
  assert (HLc : lines = Lc).
  { subst lines. rewrite length_take in Hmore. apply take_ge. lia. }
  subst Lc. clear Hlines.
  rewrite (bind_return _ _ _ _ _ (handle_read_file E no_fault p c 1024 bytesRead st Hfile)).
  rewrite js_slice_chunk.
  set (rd := Js.take 1024 (Js.drop bytesRead c)).
  assert (Hrd : String.length rd = Nat.min 1024 (String.length c - bytesRead)).
  { subst rd. now rewrite js_length_take, js_length_drop. }
  assert (Hdec : Js.toString_utf8 rd = rd).
  { apply toString_utf8_ascii. subst rd. now apply isAscii_take, isAscii_drop. }
  cbv zeta. rewrite Hdec.
  destruct (String.length rd =? 0) eqn:Hzero.
  + apply Nat.eqb_eq in Hzero.
    assert (Hall : Js.take bytesRead c = c) by (apply js_take_all; lia).
    rewrite Hall in Hsplit.
    exists lines, buffer, (log (CRead p 1024 bytesRead) st). split; [reflexivity|].
    rewrite (textLines_all _ _ _ Hsplit).
    rewrite (proj2 (Z.ltb_lt _ _) Hmore), andb_true_r.
    destruct buffer as [|b buffer]; cbn [String.length Nat.ltb Nat.leb nonEmpty].
    * rewrite app_nil_r. symmetry. apply take_ge. lia.
    * symmetry. apply take_ge. rewrite length_app. cbn. lia.
  + apply Nat.eqb_neq in Hzero.
    assert (Htake : Js.take (bytesRead + String.length rd) c = Js.take bytesRead c +:+ rd).
    { rewrite js_take_add. f_equal. subst rd. apply js_take_length_take. }
    pose proof (split_app_last _ _ rd _ _ Hsplit) as Hnext. rewrite <- Htake in Hnext.
    destruct (Js.lastIndexOf Js.LF (buffer +:+ rd)) as [k|] eqn:Hlast.
    * destruct (lastIndexOf_some _ _ _ Hlast) as [Heq Hfree].
      assert (Hpieces : Js.split Js.LF (buffer +:+ rd)
                        = Js.split Js.LF (Js.slice (buffer +:+ rd) 0 k)
                          ++ [Js.drop (S k) (buffer +:+ rd)]).
      { rewrite Heq at 1. rewrite (split_snoc _ _ _ Hfree).
        unfold Js.slice. now rewrite Nat.sub_0_r. }
      rewrite Hpieces, app_assoc in Hnext.
      eapply (IH _ _ _ (log (CRead p 1024 bytesRead) st));
        [exact Hfile | exact Hascii | lia | exact Hnext | now apply pushLines_take | lia].
    * apply lastIndexOf_none in Hlast.
      rewrite (split_no_sep _ _ Hlast) in Hnext.
      eapply (IH _ _ _ (log (CRead p 1024 bytesRead) st));
        [exact Hfile | exact Hascii | lia | exact Hnext
        | symmetry; apply take_ge; lia | lia].
- apply Z.ltb_ge in Hmore.
  exists lines, buffer, st. split; [reflexivity|].
  rewrite (proj2 (Z.ltb_ge _ _) Hmore), andb_false_r.
  destruct (textLines_prefix _ _ _ _ Hsplit) as [more ->].
  subst lines. rewrite length_take in Hmore.
  rewrite take_app_le by lia. reflexivity.
Qed.

(** X8. Read without failures of the environment, [headFile] returns the
    first [numLines] lines of an ASCII file joined by newlines, whatever
    the size of the file and wherever the 1024-byte chunks cut its
    lines; the lines are the pieces between newlines, the empty piece
    after a final newline is not a line, and a count of zero or less
    gives the empty string.  (Every chunk is decoded on its own, so a
    character of several bytes that a chunk boundary cuts comes out as
    replacement characters: the file has to be ASCII.) *)
Theorem headFile_first_lines (st : State) (n : Z) :
nodes st !! p = Some (File c) ->
Js.isAscii c = true ->
fst (headFile E p n st) = Return (Js.join nl (take (Z.to_nat n) (textLines c))).
Proof.
intros Hfile Hascii. unfold headFile.
rewrite (bind_return _ _ _ _ _ (fs_open_file E no_fault p c st Hfile)).
destruct (headLoop_lines n (S (String.length c)) [] EmptyString 0
            (log (COpen p) st) [] Hfile Hascii)
  as (lines' & buffer' & st' & Hloop & Hfinish);
  [lia | reflexivity | now rewrite take_nil | lia |].
erewrite try_finally_return; [reflexivity | | apply handle_close_ok, no_fault].
unfold get at 1. unfold bind at 1.
change (bytesBehind {| h_path := p |} (log (COpen p) st))
  with (match nodes st !! p with Some (File c) => String.length c | _ => 0 end).
rewrite Hfile.
rewrite (bind_return _ _ _ _ _ Hloop). cbn [fst snd]. unfold ret.
rewrite Hfinish. reflexivity.
Qed.

Lemma tailLoop_done (fuel : nat) (h : FileHandle) (n : Z) (lines : list string)
  (found : nat) (rem : string) (st : State) :
tailLoop E fuel h n 0 lines found rem st = (Return lines, st).
Proof. destruct fuel; reflexivity. Qed.

Lemma tailLoop_lines (n : Z) (fuel : nat) :
forall (position : nat) (lines : list string) (found : nat) (rem : string)
       (st : State) (Ls : list string),
nodes st !! p = Some (File c) ->
Js.isAscii c = true ->
occurs Js.CR c = false ->
0 < position <= String.length c ->
Js.split Js.LF (Js.drop position c) = rem :: Ls ->
lines = lastLines (Z.to_nat n) Ls ->
found = length lines ->
position <= fuel ->
exists st',
  tailLoop E fuel {| h_path := p |} n position lines found rem st
  = (Return (lastLines (Z.to_nat n) (Js.split Js.LF c)), st').
Proof.
induction fuel as [|fuel IH];
  intros position lines found rem st Ls Hfile Hascii Hcr Hpos Hsplit Hlines Hfound Hfuel;
  [lia|].
rewrite tailLoop_eq.
rewrite (proj2 (Nat.ltb_lt 0 position)) by lia. cbn [andb].
assert (Hwhole : exists Pre, Js.split Js.LF c = Pre ++ Ls).
{ destruct (exists_last (split_not_nil Js.LF (Js.take position c))) as (La & x & Hx).
  exists (La ++ [x +:+ rem]).
  rewrite <- (js_take_drop position c) at 1.
  rewrite (split_app_last _ _ _ _ _ Hx).
  rewrite (split_no_sep_prefix _ _ _ (split_last_no_sep _ _ _ _ Hx)), Hsplit.
  cbn [hd tl]. now rewrite <- app_assoc. }
destruct (Z.of_nat found <? n)%Z eqn:Hmore.
- apply Z.ltb_lt in Hmore.
  assert (Hshort : length Ls < Z.to_nat n).
  { subst found lines. rewrite length_lastLines in Hmore. lia. }
  assert (Hall : lines = Ls).
  { subst lines. unfold lastLines. replace (length Ls - Z.to_nat n) with 0 by lia.
    reflexivity. }
  clear Hlines. subst lines. subst found.
  set (sz := Nat.min CHUNK_SIZE position).
  set (position' := position - sz).
  assert (Hsz : 0 < sz <= position) by (unfold sz, CHUNK_SIZE; lia).
  rewrite (bind_return _ _ _ _ _
             (handle_read_file E no_fault p c sz position' st Hfile)).
  rewrite js_slice_chunk.
  set (rd := Js.take sz (Js.drop position' c)).
  assert (Hrd : String.length rd = sz).
  { subst rd. rewrite js_length_take, js_length_drop. lia. }
  rewrite Hrd. rewrite (proj2 (Nat.eqb_neq sz 0)) by lia.
  assert (Hdec : Js.toString_utf8 rd = rd).
  { apply toString_utf8_ascii. subst rd. now apply isAscii_take, isAscii_drop. }
  cbv zeta. rewrite Hdec.
  assert (Hdrop : Js.drop position' c = rd +:+ Js.drop position c).
  { rewrite <- (js_take_drop sz (Js.drop position' c)) at 1.
    rewrite js_drop_drop. subst rd. do 2 f_equal. lia. }
  pose proof (split_sep_free Js.LF (Js.drop position c)) as Hfree.
  rewrite Hsplit in Hfree. apply Forall_cons in Hfree as [Hrem_lf _].
  pose proof (split_keeps_free Js.LF Js.CR (Js.drop position c)
                (occurs_drop _ _ _ Hcr)) as Hcrs.
  rewrite Hsplit in Hcrs. apply Forall_cons in Hcrs as [Hrem_cr _].
  assert (Hnorm : normalizeLineEndings (rd +:+ rem) = rd +:+ rem).
  { unfold normalizeLineEndings. apply replaceCRLF_no_cr.
    rewrite occurs_app, Hrem_cr, orb_false_r.
    subst rd. apply occurs_take, occurs_drop, Hcr. }
  rewrite Hnorm.
  destruct (exists_last (split_not_nil Js.LF rd)) as (La & x & Hx).
  assert (Hchunk : Js.split Js.LF (rd +:+ rem) = La ++ [x +:+ rem]).
  { rewrite (split_app_last _ _ _ _ _ Hx). f_equal.
    apply split_no_sep. rewrite occurs_app, Hrem_lf, orb_false_r.
    exact (split_last_no_sep _ _ _ _ Hx). }
  assert (Hnew : Js.split Js.LF (Js.drop position' c)
                 = Js.split Js.LF (rd +:+ rem) ++ Ls).
  { rewrite Hdrop, (split_app_last _ _ _ _ _ Hx).
    rewrite (split_no_sep_prefix _ _ _ (split_last_no_sep _ _ _ _ Hx)), Hsplit.
    cbn [hd tl]. rewrite Hchunk, <- app_assoc. reflexivity. }
  set (chunkLines := Js.split Js.LF (rd +:+ rem)) in *.
  rewrite unshiftLines_take. cbn [fst snd].
  rewrite firstn_rev, rev_involutive, length_rev.
  destruct (0 <? position') eqn:Hmid.
  + apply Nat.ltb_lt in Hmid.
    destruct chunkLines as [|r0 Y] eqn:Hcl;
      [exfalso; destruct La; discriminate|].
    cbn [hd tl] in *.
    eapply (IH position' _ _ r0 (log (CRead p sz position') st) (Y ++ Ls));
      [exact Hfile | exact Hascii | exact Hcr | lia | exact Hnew | | | lia].
    * rewrite lastLines_app by lia. reflexivity.
    * rewrite length_app, length_drop. lia.
  + apply Nat.ltb_ge in Hmid.
    assert (Hzero : position' = 0) by lia.
    rewrite Hzero in *. cbn [Js.drop] in Hnew.
    rewrite tailLoop_done. eexists. f_equal. f_equal.
    rewrite Hnew. rewrite lastLines_app by lia. reflexivity.
- apply Z.ltb_ge in Hmore.
  exists st. unfold ret. do 2 f_equal.
  destruct Hwhole as [Pre ->].
  subst found lines. rewrite length_lastLines in Hmore.
  rewrite lastLines_suffix by lia. reflexivity.
Qed.

(** X9. Read without failures of the environment, on an ASCII file
    without carriage returns [tailFile] returns the last [numLines]
    pieces of the content split at newlines, joined by newlines,
    whatever the size of the file and wherever the chunks cut its lines;
    the empty piece after a final newline counts as a line here, and a
    count of zero or less gives the empty string.  (Every chunk is
    decoded on its own, as in [headFile], so the file has to be
    ASCII.) *)
Theorem tailFile_last_lines (st : State) (n : Z) :
nodes st !! p = Some (File c) ->
Js.isAscii c = true ->
occurs Js.CR c = false ->
fst (tailFile E p n st)
= Return (Js.join nl (lastLines (Z.to_nat n) (Js.split Js.LF c))).
Proof.
intros Hfile Hascii Hcr. unfold tailFile.
rewrite (bind_return _ _ _ _ _ (fs_stat_file E no_fault p c st Hfile)).
cbn [size].
destruct (String.length c =? 0) eqn:Hsize.
- apply Nat.eqb_eq, js_length_zero in Hsize. subst c. cbn.
  destruct (Z.to_nat n); reflexivity.
- apply Nat.eqb_neq in Hsize.
  rewrite (bind_return _ _ _ _ _ (fs_open_file E no_fault p c (log (CStat p) st) Hfile)).
  destruct (tailLoop_lines n (String.length c) (String.length c) [] 0 EmptyString
              (log (COpen p) (log (CStat p) st)) [] Hfile Hascii Hcr) as (st' & Hloop);
    [lia | now rewrite js_drop_all | reflexivity | reflexivity | lia |].
  erewrite try_finally_return; [reflexivity | | apply handle_close_ok, no_fault].
  rewrite (bind_return _ _ _ _ _ Hloop). reflexivity.
Qed.

End Chunked.

(** ** File handles *)

Section Handles.

Variable E : Env.

Lemma handle_read_logs (h : FileHandle) (sz position : nat) (st : State) :
snd (handle_read E h sz position st) = log (CRead (h_path h) sz position) st
/\ fst (handle_read E h sz position st) <> Diverge
/\ forall rd, fst (handle_read E h sz position st) = Return rd ->
     exists c, nodes st !! h_path h = Some (File c)
               /\ rd = Js.slice c position (position + sz).
Proof.
unfold handle_read, syscall.
destruct (fault E (length (trace st)) (CRead (h_path h) sz position)).
- repeat split; discriminate.
- cbn. destruct (nodes st !! h_path h) as [[c | t |]|]; cbn;
    (split; [reflexivity|]); (split; [discriminate|]); try discriminate.
  intros rd [= <-]. eauto.
Qed.

Lemma handle_close_logs (h : FileHandle) (st : State) :
snd (handle_close E h st) = log (CClose (h_path h)) st
/\ fst (handle_close E h st) <> Diverge.
Proof.
unfold handle_close, syscall.
destruct (fault E (length (trace st)) (CClose (h_path h))); split;
  try reflexivity; discriminate.
Qed.

Lemma fs_open_logs (p : string) (st st1 : State) (h : FileHandle) :
fs_open E p st = (Return h, st1) -> st1 = log (COpen p) st.
Proof.
unfold fs_open, syscall.
destruct (fault E (length (trace st)) (COpen p)); [discriminate|]. cbn.
destruct (follow 40 (nodes st) p) as [t|]; [|discriminate].
destruct (nodes st !! t); [|discriminate]. now intros [= _ <-].
Qed.

Lemma fs_stat_logs (p : string) (st : State) :
snd (fs_stat E p st) = log (CStat p) st.
Proof.
unfold fs_stat, syscall.
destruct (fault E (length (trace st)) (CStat p)); [reflexivity|]. cbn.
destruct (follow 40 (nodes st) p) as [t|]; [|reflexivity].
destruct (nodes st !! t) as [[c | t' |]|]; reflexivity.
Qed.

Lemma tailLoop_reads_only (h : FileHandle) (n : Z) (fuel : nat) :
forall (position : nat) (lines : list string) (found : nat) (rem : string) (st : State),
position <= fuel ->
exists reads,
  trace (snd (tailLoop E fuel h n position lines found rem st)) = trace st ++ reads
  /\ Forall (fun c => isRead c = true) reads
  /\ fst (tailLoop E fuel h n position lines found rem st) <> Diverge.
Proof.
induction fuel as [|fuel IH]; intros position lines found rem st Hfuel.
- assert (position = 0) as -> by lia.
  exists []. rewrite app_nil_r. repeat split; [constructor | discriminate].
- rewrite tailLoop_eq.
  destruct ((0 <? position) && (Z.of_nat found <? n)%Z) eqn:Hcond.
  2:{ exists []. rewrite app_nil_r. repeat split; [constructor | discriminate]. }
  apply andb_true_iff in Hcond as [Hpos _]. apply Nat.ltb_lt in Hpos.
  unfold bind.
  destruct (handle_read_logs h (Nat.min CHUNK_SIZE position)
              (position - Nat.min CHUNK_SIZE position) st) as (Hlog & Htotal & _).
  destruct (handle_read E h _ _ st) as [[rd | e |] st1]; cbn in Hlog, Htotal;
    [| | congruence]; subst st1.
  + destruct (String.length rd =? 0).
    * eexists [_]. repeat split; [repeat constructor | discriminate].
    * cbv zeta.
      match goal with |- context [tailLoop E fuel h n ?a ?b ?c ?d ?s] =>
        destruct (IH a b c d s) as (reads & Htrace & Hreads & Hnodiv)
      end.
      { unfold CHUNK_SIZE. lia. }
      eexists (_ :: reads). rewrite Htrace. cbn [trace log].
      rewrite <- app_assoc. repeat split; [now constructor | exact Hnodiv].
  + eexists [_]. repeat split; [repeat constructor | discriminate].
Qed.

Lemma bytesBehind_log (h : FileHandle) (c : FsCall) (st : State) :
bytesBehind h (log c st) = bytesBehind h st.
Proof. reflexivity. Qed.

Lemma headLoop_reads_only (h : FileHandle) (n : Z) (fuel : nat) :
forall (lines : list string) (buffer : string) (bytesRead : nat) (st : State),
bytesBehind h st - bytesRead < fuel ->
exists reads,
  trace (snd (headLoop E fuel h n lines buffer bytesRead st)) = trace st ++ reads
  /\ Forall (fun c => isRead c = true) reads
  /\ fst (headLoop E fuel h n lines buffer bytesRead st) <> Diverge.
Proof.
induction fuel as [|fuel IH]; intros lines buffer bytesRead st Hfuel; [lia|].
rewrite headLoop_eq.
destruct (Z.of_nat (length lines) <? n)%Z.
2:{ exists []. rewrite app_nil_r. repeat split; [constructor | discriminate]. }
unfold bind.
destruct (handle_read_logs h 1024 bytesRead st) as (Hlog & Htotal & Hdata).
destruct (handle_read E h 1024 bytesRead st) as [[rd | e |] st1]; cbn in Hlog, Htotal, Hdata;
  [| | congruence]; subst st1.
- destruct (String.length rd =? 0) eqn:Hzero.
  + eexists [_]. repeat split; [repeat constructor | discriminate].
  + apply Nat.eqb_neq in Hzero.
    destruct (Hdata rd eq_refl) as (c & Hfile & Hrd).
    rewrite js_slice_chunk in Hrd.
    assert (Hlen : String.length rd = Nat.min 1024 (String.length c - bytesRead)).
    { subst rd. now rewrite js_length_take, js_length_drop. }
    assert (Hnext : bytesBehind h (log (CRead (h_path h) 1024 bytesRead) st)
                    - (bytesRead + String.length rd) < fuel).
    { rewrite bytesBehind_log. unfold bytesBehind in *. rewrite Hfile in *. lia. }
    assert (Hstep : forall lines' buffer',
              exists reads,
                trace (snd (headLoop E fuel h n lines' buffer'
                              (bytesRead + String.length rd)
                              (log (CRead (h_path h) 1024 bytesRead) st)))
                = trace st ++ reads
                /\ Forall (fun c => isRead c = true) reads
                /\ fst (headLoop E fuel h n lines' buffer'
                          (bytesRead + String.length rd)
                          (log (CRead (h_path h) 1024 bytesRead) st)) <> Diverge).
    { intros lines' buffer'.
      destruct (IH lines' buffer' _ _ Hnext) as (reads & Htrace & Hreads & Hnodiv).
      eexists (_ :: reads). rewrite Htrace. cbn [trace log].
      rewrite <- app_assoc. repeat split; [now constructor | exact Hnodiv]. }
    cbv zeta. destruct (Js.lastIndexOf Js.LF (buffer +:+ Js.toString_utf8 rd)); apply Hstep.
- eexists [_]. repeat split; [repeat constructor | discriminate].
Qed.

Lemma try_finally_closes {A} (body : M A) (h : FileHandle) (st : State) :
fst (body st) <> Diverge ->
trace (snd (try_finally body (handle_close E h) st))
= trace (snd (body st)) ++ [CClose (h_path h)]
/\ fst (try_finally body (handle_close E h) st) <> Diverge.
Proof.
intros Hbody. unfold try_finally.
destruct (body st) as [[a | e |] st1]; cbn in *; [| | congruence];
  destruct (handle_close_logs h st1) as [Hlog Htotal];
  destruct (handle_close E h st1) as [[[] | e' |] st2]; cbn in *; subst;
  try congruence; split; try reflexivity; discriminate.
Qed.

Lemma headFile_closes (st st1 : State) (p : string) (n : Z) (h : FileHandle) :
fs_open E p st = (Return h, st1) ->
exists reads,
  trace (snd (headFile E p n st))
  = trace st ++ COpen p :: reads ++ [CClose (h_path h)]
  /\ Forall (fun c => isRead c = true) reads
  /\ fst (headFile E p n st) <> Diverge.
Proof.
intros Hopen. pose proof (fs_open_logs _ _ _ _ Hopen) as ->.
unfold headFile. rewrite (bind_return _ _ _ _ _ Hopen).
match goal with |- context [try_finally ?b _ ?s] =>
  assert (Hbody : exists reads,
            trace (snd (b s)) = trace s ++ reads
            /\ Forall (fun c => isRead c = true) reads
            /\ fst (b s) <> Diverge)
end.
{ destruct (headLoop_reads_only h n (S (bytesBehind h (log (COpen p) st))) [] EmptyString 0
              (log (COpen p) st)) as (reads & Htrace & Hreads & Hnodiv); [lia|].
  exists reads. unfold bind, get. cbv beta iota.
  destruct (headLoop E (S (bytesBehind h (log (COpen p) st))) h n [] EmptyString 0
              (log (COpen p) st)) as [[r | e |] st2]; cbn [fst snd] in *;
    [| | congruence]; repeat split; try assumption; discriminate. }
destruct Hbody as (reads & Htrace & Hreads & Hnodiv).
match goal with |- context [try_finally ?b _ ?s] =>
  destruct (try_finally_closes b h s Hnodiv) as [Hclose Hnodiv']
end.
exists reads. rewrite Hclose, Htrace. cbn [trace log].
rewrite <- !app_assoc. repeat split; assumption.
Qed.

Lemma tailFile_closes (st st0 st1 : State) (p : string) (n : Z) (stats : Stats)
  (h : FileHandle) :
fs_stat E p st = (Return stats, st0) ->
size stats <> 0 ->
fs_open E p st0 = (Return h, st1) ->
exists reads,
  trace (snd (tailFile E p n st))
  = trace st ++ CStat p :: COpen p :: reads ++ [CClose (h_path h)]
  /\ Forall (fun c => isRead c = true) reads
  /\ fst (tailFile E p n st) <> Diverge.
Proof.
intros Hstat Hsize Hopen.
pose proof (fs_stat_logs p st) as Hst0. rewrite Hstat in Hst0. cbn in Hst0. subst st0.
pose proof (fs_open_logs _ _ _ _ Hopen) as ->.
unfold tailFile. rewrite (bind_return _ _ _ _ _ Hstat).
rewrite (proj2 (Nat.eqb_neq _ _) Hsize).
rewrite (bind_return _ _ _ _ _ Hopen).
match goal with |- context [try_finally ?b _ ?s] =>
  assert (Hbody : exists reads,
            trace (snd (b s)) = trace s ++ reads
            /\ Forall (fun c => isRead c = true) reads
            /\ fst (b s) <> Diverge)
end.
{ destruct (tailLoop_reads_only h n (size stats) (size stats) [] 0 EmptyString
              (log (COpen p) (log (CStat p) st))) as (reads & Htrace & Hreads & Hnodiv);
    [lia|].
  exists reads. unfold bind.
  destruct (tailLoop E (size stats) h n (size stats) [] 0 EmptyString
              (log (COpen p) (log (CStat p) st))) as [[r | e |] st2]; cbn [fst snd] in *;
    [| | congruence]; repeat split; try assumption; discriminate. }
destruct Hbody as (reads & Htrace & Hreads & Hnodiv).
match goal with |- context [try_finally ?b _ ?s] =>
  destruct (try_finally_closes b h s Hnodiv) as [Hclose Hnodiv']
end.
exists reads. rewrite Hclose, Htrace. cbn [trace log].
rewrite <- !app_assoc. repeat split; assumption.
Qed.

End Handles.

(** ** What a write leaves behind, and what validation guarantees *)

Section WriterEffect.

Variable E : Env.
Hypothesis no_fault : forall n c, fault E n c = None.

Lemma follow_not_link (fuel : nat) (m : gmap string Node) (p : string) :
(forall t, m !! p <> Some (Symlink t)) -> follow fuel m p = Some p.
Proof.
intros H. destruct fuel; unfold follow; destruct (m !! p) as [[c | t |]|] eqn:Hp;
  try reflexivity; now destruct (H t).
Qed.

Lemma fs_writeFile_fresh (p content : string) (st : State) :
nodes st !! p = None ->
fs_writeFile E p content false st
= (Return tt, setNodes (<[p := File content]> (nodes st))
                (log (CWriteFile p content false) st)).
Proof.
intros H. unfold fs_writeFile. rewrite no_fault. cbv iota.
rewrite follow_not_link by (intros t; rewrite H; discriminate).
now rewrite H.
Qed.



(** The temporary file is written and renamed onto the target. *)
Lemma replaceAtomically_effect (tmp p content : string) (st : State) :
nodes st !! tmp = None ->
tmp <> p ->
replaceAtomically E tmp p content st
= match nodes st !! p with
  | Some Directory =>
      (Throw (errno "EISDIR"),
       setNodes (nodes st)
         (log (CUnlink tmp) (log (CRename tmp p) (log (CWriteFile tmp content false) st))))
  | _ =>
      (Return tt,
       setNodes (<[p := File content]> (nodes st))
         (log (CRename tmp p) (log (CWriteFile tmp content false) st)))
  end.
Proof.
intros Htmp Hne. unfold replaceAtomically.
unfold try_catch at 1.
rewrite (bind_return _ _ _ _ _ (fs_writeFile_fresh tmp content st Htmp)).
unfold fs_rename, syscall. rewrite no_fault.
cbn [nodes log setNodes].
rewrite lookup_insert_eq, (lookup_insert_ne _ _ _ _ Hne).
destruct (nodes st !! p) as [[c | t |]|] eqn:Hp.
- unfold setNodes, log. cbn [heap allowedDirectories nodes trace drawn].
  rewrite delete_insert_id by exact Htmp. reflexivity.
- unfold setNodes, log. cbn [heap allowedDirectories nodes trace drawn].
  rewrite delete_insert_id by exact Htmp. reflexivity.
- unfold bind, try_catch, fs_unlink, syscall, ret, throw. rewrite no_fault.
  cbn [nodes log setNodes]. rewrite lookup_insert_eq.
  unfold setNodes, log. cbn [heap allowedDirectories nodes trace drawn].
  rewrite delete_insert_id by exact Htmp. reflexivity.
- unfold setNodes, log. cbn [heap allowedDirectories nodes trace drawn].
  rewrite delete_insert_id by exact Htmp. reflexivity.
Qed.


Lemma fs_readFile_content (p raw : string) (st : State) :
fst (fs_readFile E p st) = Return raw ->
fs_readFile E p st = (Return raw, log (CReadFile p) st)
/\ nodes st !! p <> Some Directory.
Proof.
unfold fs_readFile, syscall. rewrite no_fault. cbn [nodes log].
destruct (nodes st !! p) as [[c | t |]|] eqn:Hp.
- rewrite follow_not_link by (intros t; rewrite Hp; discriminate).
  rewrite Hp. cbn. intros [= <-]. split; [reflexivity | discriminate].
- intros Hread. split; [|discriminate].
  destruct (follow 40 (nodes st) p) as [t'|]; [|discriminate].
  destruct (nodes st !! t') as [[c | t'' |]|]; try discriminate.
  cbn in Hread. injection Hread as <-. reflexivity.
- rewrite follow_not_link by (intros t; rewrite Hp; discriminate).
  rewrite Hp. discriminate.
- rewrite follow_not_link by (intros t; rewrite Hp; discriminate).
  rewrite Hp. discriminate.
Qed.

(** X4. Without failures of the environment: when the file is read, all
    edits apply and nothing sits at the temporary name, [applyFileEdits]
    without [dryRun] returns the fenced diff, its calls are the read, the
    write of the temporary file and its rename onto the target, and the
    files differ from the original ones only at [filePath], which holds
    the edited text with line endings normalised (also when no edit
    touches them) as a regular file. *)
Theorem applyFileEdits_replaces_the_file (st : State) (filePath raw modified : string)
  (edits : list FileEdit) :
fst (fs_readFile E filePath st) = Return raw ->
applyEdits (normalizeLineEndings raw) edits = inr modified ->
nodes st !! tempName filePath (randomHex E (drawn st)) = None ->
let tmp := tempName filePath (randomHex E (drawn st)) in
let result := applyFileEdits E filePath edits false st in
(exists numBackticks,
   fst result
   = Return (formatDiff (createUnifiedDiff E (normalizeLineEndings raw) modified filePath)
               numBackticks))
/\ nodes (snd result) = <[filePath := File modified]> (nodes st)
/\ trace (snd result)
   = trace st ++ [CReadFile filePath; CWriteFile tmp modified false; CRename tmp filePath].
Proof.
intros Hread Hedits Htmp tmp result.
destruct (fs_readFile_content _ _ _ Hread) as [Hread' Hnodir].
destruct (fenceLength_total
            (createUnifiedDiff E (normalizeLineEndings raw) modified filePath)
            (String.length
               (createUnifiedDiff E (normalizeLineEndings raw) modified filePath)) 3)
  as [k Hk]; [lia|].
assert (Hne : tmp <> filePath).
{ intros Heq. subst tmp. rewrite Heq in Htmp.
  destruct (nodes st !! filePath) as [n|] eqn:Hp; [congruence|].
  unfold fs_readFile, syscall in Hread'. rewrite no_fault in Hread'.
  cbn [nodes log] in Hread'.
  rewrite follow_not_link in Hread' by (intros t; rewrite Hp; discriminate).
  rewrite Hp in Hread'. discriminate. }
assert (Hres : result
               = (Return (formatDiff
                            (createUnifiedDiff E (normalizeLineEndings raw) modified filePath)
                            k),
                  setNodes (<[filePath := File modified]> (nodes st))
                    (log (CRename tmp filePath)
                       (log (CWriteFile tmp modified false)
                          (bump (log (CReadFile filePath) st)))))).
{ subst result. unfold applyFileEdits.
  rewrite (bind_return _ _ _ _ _ Hread'). rewrite Hedits, Hk. cbn [negb].
  assert (Hhex : randomBytesHex E (log (CReadFile filePath) st)
                 = (Return (randomHex E (drawn st)), bump (log (CReadFile filePath) st)))
    by reflexivity.
  unfold bind at 1. rewrite (bind_return _ _ _ _ _ Hhex). fold tmp.
  rewrite replaceAtomically_effect; [|exact Htmp | exact Hne].
  change (nodes (bump (log (CReadFile filePath) st))) with (nodes st).
  destruct (nodes st !! filePath) as [[c | t |]|]; try congruence; reflexivity. }
rewrite Hres. cbn [fst snd]. split; [eauto|]. split; [reflexivity|].
cbn. rewrite <- !app_assoc. reflexivity.
Qed.

End WriterEffect.

Section ValidateMore.

Variable E : Env.

(** X1. Whatever [validatePath] returns has been checked twice: the
    requested form is inside the allowed directories, and either the
    path resolves and the returned real path is inside them as well, or
    it does not exist (ENOENT), its parent resolves inside them, and the
    absolute unresolved path is returned.  The calls made are one
    [realpath] in the first case and two in the second. *)
Theorem validatePath_success_is_contained (st st' : State) (requestedPath r : string) :
validatePath E requestedPath st = (Return r, st') ->
let absolute := absolutePath E requestedPath in
Inside E (normalizePath E absolute) (allowed st)
/\ ((realpath E absolute = inr r
     /\ Inside E (normalizePath E r) (allowed st)
     /\ st' = log (CRealpath absolute) st)
    \/ (exists enoent realParent,
          realpath E absolute = inl enoent
          /\ codeIs enoent "ENOENT" = true
          /\ realpath E (path_dirname E absolute) = inr realParent
          /\ Inside E (normalizePath E realParent) (allowed st)
          /\ r = absolute
          /\ st' = log (CRealpath (path_dirname E absolute))
                     (log (CRealpath absolute) st))).
Proof.
intros Hrun absolute. subst absolute. revert Hrun.
unfold validatePath, bind, get, try_catch, fs_realpath, throw, ret; cbn beta iota.
destruct (isPathWithinAllowedDirectories E _ (allowed st)) eqn:Hin; cbn; [|discriminate].
apply within_true_iff in Hin. split; [exact Hin|]. revert Hrun.
destruct (realpath E (absolutePath E requestedPath)) as [e | real] eqn:Hreal; cbn.
- destruct (codeIs e "ENOENT") eqn:Hcode; cbn; [|discriminate].
  destruct (realpath E (path_dirname E (absolutePath E requestedPath)))
    as [e' | parent] eqn:Hparent; cbn; [discriminate|].
  change (allowed (log _ (log _ st))) with (allowed st).
  destruct (isPathWithinAllowedDirectories E _ (allowed st)) eqn:Hin'; cbn; [|discriminate].
  apply within_true_iff in Hin'. intros [= <- <-].
  right. exists e, parent. auto 10.
- change (allowed (log _ st)) with (allowed st).
  destruct (isPathWithinAllowedDirectories E _ (allowed st)) eqn:Hin'; cbn; [|discriminate].
  apply within_true_iff in Hin'. intros [= <- <-]. left. auto.
Qed.

(** X2. An error of [realpath] other than ENOENT (permission denied, a
    loop of links) on a path whose requested form is inside the allowed
    directories is rethrown unchanged after that single call: the parent
    is not looked at. *)
Theorem validatePath_rethrows_resolution_errors (st : State) (requestedPath : string) (e : JsError) :
Inside E (normalizePath E (absolutePath E requestedPath)) (allowed st) ->
realpath E (absolutePath E requestedPath) = inl e ->
codeIs e "ENOENT" = false ->
validatePath E requestedPath st
= (Throw e, log (CRealpath (absolutePath E requestedPath)) st).
Proof.
intros Hin Hreal Hcode. apply within_true_iff in Hin.
unfold validatePath, bind, get, try_catch, fs_realpath, throw, ret; cbn beta iota.
rewrite Hin, Hreal. cbn. now rewrite Hcode.
Qed.

End ValidateMore.

(** ** The recursive walk *)

Section Walk.

Variable E : Env.

Lemma validatePath_keeps (p : string) (st : State) :
allowed (snd (validatePath E p st)) = allowed st
/\ nodes (snd (validatePath E p st)) = nodes st
/\ fst (validatePath E p st) <> Diverge
/\ exists calls,
     trace (snd (validatePath E p st)) = trace st ++ calls
     /\ Forall (fun c => isReaddir c = false) calls.
Proof.
destruct (validatePath_calls E p st) as (calls & Htrace & Hcalls & Htotal).
assert (Hkeep : allowed (snd (validatePath E p st)) = allowed st
                /\ nodes (snd (validatePath E p st)) = nodes st).
{ unfold validatePath, bind, get, try_catch, fs_realpath, throw, ret; cbn beta iota.
  destruct (isPathWithinAllowedDirectories E _ (allowed st)); cbn; [|split; reflexivity].
  destruct (realpath E (absolutePath E p)) as [e | real]; cbn.
  - destruct (codeIs e "ENOENT"); cbn; [|split; reflexivity].
    destruct (realpath E (path_dirname E (absolutePath E p))) as [e' | parent]; cbn;
      [split; reflexivity|].
    destruct (isPathWithinAllowedDirectories E _ _); split; reflexivity.
  - destruct (isPathWithinAllowedDirectories E _ _); split; reflexivity. }
destruct Hkeep as [Ha Hn]. repeat split; try assumption. eauto.
Qed.

Lemma passes_outcome (p : string) (st : State) :
passes E p st
= (Return (match fst (validatePath E p st) with Return _ => true | _ => false end),
   snd (validatePath E p st)).
Proof.
unfold passes, try_catch, bind, ret.
destruct (validatePath_keeps p st) as (_ & _ & Htotal & _).
destruct (validatePath E p st) as [[real | e |] st1]; cbn in *; congruence.
Qed.

Variables (rootPath pattern : string) (excludePatterns : list string) (st0 : State).

Local Abbreviation cleared := (Cleared E rootPath excludePatterns st0).
Local Abbreviation hit := (WalkHit E rootPath pattern excludePatterns st0).
Local Abbreviation lists := (ListsCleared E rootPath excludePatterns st0).
Local Abbreviation step := (WalkStep E rootPath pattern excludePatterns st0).

Lemma lists_quiet (calls : list FsCall) :
Forall (fun c => isReaddir c = false) calls -> lists calls.
Proof.
intros H. eapply Forall_impl; [exact H|]. intros [] Hc; try exact I. discriminate.
Qed.

Lemma step_ret (results : list string) (st : State) :
allowed st = allowed st0 -> step results st (Return results, st).
Proof.
intros Hallowed. split; [|split; [exact Hallowed|]].
- exists []. rewrite app_nil_r. split; [reflexivity | constructor].
- intros ? [= <-]. exists []. rewrite app_nil_r. split; [reflexivity | constructor].
Qed.

Lemma step_chain (results results1 : list string) (st st1 : State)
  (calls : list FsCall) (more : list string) (r : Outcome (list string) * State) :
trace st1 = trace st ++ calls -> lists calls ->
results1 = results ++ more -> Forall hit more ->
step results1 st1 r -> step results st r.
Proof.
intros Htrace Hcalls -> Hmore ((calls' & Htrace' & Hcalls') & Hallowed & Hret).
split; [|split; [exact Hallowed|]].
- exists (calls ++ calls'). rewrite Htrace', Htrace, app_assoc.
  split; [reflexivity | now apply Forall_app_2].
- intros results' Hr. destruct (Hret results' Hr) as (more' & -> & Hmore').
  exists (more ++ more'). rewrite app_assoc. split; [reflexivity|].
  now apply Forall_app_2.
Qed.

Lemma step_stuck (results : list string) (st st1 : State) (calls : list FsCall)
  (o : Outcome (list string)) :
trace st1 = trace st ++ calls -> lists calls -> allowed st1 = allowed st0 ->
(forall results', o <> Return results') ->
step results st (o, st1).
Proof.
intros Htrace Hcalls Hallowed Hno. split; [eauto|]. split; [exact Hallowed|].
intros results' Hr. now destruct (Hno results').
Qed.

Lemma cleared_at (st : State) (p real : string) :
allowed st = allowed st0 ->
fst (validatePath E p st) = Return real ->
exists real, fst (validatePath E p st0) = Return real.
Proof.
intros Hallowed Hreal.
exists real. rewrite <- Hreal. symmetry.
now apply validatePath_depends_on_allowed.
Qed.

Lemma walkEntries_step (recur : string -> list string -> M (list string))
  (currentPath : string) (entries : list Dirent) :
(forall path results st,
   cleared path -> allowed st = allowed st0 -> step results st (recur path results st)) ->
forall results st,
  allowed st = allowed st0 ->
  step results st
    (walkEntries E recur rootPath pattern excludePatterns currentPath entries results st).
Proof.
intros Hrecur. induction entries as [|entry rest IH]; intros results st Hallowed.
- now apply step_ret.
- cbn [walkEntries].
  set (fullPath := path_join E currentPath (d_name entry)).
  rewrite (bind_return _ _ _ _ _ (passes_outcome fullPath st)).
  destruct (validatePath_keeps fullPath st) as (Hkeep & _ & _ & calls & Htrace & Hquiet).
  assert (Hallowed1 : allowed (snd (validatePath E fullPath st)) = allowed st0)
    by congruence.
  pose proof (lists_quiet calls Hquiet) as Hcalls.
  assert (Hskip : step results st
                    (walkEntries E recur rootPath pattern excludePatterns currentPath rest
                       results (snd (validatePath E fullPath st)))).
  { apply (step_chain results results st (snd (validatePath E fullPath st)) calls []);
      try assumption.
    - now rewrite app_nil_r.
    - constructor.
    - now apply IH. }
  destruct (fst (validatePath E fullPath st)) as [real | e |] eqn:Hvalid;
    try exact Hskip.
  destruct (shouldExclude E (path_relative E rootPath fullPath) excludePatterns)
    eqn:Hexcl; [exact Hskip|].
  assert (Hcleared : cleared fullPath).
  { split; [|exact Hexcl]. now apply (cleared_at st _ real). }
  set (results1 := if minimatch E (path_relative E rootPath fullPath) pattern true
                   then results ++ [fullPath] else results).
  assert (Hone : exists more, results1 = results ++ more /\ Forall hit more).
  { subst results1.
    destruct (minimatch E (path_relative E rootPath fullPath) pattern true) eqn:Hm.
    - exists [fullPath]. split; [reflexivity|]. constructor; [|constructor].
      split; assumption.
    - exists []. rewrite app_nil_r. split; [reflexivity | constructor]. }
  destruct Hone as (more & Hone & Hmore).
  destruct (d_isDirectory entry).
  2:{ apply (step_chain results results1 st (snd (validatePath E fullPath st)) calls more);
        try assumption.
      now apply IH. }
  pose proof (Hrecur fullPath results1 _ Hcleared Hallowed1)
    as ((calls' & Htrace' & Hcalls') & Hallowed' & Hret).
  unfold bind at 1. unfold try_catch, ret.
  destruct (recur fullPath results1 (snd (validatePath E fullPath st)))
    as [[results2 | e |] st2] eqn:Hrun; cbn [fst snd] in *.
  + destruct (Hret results2 eq_refl) as (more' & -> & Hmore').
    apply (step_chain results (results1 ++ more') st st2 (calls ++ calls') (more ++ more')).
    * rewrite Htrace', Htrace, app_assoc. reflexivity.
    * now apply Forall_app_2.
    * rewrite Hone, app_assoc. reflexivity.
    * now apply Forall_app_2.
    * now apply IH.
  + apply (step_chain results results1 st st2 (calls ++ calls') more); try assumption.
    * rewrite Htrace', Htrace, app_assoc. reflexivity.
    * now apply Forall_app_2.
    * now apply IH.
  + apply (step_stuck results st st2 (calls ++ calls')); try assumption.
    * rewrite Htrace', Htrace, app_assoc. reflexivity.
    * now apply Forall_app_2.
    * discriminate.
Qed.

Lemma search_step (fuel : nat) :
forall currentPath results st,
  currentPath = rootPath \/ cleared currentPath ->
  allowed st = allowed st0 ->
  step results st (search E fuel rootPath pattern excludePatterns currentPath results st).
Proof.
induction fuel as [|fuel IH]; intros currentPath results st Hpath Hallowed.
- apply (step_stuck results st st []); try assumption.
  + now rewrite app_nil_r.
  + constructor.
  + discriminate.
- cbn [search]. unfold bind, fs_readdir.
  assert (Hlist : lists [CReaddir currentPath]) by (constructor; [exact Hpath | constructor]).
  destruct (readdir E currentPath) as [e | entries].
  + apply (step_stuck results st (log (CReaddir currentPath) st) [CReaddir currentPath]);
      try assumption;
      [reflexivity | discriminate].
  + apply (step_chain results results st (log (CReaddir currentPath) st)
             [CReaddir currentPath] []); try assumption.
    * reflexivity.
    * now rewrite app_nil_r.
    * constructor.
    * apply walkEntries_step; [|exact Hallowed].
      intros path results' st' Hcleared Hallowed'. apply IH; [now right | exact Hallowed'].
Qed.

Lemma walkEntries_no_throw (recur : string -> list string -> M (list string))
  (currentPath : string) (entries : list Dirent) (results : list string) (st : State)
  (e : JsError) :
fst (walkEntries E recur rootPath pattern excludePatterns currentPath entries results st)
<> Throw e.
Proof.
revert results st. induction entries as [|entry rest IH]; intros results st; [discriminate|].
cbn [walkEntries].
rewrite (bind_return _ _ _ _ _ (passes_outcome _ st)).
destruct (fst (validatePath E _ st)); try apply IH.
destruct (shouldExclude E _ excludePatterns); [apply IH|].
destruct (d_isDirectory entry); [|apply IH].
unfold bind at 1. unfold try_catch, ret.
destruct (recur _ _ _) as [[results2 | e' |] st2]; [apply IH | apply IH | discriminate].
Qed.

Lemma walkEntries_all_denied (recur : string -> list string -> M (list string))
  (currentPath : string) (entries : list Dirent) (results : list string) (st : State) :
allowed st = [] ->
walkEntries E recur rootPath pattern excludePatterns currentPath entries results st
= (Return results, st).
Proof.
intros Hempty. induction entries as [|entry rest IH]; [reflexivity|].
cbn [walkEntries].
assert (Hdenied : passes E (path_join E currentPath (d_name entry)) st = (Return false, st)).
{ unfold passes, validatePath, try_catch, bind, get, throw, ret. cbn beta iota.
  rewrite Hempty. reflexivity. }
rewrite (bind_return _ _ _ _ _ Hdenied). exact IH.
Qed.

End Walk.

(** ** The index tier (second revision) *)

Lemma includes_char (s : string) (c : ascii) :
Js.includes s (String c EmptyString) = occurs c s.
Proof.
induction s as [|d s IH]; [reflexivity|].
change (Js.includes (String d s) (String c ""))
  with (String.prefix (String c "") (String d s) || Js.includes s (String c "")).
rewrite IH. cbn [occurs String.prefix]. f_equal.
destruct (ascii_dec c d) as [-> | Hne].
- rewrite Ascii.eqb_refl. now destruct s.
- symmetry. apply Ascii.eqb_neq. congruence.
Qed.

Lemma includes_cons (c : ascii) (s sub : string) :
Js.includes (String c s) sub = String.prefix sub (String c s) || Js.includes s sub.
Proof. reflexivity. Qed.

Lemma includes_empty (sub : string) :
Js.includes EmptyString sub = String.prefix sub EmptyString.
Proof. unfold Js.includes. apply orb_false_r. Qed.

Lemma includes_tail (c : ascii) (s sub : string) :
Js.includes (String c s) sub = false -> Js.includes s sub = false.
Proof. rewrite includes_cons. intros H. now apply orb_false_iff in H. Qed.

Lemma includes_dropSlashes (s sub : string) :
Js.includes s sub = false -> Js.includes (dropSlashes s) sub = false.
Proof.
induction s as [|c s IH]; intros H; [exact H|].
cbn [dropSlashes]. destruct (Ascii.eqb c "/"); [|exact H].
apply IH. now apply includes_tail in H.
Qed.

Lemma includes_prefix (s sub : string) :
String.prefix sub s = true -> Js.includes s sub = true.
Proof.
intros H. destruct s as [|c s]; [now rewrite includes_empty|].
now rewrite includes_cons, H.
Qed.

Lemma withoutJoints_dropSlashes (s : string) :
withoutJoints (dropSlashes s) = withoutJoints s.
Proof.
induction s as [|c s IH]; [reflexivity|].
cbn [dropSlashes]. destruct (Ascii.eqb c "/") eqn:Hc; [|reflexivity].
cbn [withoutJoints]. unfold isGlobJoint. now rewrite Hc.
Qed.

Lemma withoutJoints_after_globstar (s : string) :
Js.startsWith s "**" = true -> withoutJoints (Js.drop 2 s) = withoutJoints s.
Proof.
unfold Js.startsWith. intros H.
destruct s as [|a [|b s]]; cbn [String.prefix] in H; try discriminate.
- destruct (ascii_dec "*" a); discriminate.
- destruct (ascii_dec "*" a) as [<- |]; [|discriminate].
  destruct (ascii_dec "*" b) as [<- |]; [|discriminate].
  reflexivity.
Qed.

Lemma startsWith_shorter (s : string) :
Js.startsWith s "**/" = true -> Js.startsWith s "**" = true.
Proof.
unfold Js.startsWith. intros H.
destruct s as [|a [|b s]]; cbn [String.prefix] in *; try discriminate.
- destruct (ascii_dec "*" a); discriminate.
- destruct (ascii_dec "*" a); [|discriminate].
  destruct (ascii_dec "*" b); [|discriminate].
  now destruct s.
Qed.

Lemma withoutJoints_stripTrailingGlobstar (s : string) :
withoutJoints (stripTrailingGlobstar s) = withoutJoints s.
Proof.
induction s as [|c s IH]; [reflexivity|].
cbn [stripTrailingGlobstar].
destruct (Ascii.eqb c "/" && String.eqb (dropSlashes (String c s)) "**") eqn:Hcut.
- apply andb_true_iff in Hcut as [_ Hrest]. apply String.eqb_eq in Hrest.
  rewrite <- (withoutJoints_dropSlashes (String c s)), Hrest. reflexivity.
- cbn [withoutJoints]. now rewrite IH.
Qed.

Lemma withoutJoints_removeGlobstarSlash (fuel : nat) (s : string) :
withoutJoints (removeGlobstarSlash fuel s) = withoutJoints s.
Proof.
revert s. induction fuel as [|fuel IH]; intros s; [reflexivity|].
cbn [removeGlobstarSlash]. destruct s as [|c s]; [reflexivity|].
destruct (Js.startsWith (String c s) "**/") eqn:Hstart.
- rewrite IH, withoutJoints_dropSlashes.
  apply withoutJoints_after_globstar, startsWith_shorter, Hstart.
- cbn [withoutJoints]. now rewrite IH.
Qed.

Lemma withoutJoints_removeSlashGlobstar (fuel : nat) (s : string) :
withoutJoints (removeSlashGlobstar fuel s) = withoutJoints s.
Proof.
revert s. induction fuel as [|fuel IH]; intros s; [reflexivity|].
cbn [removeSlashGlobstar]. destruct s as [|c s]; [reflexivity|].
destruct (Ascii.eqb c "/" && Js.startsWith (dropSlashes (String c s)) "**") eqn:Hcut.
- apply andb_true_iff in Hcut as [_ Hstart].
  rewrite IH, (withoutJoints_after_globstar _ Hstart).
  apply withoutJoints_dropSlashes.
- cbn [withoutJoints]. now rewrite IH.
Qed.

Lemma occurs_withoutJoints (c : ascii) (s : string) :
isGlobJoint c = false -> occurs c (withoutJoints s) = occurs c s.
Proof.
intros Hc. induction s as [|d s IH]; [reflexivity|].
cbn [withoutJoints occurs]. destruct (isGlobJoint d) eqn:Hd.
- rewrite IH. destruct (Ascii.eqb d c) eqn:Heq; [|reflexivity].
  apply Ascii.eqb_eq in Heq. congruence.
- cbn [occurs]. now rewrite IH.
Qed.

(** The text handed to the checks of [preparePatternForPlocate]. *)
Lemma converted_withoutJoints (globPattern : string) :
let s1 := if Js.startsWith globPattern "**/" then dropSlashes (Js.drop 2 globPattern)
          else globPattern in
let s2 := stripTrailingGlobstar s1 in
let s3 := removeGlobstarSlash (String.length s2) s2 in
withoutJoints (removeSlashGlobstar (String.length s3) s3) = withoutJoints globPattern.
Proof.
cbv zeta.
rewrite withoutJoints_removeSlashGlobstar, withoutJoints_removeGlobstarSlash,
  withoutJoints_stripTrailingGlobstar.
destruct (Js.startsWith globPattern "**/") eqn:Hstart; [|reflexivity].
rewrite withoutJoints_dropSlashes.
apply withoutJoints_after_globstar, startsWith_shorter, Hstart.
Qed.

Lemma stripTrailingGlobstar_id (s : string) :
Js.includes s "**" = false -> stripTrailingGlobstar s = s.
Proof.
induction s as [|c s IH]; intros H; [reflexivity|].
cbn [stripTrailingGlobstar].
destruct (Ascii.eqb c "/" && String.eqb (dropSlashes (String c s)) "**") eqn:Hcut.
- apply andb_true_iff in Hcut as [_ Hrest]. apply String.eqb_eq in Hrest.
  apply (includes_dropSlashes _ "**") in H. rewrite Hrest in H. discriminate.
- f_equal. apply IH. now apply includes_tail in H.
Qed.

Lemma removeGlobstarSlash_id (fuel : nat) (s : string) :
Js.includes s "**" = false -> removeGlobstarSlash fuel s = s.
Proof.
revert s. induction fuel as [|fuel IH]; intros s H; [reflexivity|].
cbn [removeGlobstarSlash]. destruct s as [|c s]; [reflexivity|].
destruct (Js.startsWith (String c s) "**/") eqn:Hstart.
- apply startsWith_shorter, includes_prefix in Hstart. congruence.
- f_equal. apply IH. now apply includes_tail in H.
Qed.

Lemma removeSlashGlobstar_id (fuel : nat) (s : string) :
Js.includes s "**" = false -> removeSlashGlobstar fuel s = s.
Proof.
revert s. induction fuel as [|fuel IH]; intros s H; [reflexivity|].
cbn [removeSlashGlobstar]. destruct s as [|c s]; [reflexivity|].
destruct (Ascii.eqb c "/" && Js.startsWith (dropSlashes (String c s)) "**") eqn:Hcut.
- apply andb_true_iff in Hcut as [_ Hstart].
  apply includes_prefix in Hstart.
  apply (includes_dropSlashes _ "**") in H. congruence.
- f_equal. apply IH. now apply includes_tail in H.
Qed.

Lemma jd_refl (s : string) : JointsDeleted s s.
Proof. induction s; now constructor. Qed.

Lemma jd_trans (a b c : string) :
JointsDeleted a b -> JointsDeleted b c -> JointsDeleted a c.
Proof.
intros Hab. revert c. induction Hab as [| x p q Hpq IH | x p q Hx Hpq IH]; intros c Hbc.
- exact Hbc.
- inversion Hbc as [| y q1 q2 Hq | y q1 q2 Hy Hq]; subst.
  + apply jd_keep. now apply IH.
  + apply jd_drop; [exact Hy | now apply IH].
- apply jd_drop; [exact Hx | now apply IH].
Qed.

Lemma jd_all (s : string) : withoutJoints s = EmptyString -> JointsDeleted s EmptyString.
Proof.
induction s as [|c s IH]; [constructor|].
cbn [withoutJoints]. destruct (isGlobJoint c) eqn:Hc; [|discriminate].
intros H. apply jd_drop; [exact Hc | now apply IH].
Qed.

Lemma jd_dropSlashes (s : string) : JointsDeleted s (dropSlashes s).
Proof.
induction s as [|c s IH]; [constructor|].
cbn [dropSlashes]. destruct (Ascii.eqb c "/") eqn:Hc; [|apply jd_refl].
apply jd_drop; [|exact IH]. unfold isGlobJoint. now rewrite Hc.
Qed.

Lemma jd_after_globstar (s : string) :
Js.startsWith s "**" = true -> JointsDeleted s (Js.drop 2 s).
Proof.
unfold Js.startsWith. intros H.
destruct s as [|a [|b s]]; cbn [String.prefix] in H; try discriminate.
- destruct (ascii_dec "*" a); discriminate.
- destruct (ascii_dec "*" a) as [<- |]; [|discriminate].
  destruct (ascii_dec "*" b) as [<- |]; [|discriminate].
  cbn [Js.drop]. do 2 (apply jd_drop; [reflexivity|]). apply jd_refl.
Qed.

Lemma jd_stripTrailingGlobstar (s : string) : JointsDeleted s (stripTrailingGlobstar s).
Proof.
induction s as [|c s IH]; [constructor|].
cbn [stripTrailingGlobstar].
destruct (Ascii.eqb c "/" && String.eqb (dropSlashes (String c s)) "**") eqn:Hcut.
- apply andb_true_iff in Hcut as [_ Hrest]. apply String.eqb_eq in Hrest.
  apply jd_all. rewrite <- (withoutJoints_dropSlashes (String c s)), Hrest. reflexivity.
- now apply jd_keep.
Qed.

Lemma jd_removeGlobstarSlash (fuel : nat) (s : string) :
JointsDeleted s (removeGlobstarSlash fuel s).
Proof.
revert s. induction fuel as [|fuel IH]; intros s; [apply jd_refl|].
cbn [removeGlobstarSlash]. destruct s as [|c s]; [constructor|].
destruct (Js.startsWith (String c s) "**/") eqn:Hstart.
- eapply jd_trans; [apply jd_after_globstar, startsWith_shorter, Hstart|].
  eapply jd_trans; [apply jd_dropSlashes | apply IH].
- apply jd_keep, IH.
Qed.

Lemma jd_removeSlashGlobstar (fuel : nat) (s : string) :
JointsDeleted s (removeSlashGlobstar fuel s).
Proof.
revert s. induction fuel as [|fuel IH]; intros s; [apply jd_refl|].
cbn [removeSlashGlobstar]. destruct s as [|c s]; [constructor|].
destruct (Ascii.eqb c "/" && Js.startsWith (dropSlashes (String c s)) "**") eqn:Hcut.
- apply andb_true_iff in Hcut as [_ Hstart].
  eapply jd_trans; [apply jd_dropSlashes|].
  eapply jd_trans; [apply jd_after_globstar, Hstart | apply IH].
- apply jd_keep, IH.
Qed.

Lemma dropSlashes_id (s : string) :
Js.startsWith s "/" = false -> dropSlashes s = s.
Proof.
destruct s as [|c s]; [reflexivity|].
unfold Js.startsWith. cbn [String.prefix dropSlashes].
destruct (Ascii.eqb c "/") eqn:Hc; [|reflexivity].
apply Ascii.eqb_eq in Hc. subst c.
destruct (ascii_dec "/" "/"); [now destruct s | contradiction].
Qed.

(** What the function does to a pattern the conversion leaves alone. *)
Lemma preparePatternForPlocate_plain (s1 : string) (globPattern : string) :
(if Js.startsWith globPattern "**/" then dropSlashes (Js.drop 2 globPattern)
 else globPattern) = s1 ->
Js.includes s1 "**" = false ->
preparePatternForPlocate globPattern = if beyondPlocate s1 then None else Some s1.
Proof.
intros Hs1 Hfree. unfold preparePatternForPlocate. cbv zeta. rewrite Hs1.
rewrite (stripTrailingGlobstar_id _ Hfree), (removeGlobstarSlash_id _ _ Hfree),
  (removeSlashGlobstar_id _ _ Hfree).
reflexivity.
Qed.

(** X17. What [preparePatternForPlocate] hands to the index.  A
    translated pattern is the given one with some of its slashes and
    stars deleted and nothing else changed, contains no "**" and is
    neither empty nor a lone slash; a pattern containing a brace or a
    backslash has no translation.  A pattern without "**" is handed
    over unchanged unless the final test refuses it, and so is what
    follows a leading "**/". *)
Theorem preparePatternForPlocate_deletes_only_joints (globPattern : string) :
(forall q, preparePatternForPlocate globPattern = Some q ->
   JointsDeleted globPattern q
   /\ Js.includes q "**" = false /\ q <> "" /\ q <> "/")
/\ (occurs "{" globPattern = true \/ occurs "\" globPattern = true ->
    preparePatternForPlocate globPattern = None)
/\ (Js.includes globPattern "**" = false ->
    preparePatternForPlocate globPattern
    = if beyondPlocate globPattern then None else Some globPattern)
/\ (forall rest,
      globPattern = "**/" +:+ rest ->
      Js.includes rest "**" = false -> Js.startsWith rest "/" = false ->
      preparePatternForPlocate globPattern
      = if beyondPlocate rest then None else Some rest).
Proof.
pose proof (converted_withoutJoints globPattern) as Hcore. cbv zeta in Hcore.
split; [|split; [|split]].
- intros q. unfold preparePatternForPlocate. cbv zeta.
  assert (Hdel : JointsDeleted globPattern
                   (let s1 := if Js.startsWith globPattern "**/"
                              then dropSlashes (Js.drop 2 globPattern) else globPattern in
                    let s2 := stripTrailingGlobstar s1 in
                    let s3 := removeGlobstarSlash (String.length s2) s2 in
                    removeSlashGlobstar (String.length s3) s3)).
  { cbv zeta.
    eapply jd_trans; [|apply jd_removeSlashGlobstar].
    eapply jd_trans; [|apply jd_removeGlobstarSlash].
    eapply jd_trans; [|apply jd_stripTrailingGlobstar].
    destruct (Js.startsWith globPattern "**/") eqn:Hstart; [|apply jd_refl].
    eapply jd_trans; [apply jd_after_globstar, startsWith_shorter, Hstart|].
    apply jd_dropSlashes. }
  cbv zeta in Hdel. revert Hdel.
  match goal with |- context [Js.includes ?conv "**"] => set (converted := conv) in * end.
  intros Hdel.
  destruct (Js.includes converted "**") eqn:H1; [discriminate|].
  destruct (Js.includes converted "{"); [discriminate|].
  destruct (Js.includes converted "!("); [discriminate|].
  destruct (Js.includes converted "?("); [discriminate|].
  destruct (Js.includes converted "*("); [discriminate|].
  destruct (Js.includes converted "+("); [discriminate|].
  destruct (Js.includes converted "@("); [discriminate|].
  destruct (String.eqb converted "") eqn:H2; [discriminate|].
  destruct (String.eqb converted "/") eqn:H3; [discriminate|].
  destruct (Js.startsWith converted "!"); [discriminate|].
  destruct (Js.includes converted "\"); [discriminate|].
  cbn. intros [= <-]. apply String.eqb_neq in H2, H3. auto.
- intros Hbad. unfold preparePatternForPlocate. cbv zeta.
  match goal with |- context [Js.includes ?conv "**"] => set (converted := conv) in * end.
  assert (Hkept : forall c, isGlobJoint c = false ->
                    occurs c converted = occurs c globPattern).
  { intros c Hc. rewrite <- (occurs_withoutJoints c converted Hc), Hcore.
    now apply occurs_withoutJoints. }
  destruct Hbad as [Hb | Hb].
  + rewrite (includes_char converted "{"), (Hkept "{"%char eq_refl), Hb.
    now rewrite orb_true_r.
  + rewrite (includes_char converted "\"), (Hkept "\"%char eq_refl), Hb.
    now rewrite !orb_true_r.
- intros Hfree. apply preparePatternForPlocate_plain; [|exact Hfree].
  destruct (Js.startsWith globPattern "**/") eqn:Hs; [|reflexivity].
  apply startsWith_shorter, includes_prefix in Hs. congruence.
- intros rest -> Hfree Hslash. apply preparePatternForPlocate_plain; [|exact Hfree].
  unfold Js.startsWith. rewrite prefix_app.
  change (Js.drop 2 ("**/" +:+ rest)) with (String "/" rest).
  cbn [dropSlashes]. change (Ascii.eqb "/" "/") with true. cbv iota.
  now apply dropSlashes_id.
Qed.

Section IndexTier.

Variable E : Env.

Lemma fs_access_logs (p : string) (st : State) :
snd (fs_access E p st) = log (CAccess p) st
/\ fst (fs_access E p st) <> Diverge.
Proof.
unfold fs_access, syscall.
destruct (fault E (length (trace st)) (CAccess p)); [split; [reflexivity | discriminate]|].
cbn. destruct (follow 40 (nodes st) p) as [t|]; [|split; [reflexivity | discriminate]].
destruct (nodes st !! t); split; try reflexivity; discriminate.
Qed.

Lemma isPlocateAvailable_outcome (st : State) :
isPlocateAvailable E st
= match fst (fs_access E (plocateDb E) st) with
  | Return _ =>
      match execFile E "plocate" ["--version"] with
      | inr _ => (Return true,
                  log (CExec "plocate" ["--version"]) (log (CAccess (plocateDb E)) st))
      | inl _ => (Return false,
                  log (CExec "plocate" ["--version"]) (log (CAccess (plocateDb E)) st))
      end
  | _ => (Return false, log (CAccess (plocateDb E)) st)
  end.
Proof.
unfold isPlocateAvailable, try_catch, bind, ret.
destruct (fs_access_logs (plocateDb E) st) as [Hlog Htotal].
destruct (fs_access E (plocateDb E) st) as [[[] | e |] st1]; cbn in *; subst;
  [| reflexivity | congruence].
unfold execFileAsync. destruct (execFile E "plocate" ["--version"]); reflexivity.
Qed.

Variables (rootPath : string) (excludePatterns : list string) (st0 : State).

Lemma keepIndexed_kept (allPaths : list string) :
forall (results : list string) (st : State),
allowed st = allowed st0 ->
exists kept st',
  keepIndexed E rootPath excludePatterns allPaths results st = (Return (results ++ kept), st')
  /\ allowed st' = allowed st0
  /\ kept `sublist_of` allPaths
  /\ Forall (fun q => UnderRoot E rootPath q /\ Cleared E rootPath excludePatterns st0 q) kept.
Proof.
induction allPaths as [|filePath rest IH]; intros results st Hallowed.
- exists [], st. rewrite app_nil_r. repeat split; try assumption; constructor.
- cbn [keepIndexed].
  assert (Hskip : forall st1, allowed st1 = allowed st0 ->
            exists kept st',
              keepIndexed E rootPath excludePatterns rest results st1
              = (Return (results ++ kept), st')
              /\ allowed st' = allowed st0
              /\ kept `sublist_of` filePath :: rest
              /\ Forall (fun q => UnderRoot E rootPath q
                                  /\ Cleared E rootPath excludePatterns st0 q) kept).
  { intros st1 Hallowed1.
    destruct (IH results st1 Hallowed1) as (kept & st' & Hrun & Ha & Hsub & Hall).
    exists kept, st'. repeat split; try assumption. now apply sublist_cons. }
  destruct (negb (String.eqb (normalizePath E filePath) (normalizePath E rootPath))
            && negb (Js.startsWith (normalizePath E filePath)
                       (if Js.endsWith (normalizePath E rootPath) "/"
                        then normalizePath E rootPath
                        else normalizePath E rootPath +:+ "/"))) eqn:Hout;
    [now apply Hskip|].
  assert (Hunder : UnderRoot E rootPath filePath).
  { unfold UnderRoot. cbv zeta. apply andb_false_iff in Hout as [H | H].
    - left. apply negb_false_iff in H. now apply String.eqb_eq.
    - right. now apply negb_false_iff in H. }
  rewrite (bind_return _ _ _ _ _ (passes_outcome E filePath st)).
  destruct (validatePath_keeps E filePath st) as (Hkeep & _).
  assert (Hallowed1 : allowed (snd (validatePath E filePath st)) = allowed st0)
    by congruence.
  destruct (fst (validatePath E filePath st)) as [real | e |] eqn:Hvalid;
    try (now apply Hskip).
  destruct (shouldExclude E (path_relative E rootPath filePath) excludePatterns)
    eqn:Hexcl; [now apply Hskip|].
  destruct (IH (results ++ [filePath]) _ Hallowed1) as (kept & st' & Hrun & Ha & Hsub & Hall).
  exists (filePath :: kept), st'. rewrite Hrun, <- app_assoc.
  repeat split; try assumption.
  + now apply sublist_skip.
  + constructor; [|exact Hall]. split; [exact Hunder|]. split; [|exact Hexcl].
    now apply (cleared_at E st0 st filePath real).
Qed.

End IndexTier.

(** ** Parsing the output of [rg] (second revision) *)

Lemma hasLineTerminator_app (a b : string) :
hasLineTerminator (a +:+ b) = hasLineTerminator a || hasLineTerminator b.
Proof.
induction a as [|c a IH]; app_step; [reflexivity|].
cbn [hasLineTerminator]. now rewrite IH, orb_assoc.
Qed.

Lemma digit_not_terminator (c : ascii) : isDigit c = true -> isLineTerminator c = false.
Proof.
unfold isDigit, isLineTerminator. intros H.
apply andb_true_iff in H as [Hlo _]. apply Nat.leb_le in Hlo.
apply orb_false_iff. split; apply Ascii.eqb_neq; intros ->; vm_compute in Hlo; lia.
Qed.

Lemma digits_no_terminator (ds : string) :
allDigits ds = true -> hasLineTerminator ds = false.
Proof.
induction ds as [|c ds IH]; [reflexivity|].
cbn [allDigits hasLineTerminator]. intros H. apply andb_true_iff in H as [Hc Hds].
now rewrite (digit_not_terminator c Hc), (IH Hds).
Qed.

Lemma spanDigits_all (ds rest : string) (c : ascii) :
allDigits ds = true -> isDigit c = false ->
spanDigits (ds +:+ String c rest) = (ds, String c rest).
Proof.
intros Hds Hc. induction ds as [|d ds IH]; app_step.
- cbn [spanDigits]. now rewrite Hc.
- cbn [allDigits] in Hds. apply andb_true_iff in Hds as [Hd Hds].
  cbn [spanDigits]. rewrite Hd, (IH Hds). reflexivity.
Qed.

Lemma numberAndContent_line (ds text : string) :
ds <> EmptyString -> allDigits ds = true ->
numberAndContent (ds +:+ String ":" text) = Some (ds, text).
Proof.
intros Hne Hds. unfold numberAndContent.
rewrite (spanDigits_all ds text ":" Hds eq_refl).
destruct ds; [contradiction | reflexivity].
Qed.

Lemma shortestName_line (name ds text : string) :
occurs ":" name = false -> ds <> EmptyString -> allDigits ds = true ->
shortestName (name +:+ String ":" (ds +:+ String ":" text)) = Some (name, ds, text).
Proof.
intros Hname Hne Hds. induction name as [|c name IH]; app_step.
- cbn [shortestName]. rewrite Ascii.eqb_refl.
  now rewrite (numberAndContent_line ds text Hne Hds).
- cbn [occurs] in Hname. apply orb_false_iff in Hname as [Hc Hname].
  cbn [shortestName]. rewrite Hc, (IH Hname). reflexivity.
Qed.

(** X19. The parser of [rg]'s output inverts the format
    file:line:text: for a non-empty file name without colon, a non-empty
    run of digits and any text (none of them containing a line
    terminator) the printed line is split back into exactly these three
    parts, colons inside the text included. *)
Theorem ripgrep_line_round_trip (filePath ds text : string) :
filePath <> EmptyString ->
occurs ":" filePath = false ->
hasLineTerminator filePath = false ->
hasLineTerminator text = false ->
ds <> EmptyString -> allDigits ds = true ->
matchRgLine (rgLine filePath ds text) = Some (filePath, ds, text).
Proof.
intros Hfile Hcolon Hf Ht Hne Hds. unfold matchRgLine, rgLine.
assert (Hterm : hasLineTerminator (filePath +:+ ":" +:+ ds +:+ ":" +:+ text) = false).
{ rewrite !hasLineTerminator_app, Hf, Ht, (digits_no_terminator ds Hds). reflexivity. }
rewrite Hterm.
destruct filePath as [|c name]; [contradiction|]. app_step.
cbn [occurs] in Hcolon. apply orb_false_iff in Hcolon as [_ Hname].
now rewrite (shortestName_line name ds text Hname Hne Hds).
Qed.

(** Grouping by file. *)
Lemma pushMatch_keys (filePath : string) (m : Z * string)
  (fileResults : list (string * list (Z * string))) :
map fst (pushMatch filePath m fileResults)
= if existsb (String.eqb filePath) (map fst fileResults)
  then map fst fileResults else map fst fileResults ++ [filePath].
Proof.
induction fileResults as [|[f ms] rest IH]; [reflexivity|].
cbn [pushMatch map fst existsb].
rewrite (String.eqb_sym filePath f).
destruct (String.eqb f filePath); [reflexivity|].
cbn [map fst orb]. rewrite IH.
destruct (existsb (String.eqb filePath) (map fst rest)); reflexivity.
Qed.

Lemma pushMatch_NoDup (filePath : string) (m : Z * string)
  (fileResults : list (string * list (Z * string))) :
NoDup (map fst fileResults) -> NoDup (map fst (pushMatch filePath m fileResults)).
Proof.
intros Hnd. rewrite pushMatch_keys.
destruct (existsb (String.eqb filePath) (map fst fileResults)) eqn:Hin; [exact Hnd|].
apply NoDup_app. split; [exact Hnd|]. split; [|apply NoDup_singleton].
intros x Hx Hx'. apply list_elem_of_singleton in Hx'. subst x.
assert (Hex : existsb (String.eqb filePath) (map fst fileResults) = true).
{ apply existsb_exists. exists filePath. split; [|apply String.eqb_refl].
  now apply list_elem_of_In. }
congruence.
Qed.

Lemma pushMatch_nonempty (filePath : string) (m : Z * string)
  (fileResults : list (string * list (Z * string))) :
Forall (fun r => snd r <> []) fileResults ->
Forall (fun r => snd r <> []) (pushMatch filePath m fileResults).
Proof.
induction fileResults as [|[f ms] rest IH]; intros Hall.
- repeat constructor. discriminate.
- apply Forall_cons in Hall as [Hms Hrest]. cbn [pushMatch].
  destruct (String.eqb f filePath).
  + constructor; [|exact Hrest]. cbn. now destruct ms.
  + constructor; [exact Hms | now apply IH].
Qed.

Lemma parseRgOutput_grouped (lines : list string)
  (fileResults : list (string * list (Z * string))) :
NoDup (map fst fileResults) -> Forall (fun r => snd r <> []) fileResults ->
NoDup (map fst (parseRgOutput lines fileResults))
/\ Forall (fun r => snd r <> []) (parseRgOutput lines fileResults).
Proof.
revert fileResults. induction lines as [|line rest IH]; intros fileResults Hnd Hne;
  [split; assumption|].
cbn [parseRgOutput]. destruct (String.eqb (Js.trim line) "---"); [now apply IH|].
destruct (matchRgLine line) as [[[f ds] text]|]; [|now apply IH].
apply IH; [now apply pushMatch_NoDup | now apply pushMatch_nonempty].
Qed.

Lemma capMatches_sublist (cap : Z) (fileResults : list (string * list (Z * string)))
  (totalMatches : nat) :
map fst (capMatches cap fileResults totalMatches) `sublist_of` map fst fileResults
/\ Forall (fun r => snd r <> []) (capMatches cap fileResults totalMatches).
Proof.
revert totalMatches. induction fileResults as [|[f ms] rest IH]; intros t.
- split; constructor.
- cbn [capMatches map fst].
  destruct (cap <=? Z.of_nat t)%Z; [split; [apply sublist_nil_l | constructor]|].
  destruct (IH (t + length (take (Z.to_nat (cap - Z.of_nat t)) ms))) as [Hsub Hne].
  destruct (0 <? length (take (Z.to_nat (cap - Z.of_nat t)) ms)) eqn:Hpos.
  + split.
    * cbn [map fst]. now apply sublist_skip.
    * constructor; [|exact Hne]. cbn. apply Nat.ltb_lt in Hpos.
      destruct (take _ ms); [cbn in Hpos; lia | discriminate].
  + split; [now apply sublist_cons | exact Hne].
Qed.

(** X20. Whatever [rg] prints, the reports built from it name each file
    at most once, and no report is empty. *)
Theorem ripgrep_reports_one_per_file (o : GrepOptions) (stdout : string) :
NoDup (map fst (rgReports o stdout))
/\ Forall (fun r => snd r <> []) (rgReports o stdout).
Proof.
unfold rgReports.
destruct (capMatches_sublist (maxResults o) (rgParsed stdout) 0) as [Hsub Hne].
split; [|exact Hne].
eapply sublist_NoDup; [|exact Hsub].
unfold rgParsed. apply parseRgOutput_grouped; constructor.
Qed.

Section Ripgrep.

Variable E : Env.

Lemma searchFileContents_unfold (o : GrepOptions) (st st1 : State) (vsp : string) :
validatePath E (searchPath o) st = (Return vsp, st1) ->
searchFileContents E o st
= try_catch
    (out <- execFileAsync E "rg" (rgArguments o vsp) ;;
     let stdout := fst out in
     let stderr := snd out in
     if nonEmpty stderr && negb (Js.includes stderr "No matches found")
        && negb (nonEmpty stdout)
     then throw (Error ("ripgrep error: " +:+ stderr))
     else if negb (nonEmpty stdout) || negb (nonEmpty (Js.trim stdout)) then ret []
     else ret (map (formatRgFile o) (rgReports o stdout)))
    (fun error =>
       if codeIs error "ENOENT" then
         throw (Error "ripgrep (rg) is not installed. Please install ripgrep to use this feature.")
       else if codeIsNum error 1 then ret []
       else throw (Error ("ripgrep execution failed: "
                          +:+ (if nonEmpty (message error) then message error else "Error"))))
    st1.
Proof.
intros Hvalid. unfold searchFileContents. now rewrite (bind_return _ _ _ _ _ Hvalid).
Qed.

Lemma codeIsNum_not_name (e : JsError) (n : Z) (name : string) :
codeIsNum e n = true -> codeIs e name = false.
Proof.
unfold codeIsNum, codeIs. destruct (code e) as [[s | m]|]; try discriminate. reflexivity.
Qed.

Lemma rg_failure (o : GrepOptions) (st st1 : State) (vsp : string) (e : JsError) :
validatePath E (searchPath o) st = (Return vsp, st1) ->
execFile E "rg" (rgArguments o vsp) = inl e ->
searchFileContents E o st
= (if codeIs e "ENOENT" then
     Throw (Error "ripgrep (rg) is not installed. Please install ripgrep to use this feature.")
   else if codeIsNum e 1 then Return []
   else Throw (Error ("ripgrep execution failed: "
                      +:+ (if nonEmpty (message e) then message e else "Error"))),
   log (CExec "rg" (rgArguments o vsp)) st1).
Proof.
intros Hvalid Hexec. rewrite (searchFileContents_unfold _ _ _ _ Hvalid).
unfold try_catch, bind, execFileAsync. rewrite Hexec.
destruct (codeIs e "ENOENT"); [reflexivity|].
destruct (codeIsNum e 1); reflexivity.
Qed.

Lemma rg_silent (o : GrepOptions) (st st1 : State) (vsp stderr : string) :
validatePath E (searchPath o) st = (Return vsp, st1) ->
execFile E "rg" (rgArguments o vsp) = inr (EmptyString, stderr) ->
searchFileContents E o st
= (if nonEmpty stderr && negb (Js.includes stderr "No matches found")
   then Throw (Error ("ripgrep execution failed: ripgrep error: " +:+ stderr))
   else Return [],
   log (CExec "rg" (rgArguments o vsp)) st1).
Proof.
intros Hvalid Hexec. rewrite (searchFileContents_unfold _ _ _ _ Hvalid).
unfold try_catch, bind, execFileAsync. rewrite Hexec. cbn [fst snd nonEmpty negb].
rewrite andb_true_r.
destruct (nonEmpty stderr && negb (Js.includes stderr "No matches found")); reflexivity.
Qed.

End Ripgrep.

(** ** Faithful reports of the in-process search (first revision) *)

Section Faithful.

Variable E : Env.
Variable o : GrepOptions.
Variable matchesPattern : string -> bool.
Variable st0 : State.

Local Abbreviation faithful := (FaithfulReport o matchesPattern st0).
Local Abbreviation keeps := (KeepsFaithful o matchesPattern st0).

Lemma scanLines_faithful (filePath : string) (lines : list string) :
forall (rest : list string) (i : nat) (fileMatches : list GrepMatch) (totalMatches : nat),
drop i lines = rest ->
Forall (FaithfulMatch o matchesPattern filePath lines) fileMatches ->
Forall (FaithfulMatch o matchesPattern filePath lines)
  (fst (scanLines o matchesPattern filePath lines rest i fileMatches totalMatches)).
Proof.
induction rest as [|line rest IH]; intros i fileMatches t Hdrop Hall; [exact Hall|].
assert (Hline : lines !! i = Some line).
{ rewrite <- (Nat.add_0_r i), <- lookup_drop, Hdrop. reflexivity. }
assert (Hnext : drop (S i) lines = rest).
{ rewrite (drop_S _ _ _ Hline) in Hdrop. now injection Hdrop. }
cbn [scanLines].
destruct (Z.of_nat t <? maxResults o)%Z; [|exact Hall].
destruct (matchesPattern line) eqn:Hmatch; [|now apply IH].
assert (Hall' : Forall (FaithfulMatch o matchesPattern filePath lines)
                  (fileMatches ++ [matchAt o filePath lines i line])).
{ apply Forall_app_2; [exact Hall|]. constructor; [|constructor].
  exists i, line. auto. }
destruct (maxResults o <=? Z.of_nat (S t))%Z; [exact Hall' | now apply IH].
Qed.

Lemma scanFile_faithful (filePath text : string) (acc : GrepState) :
ReadsAs st0 filePath text ->
Forall faithful (fst acc) ->
Forall faithful (fst (scanFile o matchesPattern filePath text acc)).
Proof.
intros Hreads Hacc. unfold scanFile. cbv zeta. cbn [fst].
pose proof (scanLines_faithful filePath (Js.split Js.LF (normalizeLineEndings text))
              _ 0 [] (snd acc) eq_refl (List.Forall_nil _)) as Hscan.
destruct (scanLines o matchesPattern filePath _ _ 0 [] (snd acc)) as [fileMatches t].
cbn [fst] in *. unfold pushReport.
destruct fileMatches as [|m ms]; [exact Hacc|].
apply Forall_app_2; [exact Hacc|]. constructor; [|constructor].
split; [discriminate|]. exists text. split; assumption.
Qed.

Lemma fs_readFile_reads (p text : string) (st : State) :
fst (fs_readFile E p st) = Return text -> ReadsAs st p text.
Proof.
unfold fs_readFile, syscall.
destruct (fault E (length (trace st)) (CReadFile p)); [discriminate|].
cbn [nodes log]. destruct (follow 40 (nodes st) p) as [t|] eqn:Hfollow; [|discriminate].
destruct (nodes st !! t) as [[c | t' |]|] eqn:Ht; try discriminate.
cbn. intros [= <-]. exists t. auto.
Qed.

Lemma ReadsAs_same (st : State) (p text : string) :
nodes st = nodes st0 -> ReadsAs st p text -> ReadsAs st0 p text.
Proof. unfold ReadsAs. now intros ->. Qed.

Lemma searchInFile_faithful (validatedSearchPath filePath : string) :
keeps (searchInFile E o matchesPattern validatedSearchPath filePath).
Proof.
intros acc st Hnodes Hacc. unfold searchInFile.
destruct (maxResults o <=? Z.of_nat (snd acc))%Z.
{ split; [exact Hnodes|]. now intros ? [= <-]. }
unfold try_catch, bind, ret.
destruct (validatePath_keeps E filePath st) as (_ & Hnodes1 & _).
destruct (validatePath E filePath st) as [[real | e |] st1]; cbn [fst snd] in *;
  try (split; [congruence|]; intros ? [= <-]; exact Hacc);
  try (split; [congruence | discriminate]).
destruct (shouldExclude E _ _).
{ split; [cbn [fst snd]; congruence|]. now intros ? [= <-]. }
destruct (fs_readFile_reads_only E filePath st1) as (_ & Hnodes2 & _).
pose proof (fun text => fs_readFile_reads filePath text st1) as Hreads.
destruct (fs_readFile E filePath st1) as [[text | e |] st2]; cbn [fst snd] in *;
  try (split; [congruence|]; intros ? [= <-]; exact Hacc);
  try (split; [congruence | discriminate]).
split; [cbn [fst snd]; congruence|]. intros ? [= <-].
apply scanFile_faithful; [|exact Hacc].
apply (ReadsAs_same st1); [congruence | now apply Hreads].
Qed.

Lemma visitEntry_faithful (recur : string -> GrepState -> M GrepState)
  (validatedSearchPath dirPath : string) (entry : Dirent) :
(forall p, keeps (recur p)) ->
keeps (visitEntry E recur o matchesPattern validatedSearchPath dirPath entry).
Proof.
intros Hrecur acc st Hnodes Hacc. unfold visitEntry, try_catch, ret.
assert (Hbody : forall body : M GrepState,
          (nodes (snd (body st)) = nodes st0
           /\ forall acc', fst (body st) = Return acc' -> Forall faithful (fst acc')) ->
          nodes (snd (match body st with
                      | (Throw _, st') => (Return acc, st')
                      | r => r
                      end)) = nodes st0
          /\ forall acc', fst (match body st with
                               | (Throw _, st') => (Return acc, st')
                               | r => r
                               end) = Return acc' -> Forall faithful (fst acc')).
{ intros body [Hn Hr]. destruct (body st) as [[acc1 | e |] st1]; cbn [fst snd] in *.
  - split; [exact Hn | exact Hr].
  - split; [exact Hn|]. now intros ? [= <-].
  - split; [exact Hn | discriminate]. }
apply Hbody.
destruct (d_isFile entry).
- destruct (_ || _).
  + now apply searchInFile_faithful.
  + split; [exact Hnodes|]. now intros ? [= <-].
- destruct (_ && _).
  + now apply Hrecur.
  + split; [exact Hnodes|]. now intros ? [= <-].
Qed.

Lemma searchEntries_faithful (recur : string -> GrepState -> M GrepState)
  (validatedSearchPath dirPath : string) (entries : list Dirent) :
(forall p, keeps (recur p)) ->
keeps (searchEntries E recur o matchesPattern validatedSearchPath dirPath entries).
Proof.
intros Hrecur. induction entries as [|entry rest IH]; intros acc st Hnodes Hacc.
- split; [exact Hnodes|]. now intros ? [= <-].
- cbn [searchEntries]. destruct (maxResults o <=? Z.of_nat (snd acc))%Z.
  { split; [exact Hnodes|]. now intros ? [= <-]. }
  unfold bind.
  destruct (visitEntry_faithful recur validatedSearchPath dirPath entry Hrecur
              acc st Hnodes Hacc) as [Hn Hr].
  destruct (visitEntry E recur o matchesPattern validatedSearchPath dirPath entry acc st)
    as [[acc1 | e |] st1]; cbn [fst snd] in *.
  + apply IH; [exact Hn | now apply Hr].
  + split; [exact Hn | discriminate].
  + split; [exact Hn | discriminate].
Qed.

Lemma searchDirectory_faithful (fuel : nat) (validatedSearchPath : string) :
forall dirPath,
  keeps (searchDirectory E fuel o matchesPattern validatedSearchPath dirPath).
Proof.
induction fuel as [|fuel IH]; intros dirPath acc st Hnodes Hacc.
- cbn [searchDirectory]. destruct (maxResults o <=? Z.of_nat (snd acc))%Z.
  + split; [exact Hnodes|]. now intros ? [= <-].
  + split; [exact Hnodes | discriminate].
- cbn [searchDirectory]. destruct (maxResults o <=? Z.of_nat (snd acc))%Z.
  { split; [exact Hnodes|]. now intros ? [= <-]. }
  unfold try_catch, bind, ret, throw.
  destruct (validatePath_keeps E dirPath st) as (_ & Hnodes1 & _).
  destruct (validatePath E dirPath st) as [[real | e |] st1]; cbn [fst snd] in *.
  2:{ destruct (_ || _); (split; [cbn [fst snd]; congruence|]);
        [now intros ? [= <-] | discriminate]. }
  2:{ split; [cbn [fst snd]; congruence | discriminate]. }
  unfold fs_readdir.
  destruct (readdir E dirPath) as [e | entries].
  { destruct (_ || _); (split; [cbn [fst snd nodes log]; congruence|]);
      [now intros ? [= <-] | discriminate]. }
  assert (Hn : nodes (log (CReaddir dirPath) st1) = nodes st0) by (cbn; congruence).
  destruct (searchEntries_faithful _ validatedSearchPath dirPath entries IH
              acc _ Hn Hacc) as [Hn' Hr].
  destruct (searchEntries E _ o matchesPattern validatedSearchPath dirPath entries acc _)
    as [[acc1 | e |] st2]; cbn [fst snd] in *.
  + split; [exact Hn' | exact Hr].
  + destruct (_ || _); (split; [exact Hn'|]); [now intros ? [= <-] | discriminate].
  + split; [exact Hn' | discriminate].
Qed.

Lemma searchFrom_faithful (fuel : nat) (validatedSearchPath : string) (stats : Stats)
  (st : State) (acc : GrepState) :
nodes st = nodes st0 ->
fst (searchFrom E fuel o matchesPattern validatedSearchPath stats st) = Return acc ->
Forall faithful (fst acc).
Proof.
intros Hnodes. unfold searchFrom.
destruct (isFile stats).
- destruct (_ || _).
  + apply searchInFile_faithful; [exact Hnodes | constructor].
  + intros [= <-]. constructor.
- destruct (isDirectory stats); [|discriminate].
  apply searchDirectory_faithful; [exact Hnodes | constructor].
Qed.

End Faithful.

(** X21. The in-process content search reports nothing but matching
    lines: when it returns, the pattern was compiled, and every report
    has at least one match and belongs to a file that holds a text, of
    whose lines (after normalising line endings) each match is one the
    matcher accepts, inversion applied, carrying its 1-based number and
    the context lines around it. *)
Theorem content_search_reports_matching_lines (E : Env) (fuel : nat) (o : GrepOptions) (st st' : State)
  (reports : list (string * list GrepMatch)) :
grepReports E fuel o st = (Return reports, st') ->
exists test,
  regexCompile E (if fixedStrings o then escapeRegExp (pattern o) else pattern o)
    (if ignoreCase o then "gi" else "g") = inr test
  /\ Forall (FaithfulReport o (fun line => xorb (test line) (invertMatch o)) st) reports.
Proof.
unfold grepReports. unfold bind at 1.
destruct (validatePath_keeps E (searchPath o) st) as (_ & Hnodes1 & _).
destruct (validatePath E (searchPath o) st) as [[vsp | e |] st1]; [|discriminate..].
cbn [snd] in Hnodes1.
destruct (regexCompile E _ _) as [e | test]; [discriminate|].
unfold bind at 1.
pose proof (fs_stat_logs E vsp st1) as Hlog.
destruct (fs_stat E vsp st1) as [[stats | e |] st2]; [|discriminate..].
cbn [snd] in Hlog. subst st2.
unfold bind, ret.
pose proof (searchFrom_faithful E o (fun line => xorb (test line) (invertMatch o)) st fuel
              vsp stats (log (CStat vsp) st1)) as Hfrom.
destruct (searchFrom E fuel o _ vsp stats (log (CStat vsp) st1))
  as [[acc | e |] st3]; [|discriminate..].
intros [= <- _]. exists test. split; [reflexivity|].
apply Hfrom; [exact Hnodes1 | reflexivity].
Qed.

Lemma grepReports_bad_pattern (E : Env) (fuel : nat) (o : GrepOptions) (st st1 : State)
  (vsp : string) (e : JsError) :
validatePath E (searchPath o) st = (Return vsp, st1) ->
regexCompile E (if fixedStrings o then escapeRegExp (pattern o) else pattern o)
  (if ignoreCase o then "gi" else "g") = inl e ->
searchFileContentsInProcess E fuel o st
= (Throw (Error ("Invalid regex pattern: "
                 +:+ (if fixedStrings o then escapeRegExp (pattern o) else pattern o)
                 +:+ ". " +:+ message e)), st1).
Proof.
intros Hvalid Hregex. unfold searchFileContentsInProcess, grepReports.
unfold bind at 1. rewrite (bind_return _ _ _ _ _ Hvalid). now rewrite Hregex.
Qed.

(** ** Project introductions *)

Section Intro.

Variable E : Env.
Variable st0 : State.
Variable validPath : string.

Lemma fs_stat_keeps (p : string) (st : State) :
nodes (snd (fs_stat E p st)) = nodes st
/\ allowed (snd (fs_stat E p st)) = allowed st
/\ fst (fs_stat E p st) <> Diverge.
Proof.
rewrite (fs_stat_logs E p st). repeat split.
unfold fs_stat, syscall.
destruct (fault E (length (trace st)) (CStat p)); [discriminate|]. cbn.
destruct (follow 40 (nodes st) p) as [t|]; [|discriminate].
destruct (nodes st !! t) as [[c | t' |]|]; discriminate.
Qed.

Lemma fs_readFile_keeps (p : string) (st : State) :
nodes (snd (fs_readFile E p st)) = nodes st
/\ allowed (snd (fs_readFile E p st)) = allowed st
/\ fst (fs_readFile E p st) <> Diverge.
Proof.
unfold fs_readFile, syscall.
destruct (fault E (length (trace st)) (CReadFile p)); [repeat split; discriminate|].
cbn. destruct (follow 40 (nodes st) p) as [t|]; [|repeat split; discriminate].
destruct (nodes st !! t) as [[c | t' |]|]; repeat split; discriminate.
Qed.

Lemma checkFiles_found (allFiles : list string) :
forall (found : ProjectIntro.Found) (st : State),
nodes st = nodes st0 -> allowed st = allowed st0 ->
fst found = map fst (snd found) ->
exists more st',
  ProjectIntro.checkFiles E validPath allFiles found st
  = (Return (fst found ++ map fst more, snd found ++ more), st')
  /\ map fst more `sublist_of` allFiles
  /\ Forall (IntroFile E st0 validPath) (map fst more).
Proof.
induction allFiles as [|fileName rest IH]; intros found st Hnodes Hallowed Hlock.
- exists [], st. cbn. rewrite !app_nil_r. destruct found. repeat split; constructor.
- cbn [ProjectIntro.checkFiles].
  set (filePath := path_join E validPath fileName).
  assert (Hskip : forall st1, nodes st1 = nodes st0 -> allowed st1 = allowed st0 ->
            exists more st',
              ProjectIntro.checkFiles E validPath rest found st1
              = (Return (fst found ++ map fst more, snd found ++ more), st')
              /\ map fst more `sublist_of` fileName :: rest
              /\ Forall (IntroFile E st0 validPath) (map fst more)).
  { intros st1 Hn Ha.
    destruct (IH found st1 Hn Ha Hlock) as (more & st' & Hrun & Hsub & Hall).
    exists more, st'. repeat split; try assumption. now apply sublist_cons. }
  unfold bind at 1. unfold try_catch, bind, ret.
  destruct (validatePath_keeps E filePath st) as (Ha1 & Hn1 & Ht1 & _).
  destruct (validatePath E filePath st) as [[real | e |] st1] eqn:Hvalid;
    cbn [fst snd] in *; [| apply Hskip; congruence | congruence].
  destruct (fs_stat_keeps filePath st1) as (Hn2 & Ha2 & Ht2).
  destruct (fs_stat E filePath st1) as [[stats | e |] st2];
    cbn [fst snd] in *; [| apply Hskip; congruence | congruence].
  destruct (isFile stats); [|apply Hskip; congruence].
  destruct (fs_readFile_keeps filePath st2) as (Hn3 & Ha3 & Ht3).
  pose proof (fun text => fs_readFile_reads E filePath text st2) as Hreads.
  destruct (fs_readFile E filePath st2) as [[text | e |] st3];
    cbn [fst snd] in *; [| apply Hskip; congruence | congruence].
  destruct (IH (fst found ++ [fileName], snd found ++ [(fileName, text)]) st3)
    as (more & st' & Hrun & Hsub & Hall); [congruence | congruence | |].
  { cbn [fst snd]. rewrite map_app, Hlock. reflexivity. }
  exists ((fileName, text) :: more), st'.
  cbn [fst snd map] in *. rewrite Hrun, <- !app_assoc.
  repeat split.
  + now apply sublist_skip.
  + constructor; [|exact Hall]. split.
    * exists real. transitivity (fst (validatePath E filePath st)).
      -- apply validatePath_depends_on_allowed. congruence.
      -- now rewrite Hvalid.
    * exists text. apply (ReadsAs_same st0 st2); [congruence | now apply Hreads].
Qed.

End Intro.

(** X23. [extractProjectIntro] fails only if the project path fails
    validation, with that error.  Otherwise it returns: the files
    checked are the two priority files followed by the additional ones
    when asked for; the files found are among them, in that order; each
    of them passed [validatePath] and holds a text (a file that is
    missing, is a directory, fails validation or cannot be read is left
    out silently); and with no file found the content is empty. *)
Theorem extractProjectIntro_skips_unreadable_files (E : Env) (st : State) (projectPath : string)
  (includeAdditionalFiles : bool) :
let allFiles :=
  ProjectIntro.priorityFiles ++ ProjectIntro.additionalFiles includeAdditionalFiles in
let result := ProjectIntro.extractProjectIntro E projectPath includeAdditionalFiles st in
(forall e st1, validatePath E projectPath st = (Throw e, st1) -> result = (Throw e, st1))
/\ (forall validPath st1,
      validatePath E projectPath st = (Return validPath, st1) ->
      exists r st',
        result = (Return r, st')
        /\ ProjectIntro.filesChecked r = allFiles
        /\ ProjectIntro.filesFound r `sublist_of` allFiles
        /\ Forall (IntroFile E st validPath) (ProjectIntro.filesFound r)
        /\ (ProjectIntro.filesFound r = [] -> ProjectIntro.content r = EmptyString)).
Proof.
intros allFiles result. subst result. unfold ProjectIntro.extractProjectIntro. split.
- intros e st1 Hvalid. now rewrite (bind_throw _ _ _ _ _ Hvalid).
- intros validPath st1 Hvalid. rewrite (bind_return _ _ _ _ _ Hvalid).
  destruct (validatePath_keeps E projectPath st) as (Ha & Hn & _).
  rewrite Hvalid in Ha, Hn. cbn [snd] in Ha, Hn.
  destruct (checkFiles_found E st validPath allFiles ([], []) st1 Hn Ha eq_refl)
    as (more & st' & Hrun & Hsub & Hall).
  fold allFiles. rewrite (bind_return _ _ _ _ _ Hrun). cbn [fst snd app].
  destruct more as [|m more].
  + eexists. eexists. split; [reflexivity|]. cbn.
    repeat split; try constructor. apply sublist_nil_l.
  + eexists. eexists. split; [reflexivity|]. cbn [ProjectIntro.filesChecked
      ProjectIntro.filesFound ProjectIntro.content].
    repeat split; try assumption. discriminate.
Qed.

Lemma getSubstitution_plain_app (matched before after x t : string) :
occurs "$" x = false ->
Js.getSubstitution matched before after (x +:+ t)
= x +:+ Js.getSubstitution matched before after t.
Proof.
induction x as [|c x IH]; intros Hx; app_step; [reflexivity|].
cbn [occurs] in Hx. apply orb_false_iff in Hx as [Hc Hx].
specialize (IH Hx).
cbn [Js.getSubstitution]. rewrite Hc.
destruct (x +:+ t) as [|d rest] eqn:Hrest.
- rewrite <- IH. reflexivity.
- now rewrite <- IH.
Qed.

Lemma getSubstitution_plain (matched before after t : string) :
occurs "$" t = false -> Js.getSubstitution matched before after t = t.
Proof.
intros Ht. rewrite <- (js_app_nil_r t) at 1.
rewrite (getSubstitution_plain_app _ _ _ _ _ Ht). apply js_app_nil_r.
Qed.

Lemma getSubstitution_match (matched before after x y : string) :
occurs "$" x = false -> occurs "$" y = false ->
Js.getSubstitution matched before after (x +:+ "$&" +:+ y) = x +:+ matched +:+ y.
Proof.
intros Hx Hy. rewrite (getSubstitution_plain_app _ _ _ _ _ Hx). f_equal.
change ("$&" +:+ y) with (String "$" (String "&" y)).
cbn [Js.getSubstitution]. cbn [Ascii.eqb Bool.eqb].
now rewrite (getSubstitution_plain _ _ _ _ Hy).
Qed.

(** The first occurrence of [pat] is where [cut] cuts. *)
Lemma cut_first (pat after before : string) :
(forall k, k < String.length before ->
   String.prefix pat (Js.drop k (before +:+ pat +:+ after)) = false) ->
Js.cut (before +:+ pat +:+ after) pat = Some (before, after).
Proof.
induction before as [|c before IH]; intros Hfirst; app_step.
- assert (Hcut : Js.cut (pat +:+ after) pat
                 = Some (EmptyString, Js.drop (String.length pat) (pat +:+ after))).
  { destruct (pat +:+ after) eqn:Heq; cbn [Js.cut]; rewrite <- Heq, prefix_app;
      reflexivity. }
  now rewrite Hcut, js_drop_app.
- cbn [Js.cut].
  pose proof (Hfirst 0 ltac:(cbn; lia)) as Hhere. app_step_in Hhere. cbn [Js.drop] in Hhere.
  rewrite Hhere, IH; [reflexivity|].
  intros k Hk. specialize (Hfirst (S k) ltac:(cbn; lia)).
  app_step_in Hfirst. exact Hfirst.
Qed.

(** X5. An edit whose old text occurs in the content replaces its first
    occurrence and nothing else: when the content is [before], the old
    text and [after], with no occurrence of the old text starting inside
    [before], the result is [before], the replacement and [after].  A
    new text without a dollar sign is inserted literally; but the new
    text is a JavaScript replacement pattern, so a "$&" in it is
    replaced by the old text. *)
Theorem applyEdit_exact_match (current before after : string) (edit : FileEdit) :
let old := normalizeLineEndings (oldText edit) in
let new := normalizeLineEndings (newText edit) in
current = before +:+ old +:+ after ->
(forall k, k < String.length before -> String.prefix old (Js.drop k current) = false) ->
(occurs "$" new = false -> applyEdit current edit = inr (before +:+ new +:+ after))
/\ (forall x y, new = x +:+ "$&" +:+ y ->
      occurs "$" x = false -> occurs "$" y = false ->
      applyEdit current edit = inr (before +:+ (x +:+ old +:+ y) +:+ after)).
Proof.
intros old new Heq Hfirst. rewrite Heq in Hfirst.
pose proof (cut_first old after before Hfirst) as Hcut. rewrite <- Heq in Hcut.
assert (Hinc : Js.includes current old = true).
{ rewrite Heq. clear. induction before as [|c before IH]; app_step.
  - apply includes_prefix, prefix_app.
  - rewrite includes_cons, IH. apply orb_true_r. }
assert (Hrun : applyEdit current edit
               = inr (before +:+ Js.getSubstitution old before after new +:+ after)).
{ unfold applyEdit. fold old new. rewrite Hinc. unfold Js.replace. now rewrite Hcut. }
split.
- intros Hplain. now rewrite Hrun, (getSubstitution_plain _ _ _ _ Hplain).
- intros x y Hnew Hx Hy. now rewrite Hrun, Hnew, (getSubstitution_match _ _ _ _ _ Hx Hy).
Qed.

Lemma scanWindows_some (oldLines contentLines : list string) (remaining : nat) :
forall i found,
scanWindows oldLines contentLines i remaining = Some found ->
i <= found < i + remaining
/\ windowMatches oldLines (take (length oldLines) (drop found contentLines)) = true
/\ forall k, i <= k < found ->
     windowMatches oldLines (take (length oldLines) (drop k contentLines)) = false.
Proof.
induction remaining as [|remaining IH]; intros i found; [discriminate|].
cbn [scanWindows].
destruct (windowMatches oldLines (take (length oldLines) (drop i contentLines))) eqn:Hm.
- intros [= <-]. split; [lia|]. split; [exact Hm | intros k Hk; lia].
- intros Hscan. destruct (IH (S i) found Hscan) as (Hrange & Hfound & Hfirst).
  split; [lia|]. split; [exact Hfound|].
  intros k Hk. destruct (Nat.eq_dec k i) as [-> | Hne]; [exact Hm | apply Hfirst; lia].
Qed.

Lemma findWindow_first (oldLines contentLines : list string) (i : nat) :
findWindow oldLines contentLines = Some i ->
i + length oldLines <= length contentLines
/\ windowMatches oldLines (take (length oldLines) (drop i contentLines)) = true
/\ forall k, k < i ->
     windowMatches oldLines (take (length oldLines) (drop k contentLines)) = false.
Proof.
unfold findWindow.
destruct (length oldLines <=? length contentLines) eqn:Hle; [|discriminate].
apply Nat.leb_le in Hle. intros Hscan.
destruct (scanWindows_some _ _ _ _ _ Hscan) as (Hrange & Hfound & Hfirst).
split; [lia|]. split; [exact Hfound|]. intros k Hk. apply Hfirst. lia.
Qed.

Lemma windowMatches_trimmed (oldLines window : list string) :
length window = length oldLines ->
windowMatches oldLines window = true
<-> forall j oldLine contentLine,
      oldLines !! j = Some oldLine -> window !! j = Some contentLine ->
      Js.trim oldLine = Js.trim contentLine.
Proof.
revert window. induction oldLines as [|o os IH]; intros [|w ws] Hlen; try discriminate.
- split; [intros _ j ? ? H; discriminate | reflexivity].
- cbn [windowMatches]. injection Hlen as Hlen. rewrite andb_true_iff, (IH ws Hlen). split.
  + intros [Hhead Htail] [|j] oldLine contentLine; cbn.
    * intros [= <-] [= <-]. now apply String.eqb_eq.
    * apply Htail.
  + intros Hall. split.
    * apply String.eqb_eq. now apply (Hall 0).
    * intros j. apply (Hall (S j)).
Qed.

(** Line endings. *)
Lemma replaceCRLF_cons (c : ascii) (s : string) :
Js.replaceCRLF (String c s)
= match s with
  | String d rest =>
      if Ascii.eqb c Js.CR && Ascii.eqb d Js.LF
      then String Js.LF (Js.replaceCRLF rest)
      else String c (Js.replaceCRLF s)
  | EmptyString => String c EmptyString
  end.
Proof. reflexivity. Qed.

Lemma replaceCRLF_length (s : string) :
String.length (Js.replaceCRLF s) <= String.length s
/\ (Js.includes s CRLF = true -> String.length (Js.replaceCRLF s) < String.length s).
Proof.
remember (String.length s) as n eqn:Hn.
revert s Hn. induction n as [n IH] using lt_wf_ind. intros s ->.
destruct s as [|c s]; [split; [reflexivity | discriminate]|].
rewrite replaceCRLF_cons. destruct s as [|d rest].
- split; [reflexivity|]. intros Hinc.
  rewrite includes_cons, includes_empty in Hinc. unfold CRLF in Hinc.
  cbn [String.prefix] in Hinc. destruct (ascii_dec Js.CR c); discriminate.
- destruct (Ascii.eqb c Js.CR && Ascii.eqb d Js.LF) eqn:Hpair.
  + destruct (IH (String.length rest) ltac:(cbn; lia) rest eq_refl) as [Hle _].
    cbn [String.length]. split; [lia | intros _; lia].
  + destruct (IH (String.length (String d rest)) ltac:(cbn; lia) (String d rest) eq_refl)
      as [Hle Hlt].
    cbn [String.length] in *. split; [lia|].
    rewrite includes_cons. intros Hinc. apply orb_true_iff in Hinc as [Hp | Hinc].
    * exfalso. unfold CRLF in Hp. cbn [String.prefix] in Hp.
      destruct (ascii_dec Js.CR c) as [<- |]; [|discriminate].
      destruct (ascii_dec Js.LF d) as [<- |]; [|discriminate].
      discriminate.
    * specialize (Hlt Hinc). lia.
Qed.

Lemma replaceCRLF_id (s : string) :
Js.includes s CRLF = false -> Js.replaceCRLF s = s.
Proof.
remember (String.length s) as n eqn:Hn.
revert s Hn. induction n as [n IH] using lt_wf_ind. intros s -> Hfree.
destruct s as [|c s]; [reflexivity|].
rewrite replaceCRLF_cons. destruct s as [|d rest]; [reflexivity|].
rewrite includes_cons in Hfree. apply orb_false_iff in Hfree as [Hp Hrest].
destruct (Ascii.eqb c Js.CR && Ascii.eqb d Js.LF) eqn:Hpair.
- apply andb_true_iff in Hpair as [Hc Hd].
  apply Ascii.eqb_eq in Hc, Hd. subst c d.
  unfold CRLF in Hp. cbn [String.prefix] in Hp.
  destruct (ascii_dec Js.CR Js.CR); [|congruence].
  destruct (ascii_dec Js.LF Js.LF); [|congruence].
  destruct rest; discriminate.
- f_equal. apply (IH (String.length (String d rest))); [cbn; lia | reflexivity | exact Hrest].
Qed.

(** X7. [normalizeLineEndings] leaves a text unchanged exactly when the
    text contains no carriage return followed by a newline. *)
Theorem normalizeLineEndings_fixed_point (text : string) :
normalizeLineEndings text = text <-> Js.includes text CRLF = false.
Proof.
unfold normalizeLineEndings. split; [|apply replaceCRLF_id].
intros Heq. destruct (Js.includes text CRLF) eqn:Hinc; [|reflexivity].
destruct (replaceCRLF_length text) as [_ Hlt]. specialize (Hlt Hinc).
rewrite Heq in Hlt. lia.
Qed.

(** ** Where the in-process search can fail *)

Lemma withCap_self (o : GrepOptions) : withCap o (maxResults o) = o.
Proof. now destruct o. Qed.

Section Rejections.

Variable E : Env.

Lemma searchDirectory_throws (fuel : nat) (o : GrepOptions)
  (matchesPattern : string -> bool) (validatedSearchPath dirPath : string)
  (acc : GrepState) (st st' : State) (e : JsError) :
searchDirectory E fuel o matchesPattern validatedSearchPath dirPath acc st = (Throw e, st') ->
codeIs e "EACCES" = false /\ codeIs e "ENOENT" = false
/\ (fst (validatePath E dirPath st) = Throw e
    \/ ((exists real, fst (validatePath E dirPath st) = Return real)
        /\ readdir E dirPath = inl e)).
Proof.
destruct fuel as [|fuel]; cbn [searchDirectory];
  destruct (maxResults o <=? Z.of_nat (snd acc))%Z; try discriminate.
unfold try_catch, bind, ret, throw.
destruct (validatePath E dirPath st) as [[real | e0 |] st1] eqn:Hvalid; cbn [fst snd].
- unfold fs_readdir. destruct (readdir E dirPath) as [e0 | entries] eqn:Hread.
  + destruct (codeIs e0 "EACCES" || codeIs e0 "ENOENT") eqn:Hcode; [discriminate|].
    intros [= <- _]. apply orb_false_iff in Hcode as [H1 H2]. eauto 10.
  + pose proof (searchEntries_no_throw E o matchesPattern validatedSearchPath
                  (searchDirectory E fuel (withCap o (maxResults o)) matchesPattern
                     validatedSearchPath)
                  (maxResults o) dirPath entries acc (log (CReaddir dirPath) st1)) as Hno.
    rewrite withCap_self in Hno.
    destruct (searchEntries E _ o matchesPattern validatedSearchPath dirPath entries acc _)
      as [[acc1 | e1 |] st2]; try discriminate.
    now destruct (Hno st2 e1).
- destruct (codeIs e0 "EACCES" || codeIs e0 "ENOENT") eqn:Hcode; [discriminate|].
  intros [= <- _]. apply orb_false_iff in Hcode as [H1 H2]. auto.
- discriminate.
Qed.

End Rejections.

(** ** Searches as a whole *)

(** X6. When the line-based scan of an edit finds a window at index [i],
    the window fits in the content, each of its lines equals the
    corresponding old line once both are trimmed, and every earlier
    window has a line that differs from its counterpart after trimming:
    the edit is applied at the first such window. *)
Theorem findWindow_finds_first_window (oldLines contentLines : list string) (i : nat) :
findWindow oldLines contentLines = Some i ->
i + length oldLines <= length contentLines
/\ (forall j oldLine contentLine,
      oldLines !! j = Some oldLine -> contentLines !! (i + j) = Some contentLine ->
      Js.trim oldLine = Js.trim contentLine)
/\ forall k, k < i ->
     exists j oldLine contentLine,
       oldLines !! j = Some oldLine
       /\ contentLines !! (k + j) = Some contentLine
       /\ Js.trim oldLine <> Js.trim contentLine.
Proof.
intros Hfind. destruct (findWindow_first _ _ _ Hfind) as (Hfit & Hmatch & Hfirst).
split; [exact Hfit|]. split.
- intros j oldLine contentLine Hold Hcontent.
  apply (proj1 (windowMatches_trimmed oldLines
                  (take (length oldLines) (drop i contentLines))
                  ltac:(rewrite length_take, length_drop; lia)) Hmatch j); [exact Hold|].
  rewrite lookup_take_lt by (apply lookup_lt_Some in Hold; exact Hold).
  now rewrite lookup_drop.
- intros k Hk. specialize (Hfirst k Hk).
  apply windowMatches_false_differs in Hfirst.
  + destruct Hfirst as (j & oldLine & contentLine & Hold & Hcontent & Hne).
    exists j, oldLine, contentLine. repeat split; try assumption.
    rewrite lookup_take_lt in Hcontent by (apply lookup_lt_Some in Hold; exact Hold).
    now rewrite lookup_drop in Hcontent.
  + rewrite length_take, length_drop. lia.
Qed.

(** X10. A handle that was opened is closed, whatever the reads do:
    when [fs.open] succeeds, the calls of [headFile] after it are reads
    followed by one [close] of that handle, and likewise for [tailFile]
    after a [stat] that reports a non-empty file; neither loop runs
    forever. *)
Theorem file_handle_is_always_closed (E : Env) (st : State) (p : string) (n : Z) :
(forall h st1,
   fs_open E p st = (Return h, st1) ->
   exists reads,
     trace (snd (headFile E p n st))
     = trace st ++ COpen p :: reads ++ [CClose (h_path h)]
     /\ Forall (fun c => isRead c = true) reads
     /\ fst (headFile E p n st) <> Diverge)
/\ (forall stats st0 h st1,
      fs_stat E p st = (Return stats, st0) ->
      size stats <> 0 ->
      fs_open E p st0 = (Return h, st1) ->
      exists reads,
        trace (snd (tailFile E p n st))
        = trace st ++ CStat p :: COpen p :: reads ++ [CClose (h_path h)]
        /\ Forall (fun c => isRead c = true) reads
        /\ fst (tailFile E p n st) <> Diverge).
Proof.
split.
- intros h st1. apply headFile_closes.
- intros stats st0 h st1. apply tailFile_closes.
Qed.

(** X11. Every path the recursive walk returns passed [validatePath]
    under the allow-list in force, is matched by no exclude pattern and
    is matched by the search pattern (all on its path relative to the
    root); and the only directories the walk lists are the root and
    directories that passed validation and exclusion. *)
Theorem walk_reports_cleared_hits (E : Env) (fuel : nat) (st st' : State)
  (rootPath pattern : string) (allowedDirs excludePatterns results : list string) :
searchFilesByWalk E fuel rootPath pattern allowedDirs excludePatterns st
= (Return results, st') ->
Forall (WalkHit E rootPath pattern excludePatterns st) results
/\ exists calls,
     trace st' = trace st ++ calls
     /\ ListsCleared E rootPath excludePatterns st calls.
Proof.
intros Hrun. unfold searchFilesByWalk in Hrun.
destruct (search_step E rootPath pattern excludePatterns st fuel rootPath [] st
            (or_introl eq_refl) eq_refl) as (Hcalls & _ & Hret).
rewrite Hrun in Hcalls, Hret. cbn [fst snd] in *.
split; [|exact Hcalls].
destruct (Hret results eq_refl) as (more & -> & Hmore). exact Hmore.
Qed.

(** X12. The walk rejects exactly when the root directory cannot be
    listed, with the error of that [readdir] and nothing else done; once
    the root is listed no error leaves the walk: entries that fail
    validation and sub-directories that cannot be listed are skipped. *)
Theorem walk_rejects_only_on_root_listing (E : Env) (fuel : nat) (st : State)
  (rootPath pattern : string) (allowedDirs excludePatterns : list string) :
(forall e,
   readdir E rootPath = inl e ->
   searchFilesByWalk E (S fuel) rootPath pattern allowedDirs excludePatterns st
   = (Throw e, log (CReaddir rootPath) st))
/\ (forall entries,
      readdir E rootPath = inr entries ->
      forall e,
        fst (searchFilesByWalk E (S fuel) rootPath pattern allowedDirs excludePatterns st)
        <> Throw e).
Proof.
unfold searchFilesByWalk. cbn [search]. unfold bind, fs_readdir. split.
- intros e ->. reflexivity.
- intros entries -> e. apply walkEntries_no_throw.
Qed.

(** X13. The [allowedDirectories] argument of the search grants nothing:
    validation uses the module's own allow-list, so while that list is
    empty the walk of a listable root returns no path, whatever
    directories the caller passes, and its only call is the [readdir] of
    the root. *)
Theorem walk_ignores_allowed_directories_argument (E : Env) (fuel : nat) (st : State)
  (rootPath pattern : string) (allowedDirs excludePatterns : list string)
  (entries : list Dirent) :
allowed st = [] ->
readdir E rootPath = inr entries ->
searchFilesByWalk E (S fuel) rootPath pattern allowedDirs excludePatterns st
= (Return [], log (CReaddir rootPath) st).
Proof.
intros Hempty Hlist. unfold searchFilesByWalk. cbn [search].
unfold bind, fs_readdir. rewrite Hlist.
now apply walkEntries_all_denied.
Qed.

(** X14. The index is used only when it can be: if the database file is
    not accessible, if the [plocate --version] probe fails, or if the
    pattern has no translation, [searchFilesWithValidation] is the
    recursive walk from the root, started after the probes alone: no
    query is sent to [plocate], and the probes never make the search
    fail. *)
Theorem searchFiles_falls_back_to_walk (E : Env) (fuel : nat) (st : State)
  (rootPath pattern : string) (allowedDirs excludePatterns : list string) :
let db := plocateDb E in
let probed := log (CExec "plocate" ["--version"]) (log (CAccess db) st) in
let result :=
  searchFilesWithValidation E fuel rootPath pattern allowedDirs excludePatterns st in
(forall e,
   fst (fs_access E db st) = Throw e ->
   result = search E fuel rootPath pattern excludePatterns rootPath [] (log (CAccess db) st))
/\ (forall e,
      fst (fs_access E db st) = Return tt ->
      execFile E "plocate" ["--version"] = inl e ->
      result = search E fuel rootPath pattern excludePatterns rootPath [] probed)
/\ (fst (fs_access E db st) = Return tt ->
    preparePatternForPlocate pattern = None ->
    result = search E fuel rootPath pattern excludePatterns rootPath [] probed).
Proof.
intros db probed result. subst result db probed.
unfold searchFilesWithValidation, queryIndex.
split; [|split].
- intros e Haccess.
  unfold bind at 1 2. rewrite isPlocateAvailable_outcome, Haccess. reflexivity.
- intros e Haccess Hprobe.
  unfold bind at 1 2. rewrite isPlocateAvailable_outcome, Haccess, Hprobe. reflexivity.
- intros Haccess Hpattern.
  unfold bind at 1 2. rewrite isPlocateAvailable_outcome, Haccess.
  destruct (execFile E "plocate" ["--version"]); cbn iota; [reflexivity|].
  rewrite Hpattern. reflexivity.
Qed.

Lemma searchFiles_tiers (E : Env) (fuel : nat) (st st' : State)
  (rootPath pattern : string) (allowedDirs excludePatterns results : list string) :
searchFilesWithValidation E fuel rootPath pattern allowedDirs excludePatterns st
= (Return results, st') ->
(exists st1,
   allowed st1 = allowed st
   /\ search E fuel rootPath pattern excludePatterns rootPath [] st1 = (Return results, st'))
\/ (exists st1 allPaths,
      allowed st1 = allowed st
      /\ fst (keepIndexed E rootPath excludePatterns allPaths [] st1) = Return results)
\/ results = [].
Proof.
unfold searchFilesWithValidation, queryIndex.
unfold bind at 1 2. rewrite isPlocateAvailable_outcome.
destruct (fst (fs_access E (plocateDb E) st)) as [[] | e |];
  try (intros Hrun; left; eexists; split; [|exact Hrun]; reflexivity).
destruct (execFile E "plocate" ["--version"]) as [e | probe];
  [intros Hrun; left; eexists; split; [|exact Hrun]; reflexivity|].
cbn iota.
destruct (preparePatternForPlocate pattern) as [plocatePattern|];
  [|intros Hrun; left; eexists; split; [|exact Hrun]; reflexivity].
unfold try_catch, bind, execFileAsync, ret.
destruct (execFile E "plocate" (plocateArgs E plocatePattern)) as [e | out].
- destruct (codeIsNum e 1).
  + intros [= <- _]. right. right. reflexivity.
  + intros Hrun. left. eexists. split; [|exact Hrun]. reflexivity.
- destruct (keepIndexed_kept E rootPath excludePatterns st (parsePaths (fst out)) []
              (log (CExec "plocate" (plocateArgs E plocatePattern))
                 (log (CExec "plocate" ["--version"]) (log (CAccess (plocateDb E)) st)))
              eq_refl) as (kept & st2 & Hkeep & _).
  rewrite Hkeep. cbn [app]. intros [= <- _]. right. left.
  eexists. exists (parsePaths (fst out)).
  split; [|now rewrite Hkeep]. reflexivity.
Qed.

(** X15. Whichever tier answers, every path [searchFilesWithValidation]
    returns passed [validatePath] under the allow-list in force and is
    matched by no exclude pattern. *)
Theorem searchFiles_results_are_cleared (E : Env) (fuel : nat) (st st' : State)
  (rootPath pattern : string) (allowedDirs excludePatterns results : list string) :
searchFilesWithValidation E fuel rootPath pattern allowedDirs excludePatterns st
= (Return results, st') ->
Forall (Cleared E rootPath excludePatterns st) results.
Proof.
intros Hrun.
destruct (searchFiles_tiers _ _ _ _ _ _ _ _ _ Hrun)
  as [(st1 & Hallowed & Hwalk) | [(st1 & allPaths & Hallowed & Hindex) | ->]].
- destruct (search_step E rootPath pattern excludePatterns st fuel rootPath [] st1
              (or_introl eq_refl) Hallowed) as (_ & _ & Hret).
  rewrite Hwalk in Hret. destruct (Hret results eq_refl) as (more & -> & Hmore).
  cbn [app]. eapply Forall_impl; [exact Hmore|]. now intros q [Hq _].
- destruct (keepIndexed_kept E rootPath excludePatterns st allPaths [] st1 Hallowed)
    as (kept & st2 & Hkeep & _ & _ & Hall).
  rewrite Hkeep in Hindex. cbn in Hindex. injection Hindex as <-.
  eapply Forall_impl; [exact Hall|]. now intros q [_ Hq].
- constructor.
Qed.

(** X16. When the index answers, what is returned is a sub-sequence of
    the non-empty trimmed lines [plocate] printed, in their order, and
    each returned path is the normalised root itself or starts with it
    followed by a slash. *)
Theorem searchFiles_index_answer_is_filtered (E : Env) (fuel : nat) (st st1 : State)
  (rootPath pattern plocatePattern : string) (allowedDirs excludePatterns : list string)
  (out : string * string) :
isPlocateAvailable E st = (Return true, st1) ->
preparePatternForPlocate pattern = Some plocatePattern ->
execFile E "plocate" (plocateArgs E plocatePattern) = inr out ->
exists kept,
  fst (searchFilesWithValidation E fuel rootPath pattern allowedDirs excludePatterns st)
  = Return kept
  /\ kept `sublist_of` parsePaths (fst out)
  /\ Forall (UnderRoot E rootPath) kept.
Proof.
intros Havail Hpattern Hexec.
pose proof (isPlocateAvailable_true E _ _ Havail) as ->.
destruct (keepIndexed_kept E rootPath excludePatterns st (parsePaths (fst out)) []
            (log (CExec "plocate" (plocateArgs E plocatePattern))
               (log (CExec "plocate" ["--version"]) (log (CAccess (plocateDb E)) st)))
            eq_refl) as (kept & st2 & Hkeep & _ & Hsub & Hall).
exists kept. split; [|split; [exact Hsub|]].
- unfold searchFilesWithValidation, queryIndex.
  unfold bind at 1 2. rewrite Havail. cbn iota. rewrite Hpattern.
  unfold try_catch, bind, execFileAsync, ret. rewrite Hexec, Hkeep. reflexivity.
- eapply Forall_impl; [exact Hall|]. now intros q [Hq _].
Qed.

(** X18. How [searchFileContents] of the second revision ends.  A
    search path that fails validation rejects with that error and [rg] is
    not run.  Otherwise [rg] is run once: if it cannot be started
    (ENOENT) the error says that ripgrep is not installed; exit status 1
    gives the empty list; any other failure is reported as "ripgrep
    execution failed" with its message; and output on the error stream
    alone is reported the same way, wrapped twice, unless it says "No
    matches found". *)
Theorem ripgrep_outcomes (E : Env) (o : GrepOptions) (st : State) :
(forall e st1,
   validatePath E (searchPath o) st = (Throw e, st1) ->
   searchFileContents E o st = (Throw e, st1))
/\ forall validatedSearchPath st1,
     validatePath E (searchPath o) st = (Return validatedSearchPath, st1) ->
     let rgArgs := rgArguments o validatedSearchPath in
     let ran := log (CExec "rg" rgArgs) st1 in
     (forall e,
        execFile E "rg" rgArgs = inl e ->
        searchFileContents E o st
        = (if codeIs e "ENOENT" then
             Throw (Error "ripgrep (rg) is not installed. Please install ripgrep to use this feature.")
           else if codeIsNum e 1 then Return []
           else Throw (Error ("ripgrep execution failed: "
                              +:+ (if nonEmpty (message e) then message e else "Error"))),
           ran))
     /\ (forall stderr,
           execFile E "rg" rgArgs = inr (EmptyString, stderr) ->
           searchFileContents E o st
           = (if nonEmpty stderr && negb (Js.includes stderr "No matches found")
              then Throw (Error ("ripgrep execution failed: ripgrep error: " +:+ stderr))
              else Return [],
              ran)).
Proof.
split.
- intros e st1 Hvalid. unfold searchFileContents. now rewrite (bind_throw _ _ _ _ _ Hvalid).
- intros vsp st1 Hvalid rgArgs ran. split.
  + intros e. now apply rg_failure.
  + intros stderr. now apply rg_silent.
Qed.

Lemma searchFrom_throws (E : Env) (fuel : nat) (o : GrepOptions)
  (matchesPattern : string -> bool) (vsp : string) (stats : Stats)
  (st st' : State) (e : JsError) :
searchFrom E fuel o matchesPattern vsp stats st = (Throw e, st') ->
e = Error ("Path is neither a file nor a directory: " +:+ vsp)
\/ (codeIs e "EACCES" = false /\ codeIs e "ENOENT" = false
    /\ (fst (validatePath E vsp st) = Throw e
        \/ ((exists real, fst (validatePath E vsp st) = Return real)
            /\ readdir E vsp = inl e))).
Proof.
unfold searchFrom. destruct (isFile stats).
- destruct (_ || _); [|discriminate].
  intros Hrun. exfalso. rewrite <- (withCap_self o) in Hrun.
  exact (searchInFile_no_throw E o matchesPattern vsp (maxResults o) vsp ([], 0)
           st st' e Hrun).
- destruct (isDirectory stats).
  + intros Hrun. right. exact (searchDirectory_throws E _ _ _ _ _ _ _ _ _ Hrun).
  + intros [= <- _]. now left.
Qed.

(** X22. The in-process content search rejects only for errors of the
    search path itself.  A pattern the regular-expression engine refuses
    is reported as "Invalid regex pattern" with the pattern as compiled
    (escaped when [fixedStrings] is set), before the path is inspected.
    And whenever the search rejects, the error is the one of validating
    the search path, of compiling the pattern, of [stat], of the path
    being neither file nor directory, or of validating or listing the
    root directory with a code other than EACCES and ENOENT: nothing
    found below the root makes the search fail. *)
Theorem content_search_rejections (E : Env) (fuel : nat) (o : GrepOptions) (st : State) :
let effectivePattern := if fixedStrings o then escapeRegExp (pattern o) else pattern o in
let compiled := regexCompile E effectivePattern (if ignoreCase o then "gi" else "g") in
(forall vsp st1 e,
   validatePath E (searchPath o) st = (Return vsp, st1) ->
   compiled = inl e ->
   searchFileContentsInProcess E fuel o st
   = (Throw (Error ("Invalid regex pattern: " +:+ effectivePattern +:+ ". " +:+ message e)),
      st1))
/\ (forall e st',
      searchFileContentsInProcess E fuel o st = (Throw e, st') ->
      fst (validatePath E (searchPath o) st) = Throw e
      \/ exists vsp st1,
           validatePath E (searchPath o) st = (Return vsp, st1)
           /\ ((exists re,
                  compiled = inl re
                  /\ e = Error ("Invalid regex pattern: " +:+ effectivePattern
                                +:+ ". " +:+ message re))
               \/ fst (fs_stat E vsp st1) = Throw e
               \/ e = Error ("Path is neither a file nor a directory: " +:+ vsp)
               \/ (codeIs e "EACCES" = false /\ codeIs e "ENOENT" = false
                   /\ (fst (validatePath E vsp (log (CStat vsp) st1)) = Throw e
                       \/ readdir E vsp = inl e)))).
Proof.
intros effectivePattern compiled. split.
- intros vsp st1 e Hvalid Hregex.
  exact (grepReports_bad_pattern E fuel o st st1 vsp e Hvalid Hregex).
- intros e st'. unfold searchFileContentsInProcess, grepReports.
  fold effectivePattern. fold compiled.
  unfold bind at 1 2.
  destruct (validatePath E (searchPath o) st) as [[vsp | e0 |] st1] eqn:Hvalid;
    [| intros [= <- _]; now left | discriminate].
  intros Hrun. right. exists vsp, st1. split; [reflexivity|].
  destruct compiled as [re | test] eqn:Hregex.
  { injection Hrun as <- _. left. exists re. auto. }
  unfold bind at 1 in Hrun.
  pose proof (fs_stat_logs E vsp st1) as Hlog.
  destruct (fs_stat E vsp st1) as [[stats | e0 |] st2]; cbn [fst snd] in *;
    [| injection Hrun as <- _; right; left; reflexivity | discriminate].
  subst st2. unfold bind, ret in Hrun.
  destruct (searchFrom E fuel o _ vsp stats (log (CStat vsp) st1))
    as [[acc | e1 |] st3] eqn:Hfrom; try discriminate.
  injection Hrun as <- _.
  destruct (searchFrom_throws _ _ _ _ _ _ _ _ _ Hfrom)
    as [-> | (H1 & H2 & [Hv | [_ Hr]])]; auto 10.
Qed.

(** ** The further properties on concrete worlds *)

Lemma validatePath_success_is_contained_witness :
Inside PathExamples.env
  (normalizePath PathExamples.env (absolutePath PathExamples.env "/allowed/new.txt"))
  (allowed PathExamples.st)
/\ ((realpath PathExamples.env (absolutePath PathExamples.env "/allowed/new.txt")
     = inr "/allowed/new.txt"
     /\ Inside PathExamples.env (normalizePath PathExamples.env "/allowed/new.txt")
          (allowed PathExamples.st)
     /\ snd (validatePath PathExamples.env "/allowed/new.txt" PathExamples.st)
        = log (CRealpath (absolutePath PathExamples.env "/allowed/new.txt")) PathExamples.st)
    \/ (exists enoent realParent,
          realpath PathExamples.env (absolutePath PathExamples.env "/allowed/new.txt")
          = inl enoent
          /\ codeIs enoent "ENOENT" = true
          /\ realpath PathExamples.env
               (path_dirname PathExamples.env
                  (absolutePath PathExamples.env "/allowed/new.txt"))
             = inr realParent
          /\ Inside PathExamples.env (normalizePath PathExamples.env realParent)
               (allowed PathExamples.st)
          /\ "/allowed/new.txt" = absolutePath PathExamples.env "/allowed/new.txt"
          /\ snd (validatePath PathExamples.env "/allowed/new.txt" PathExamples.st)
             = log (CRealpath (path_dirname PathExamples.env
                                 (absolutePath PathExamples.env "/allowed/new.txt")))
                 (log (CRealpath (absolutePath PathExamples.env "/allowed/new.txt"))
                    PathExamples.st))).
Proof.
apply (validatePath_success_is_contained PathExamples.env PathExamples.st
         (snd (validatePath PathExamples.env "/allowed/new.txt" PathExamples.st))
         "/allowed/new.txt" "/allowed/new.txt").
vm_compute. reflexivity.
Defined.

Lemma validatePath_rethrows_resolution_errors_witness :
validatePath DeniedExample.env "/allowed/locked" PathExamples.st
= (Throw (errno "EACCES"),
   log (CRealpath (absolutePath DeniedExample.env "/allowed/locked")) PathExamples.st).
Proof.
apply (validatePath_rethrows_resolution_errors DeniedExample.env PathExamples.st "/allowed/locked"
         (errno "EACCES")).
- exists "/allowed". split; [vm_compute; auto | right; reflexivity].
- reflexivity.
- reflexivity.
Defined.


Lemma applyFileEdits_replaces_the_file_witness :
(exists numBackticks,
   fst (applyFileEdits Posix.quiet "/allowed/w.txt" [] false EditExample.st)
   = Return (formatDiff
               (createUnifiedDiff Posix.quiet (normalizeLineEndings EditExample.original)
                  ("alpha" +:+ nl +:+ "beta" +:+ nl) "/allowed/w.txt")
               numBackticks))
/\ nodes (snd (applyFileEdits Posix.quiet "/allowed/w.txt" [] false EditExample.st))
   = <[ "/allowed/w.txt" := File ("alpha" +:+ nl +:+ "beta" +:+ nl) ]> (nodes EditExample.st)
/\ trace (snd (applyFileEdits Posix.quiet "/allowed/w.txt" [] false EditExample.st))
   = trace EditExample.st
     ++ [CReadFile "/allowed/w.txt";
         CWriteFile EditExample.tmp ("alpha" +:+ nl +:+ "beta" +:+ nl) false;
         CRename EditExample.tmp "/allowed/w.txt"].
Proof.
apply (applyFileEdits_replaces_the_file Posix.quiet (fun n c => eq_refl) EditExample.st
         "/allowed/w.txt" EditExample.original ("alpha" +:+ nl +:+ "beta" +:+ nl) []).
- vm_compute. reflexivity.
- vm_compute. reflexivity.
- vm_compute. reflexivity.
Defined.

Lemma applyEdit_exact_match_witness :
applyEdit "a-b-c" {| oldText := "-"; newText := "+" |} = inr "a+b-c"
/\ applyEdit "a-b-c" {| oldText := "-"; newText := "<$&>" |} = inr "a<->b-c".
Proof.
assert (Hfirst : forall k, k < String.length "a" ->
                   String.prefix "-" (Js.drop k "a-b-c") = false).
{ intros [|k] Hk; [reflexivity | cbn in Hk; lia]. }
split.
- apply (proj1 (applyEdit_exact_match "a-b-c" "a" "b-c"
                  {| oldText := "-"; newText := "+" |} eq_refl Hfirst)).
  reflexivity.
- apply (proj2 (applyEdit_exact_match "a-b-c" "a" "b-c"
                  {| oldText := "-"; newText := "<$&>" |} eq_refl Hfirst) "<" ">");
    reflexivity.
Defined.

Lemma findWindow_finds_first_window_witness :
1 + length ["b"] <= length ["a"; " b "; "b"]
/\ (forall j oldLine contentLine,
      ["b"] !! j = Some oldLine -> ["a"; " b "; "b"] !! (1 + j) = Some contentLine ->
      Js.trim oldLine = Js.trim contentLine)
/\ forall k, k < 1 ->
     exists j oldLine contentLine,
       ["b"] !! j = Some oldLine
       /\ ["a"; " b "; "b"] !! (k + j) = Some contentLine
       /\ Js.trim oldLine <> Js.trim contentLine.
Proof.
apply (findWindow_finds_first_window ["b"] ["a"; " b "; "b"] 1).
vm_compute. reflexivity.
Defined.

Lemma headFile_first_lines_witness :
fst (headFile Posix.quiet "/allowed/long.txt" 150 LongFileExample.st)
= Return (Js.join nl (take (Z.to_nat 150) (textLines LongFileExample.text))).
Proof.
apply (headFile_first_lines Posix.quiet (fun n c => eq_refl) "/allowed/long.txt"
         LongFileExample.text LongFileExample.st 150).
- reflexivity.
- vm_compute. reflexivity.
Defined.

(** What the hypothesis on the characters excludes: a two-byte
    character (here the bytes C3 A9) that the first chunk cuts after its
    first byte is decoded as two replacement characters. *)
Example headFile_cuts_a_character :
fst (headFile Posix.quiet "/allowed/cut.txt" 1 CutCharacterExample.st)
= Return (Js.repeat "a" 1023 +:+ Js.REPLACEMENT +:+ Js.REPLACEMENT +:+ "z").
Proof. vm_compute. reflexivity. Qed.

Lemma tailFile_last_lines_witness :
fst (tailFile Posix.quiet "/allowed/long.txt" 150 LongFileExample.st)
= Return (Js.join nl (lastLines (Z.to_nat 150) (Js.split Js.LF LongFileExample.text))).
Proof.
apply (tailFile_last_lines Posix.quiet (fun n c => eq_refl) "/allowed/long.txt"
         LongFileExample.text LongFileExample.st 150).
- reflexivity.
- vm_compute. reflexivity.
- vm_compute. reflexivity.
Defined.

Lemma file_handle_is_always_closed_witness :
(exists reads,
   trace (snd (headFile FaultyReadExample.env "/allowed/five.txt" 2 ReaderExample.st))
   = trace ReaderExample.st
     ++ COpen "/allowed/five.txt" :: reads ++ [CClose "/allowed/five.txt"]
   /\ Forall (fun c => isRead c = true) reads
   /\ fst (headFile FaultyReadExample.env "/allowed/five.txt" 2 ReaderExample.st) <> Diverge)
/\ (exists reads,
      trace (snd (tailFile FaultyReadExample.env "/allowed/five.txt" 2 ReaderExample.st))
      = trace ReaderExample.st
        ++ CStat "/allowed/five.txt" :: COpen "/allowed/five.txt"
           :: reads ++ [CClose "/allowed/five.txt"]
      /\ Forall (fun c => isRead c = true) reads
      /\ fst (tailFile FaultyReadExample.env "/allowed/five.txt" 2 ReaderExample.st)
         <> Diverge).
Proof.
destruct (file_handle_is_always_closed FaultyReadExample.env ReaderExample.st
            "/allowed/five.txt" 2) as [Hhead Htail].
split.
- apply (Hhead {| h_path := "/allowed/five.txt" |}
           (log (COpen "/allowed/five.txt") ReaderExample.st)).
  vm_compute. reflexivity.
- apply (Htail {| size := 9; isFile := true; isDirectory := false |}
           (log (CStat "/allowed/five.txt") ReaderExample.st)
           {| h_path := "/allowed/five.txt" |}
           (log (COpen "/allowed/five.txt")
              (log (CStat "/allowed/five.txt") ReaderExample.st))).
  + vm_compute. reflexivity.
  + discriminate.
  + vm_compute. reflexivity.
Defined.

Lemma normalizeLineEndings_fixed_point_witness :
normalizeLineEndings fiveLines = fiveLines.
Proof.
apply (proj2 (normalizeLineEndings_fixed_point fiveLines)). vm_compute. reflexivity.
Defined.

Lemma walk_reports_cleared_hits_witness :
Forall (WalkHit (SearchExample.env 2) "/allowed/dir" "**/*.js" [] SearchExample.st)
  ["/allowed/dir/a.js"]
/\ exists calls,
     trace (snd (searchFilesByWalk (SearchExample.env 2) 8 "/allowed/dir" "**/*.js"
                   ["/allowed"] [] SearchExample.st))
     = trace SearchExample.st ++ calls
     /\ ListsCleared (SearchExample.env 2) "/allowed/dir" [] SearchExample.st calls.
Proof.
apply (walk_reports_cleared_hits (SearchExample.env 2) 8 SearchExample.st _
         "/allowed/dir" "**/*.js" ["/allowed"] [] ["/allowed/dir/a.js"]).
apply outcome_pair. vm_compute. reflexivity.
Defined.

Lemma walk_rejects_only_on_root_listing_witness :
searchFilesByWalk (SearchExample.env 2) 8 "/allowed/none" "*" ["/allowed"] [] SearchExample.st
= (Throw (errno "ENOTDIR"), log (CReaddir "/allowed/none") SearchExample.st)
/\ forall e,
     fst (searchFilesByWalk (SearchExample.env 2) 8 "/allowed/dir" "*" ["/allowed"] []
            SearchExample.st) <> Throw e.
Proof.
split.
- apply (proj1 (walk_rejects_only_on_root_listing (SearchExample.env 2) 7 SearchExample.st
                  "/allowed/none" "*" ["/allowed"] [])).
  reflexivity.
- apply (proj2 (walk_rejects_only_on_root_listing (SearchExample.env 2) 7 SearchExample.st
                  "/allowed/dir" "*" ["/allowed"] [])
           [ {| d_name := "a.js"; d_isFile := true; d_isDirectory := false |} ]).
  reflexivity.
Defined.

Lemma walk_ignores_allowed_directories_argument_witness :
searchFilesByWalk (SearchExample.env 2) 8 "/allowed/dir" "**/*.js" ["/allowed"] []
  (Posix.boot [] ∅)
= (Return [], log (CReaddir "/allowed/dir") (Posix.boot [] ∅)).
Proof.
apply (walk_ignores_allowed_directories_argument (SearchExample.env 2) 7 (Posix.boot [] ∅)
         "/allowed/dir" "**/*.js" ["/allowed"] []
         [ {| d_name := "a.js"; d_isFile := true; d_isDirectory := false |} ]).
- reflexivity.
- reflexivity.
Defined.

Lemma searchFiles_falls_back_to_walk_witness :
searchFilesWithValidation (SearchExample.env 1) 8 "/allowed/dir" "**/*.js" ["/allowed"] []
  (Posix.boot ["/allowed"] ∅)
= search (SearchExample.env 1) 8 "/allowed/dir" "**/*.js" [] "/allowed/dir" []
    (log (CAccess SearchExample.db) (Posix.boot ["/allowed"] ∅))
/\ searchFilesWithValidation (SearchExample.env 1) 8 "/allowed/dir" "*.{js,ts}"
     ["/allowed"] [] SearchExample.st
   = search (SearchExample.env 1) 8 "/allowed/dir" "*.{js,ts}" [] "/allowed/dir" []
       SearchExample.probed.
Proof.
split.
- apply (proj1 (searchFiles_falls_back_to_walk (SearchExample.env 1) 8
                  (Posix.boot ["/allowed"] ∅) "/allowed/dir" "**/*.js" ["/allowed"] [])
           (errno "ENOENT")).
  vm_compute. reflexivity.
- apply (proj2 (proj2 (searchFiles_falls_back_to_walk (SearchExample.env 1) 8
                         SearchExample.st "/allowed/dir" "*.{js,ts}" ["/allowed"] []))).
  + vm_compute. reflexivity.
  + vm_compute. reflexivity.
Defined.

Lemma searchFiles_results_are_cleared_witness :
Forall (Cleared IndexExample.env "/allowed/dir" [] SearchExample.st) ["/allowed/dir/a.js"].
Proof.
apply (searchFiles_results_are_cleared IndexExample.env 8 SearchExample.st
         (snd (searchFilesWithValidation IndexExample.env 8 "/allowed/dir" "*.js"
                 ["/allowed"] [] SearchExample.st))
         "/allowed/dir" "*.js" ["/allowed"] [] ["/allowed/dir/a.js"]).
apply outcome_pair. vm_compute. reflexivity.
Defined.

Lemma searchFiles_index_answer_is_filtered_witness :
exists kept,
  fst (searchFilesWithValidation IndexExample.env 8 "/allowed/dir" "**/*.js"
         ["/allowed"] [] SearchExample.st) = Return kept
  /\ kept `sublist_of`
       parsePaths ("/allowed/dir/a.js" +:+ nl +:+ "/etc/b.js" +:+ nl
                   +:+ "/allowed/other/c.js" +:+ nl)
  /\ Forall (UnderRoot IndexExample.env "/allowed/dir") kept.
Proof.
apply (searchFiles_index_answer_is_filtered IndexExample.env 8 SearchExample.st
         SearchExample.probed "/allowed/dir" "**/*.js" "*.js" ["/allowed"] []
         ("/allowed/dir/a.js" +:+ nl +:+ "/etc/b.js" +:+ nl
          +:+ "/allowed/other/c.js" +:+ nl, "")).
- vm_compute. reflexivity.
- vm_compute. reflexivity.
- reflexivity.
Defined.

Lemma preparePatternForPlocate_deletes_only_joints_witness :
(JointsDeleted "src/**/*.js" "src/*.js"
 /\ Js.includes "src/*.js" "**" = false /\ "src/*.js" <> "" /\ "src/*.js" <> "/")
/\ preparePatternForPlocate "*.{js,ts}" = None
/\ preparePatternForPlocate "*.md" = Some "*.md"
/\ preparePatternForPlocate "**/*.md" = Some "*.md".
Proof.
split; [|split; [|split]].
- refine (proj1 (preparePatternForPlocate_deletes_only_joints "src/**/*.js") "src/*.js" _).
  vm_compute. reflexivity.
- apply (proj1 (proj2 (preparePatternForPlocate_deletes_only_joints "*.{js,ts}"))).
  left. reflexivity.
- apply (proj1 (proj2 (proj2 (preparePatternForPlocate_deletes_only_joints "*.md")))).
  vm_compute. reflexivity.
- apply (proj2 (proj2 (proj2 (preparePatternForPlocate_deletes_only_joints "**/*.md")))
           "*.md"); reflexivity.
Defined.

Lemma ripgrep_outcomes_witness :
searchFileContents GrepExample.env GrepExample.options GrepExample.st
= (Throw (Error "ripgrep (rg) is not installed. Please install ripgrep to use this feature."),
   log (CExec "rg" (rgArguments GrepExample.options "/allowed/dir"))
     (log (CRealpath "/allowed/dir") GrepExample.st)).
Proof.
refine (proj1 (proj2 (ripgrep_outcomes GrepExample.env GrepExample.options GrepExample.st)
                 "/allowed/dir" (log (CRealpath "/allowed/dir") GrepExample.st) _)
          (errno "ENOENT") _).
- vm_compute. reflexivity.
- reflexivity.
Defined.

Lemma ripgrep_line_round_trip_witness :
matchRgLine (rgLine "/allowed/dir/a.txt" "12" "let x = 1: done")
= Some ("/allowed/dir/a.txt", "12", "let x = 1: done").
Proof.
apply (ripgrep_line_round_trip "/allowed/dir/a.txt" "12" "let x = 1: done");
  try discriminate; reflexivity.
Defined.

Lemma content_search_reports_matching_lines_witness :
exists test,
  regexCompile GrepExample.env
    (if fixedStrings GrepExample.options then escapeRegExp (pattern GrepExample.options)
     else pattern GrepExample.options)
    (if ignoreCase GrepExample.options then "gi" else "g") = inr test
  /\ Forall (FaithfulReport GrepExample.options
               (fun line => xorb (test line) (invertMatch GrepExample.options))
               GrepExample.st)
       (match fst (grepReports GrepExample.env 4 GrepExample.options GrepExample.st) with
        | Return reports => reports
        | _ => []
        end).
Proof.
apply (content_search_reports_matching_lines GrepExample.env 4 GrepExample.options GrepExample.st
         (snd (grepReports GrepExample.env 4 GrepExample.options GrepExample.st))).
apply outcome_pair. vm_compute. reflexivity.
Defined.

Lemma content_search_rejections_witness :
searchFileContentsInProcess BadPatternExample.env 4 GrepExample.options GrepExample.st
= (Throw (Error ("Invalid regex pattern: " +:+ "test" +:+ ". " +:+ "Unterminated group")),
   log (CRealpath "/allowed/dir") GrepExample.st).
Proof.
apply (proj1 (content_search_rejections BadPatternExample.env 4 GrepExample.options
                GrepExample.st) "/allowed/dir" (log (CRealpath "/allowed/dir") GrepExample.st)
         (Error "Unterminated group")).
- vm_compute. reflexivity.
- reflexivity.
Defined.

Lemma extractProjectIntro_skips_unreadable_files_witness :
exists r st',
  ProjectIntro.extractProjectIntro Posix.quiet "/allowed/proj" false IntroExample.st
  = (Return r, st')
  /\ ProjectIntro.filesChecked r
     = ProjectIntro.priorityFiles ++ ProjectIntro.additionalFiles false
  /\ ProjectIntro.filesFound r
     `sublist_of` ProjectIntro.priorityFiles ++ ProjectIntro.additionalFiles false
  /\ Forall (IntroFile Posix.quiet IntroExample.st "/allowed/proj")
       (ProjectIntro.filesFound r)
  /\ (ProjectIntro.filesFound r = [] -> ProjectIntro.content r = EmptyString).
Proof.
apply (proj2 (extractProjectIntro_skips_unreadable_files Posix.quiet IntroExample.st "/allowed/proj" false)
         "/allowed/proj" (log (CRealpath "/allowed/proj") IntroExample.st)).
vm_compute. reflexivity.
Defined.

Example extractProjectIntro_example :
fst (ProjectIntro.extractProjectIntro Posix.quiet "/allowed/proj" false IntroExample.st)
= Return {| ProjectIntro.content := "# README.md" +:+ nl +:+ nl +:+ "Hello";
            ProjectIntro.filesFound := ["README.md"];
            ProjectIntro.filesChecked := ["CLAUDE.md"; "README.md"] |}.
Proof. vm_compute. reflexivity. Qed.
